(** * Hybrid Player: the mpv control channel and the preview pipeline

    A shallow embedding of three source units of the player:

    - the mpv process manager ([MpvProcess]: spawn, socket, line framing,
      request correlation, default observation, teardown);
    - the main-process bridge (the preview cache, [withReady] and the
      [mpv:capture-thumbnail] handler);
    - the renderer thumbnail module ([HybridThumbnails]).

    Conventions.  JavaScript objects with identity (promises, timers,
    sockets, child processes) are named by natural numbers handed out by
    counters of the modelled runtime.  Integer counters of the source
    ([_requestId], [_nextObsId], [_requestToken]) are integers of [Z]: a
    JavaScript number counts exactly up to 2^53, far beyond any run.
    The numbers the renderer computes with (preview times, positions on
    the progress bar) are IEEE 754 doubles, with the operations of the
    standard library's [SpecFloat] at precision 53; the timestamps the
    bridge rounds to half seconds are rationals of [Q], the operations
    used there being exact on them.  Every operation returns the new
    state together with the list of effects it performed, in program
    order.  Console logging is left out. *)

From Stdlib Require Import ZArith QArith Qround Qabs List String Ascii Lia Lqa Bool.
From Stdlib Require Import Floats.SpecFloat.
From stdpp Require Import gmap strings list pretty.

Open Scope Z_scope.

(* ================================================================== *)
(** * Part I: definitions *)
(* ================================================================== *)

(** ** JavaScript [Map]: a finite map that remembers insertion order *)

Module JsMap.
Section Defs.
Context {K V : Type} `{EqDecision K}.

(** Entries in insertion order, oldest first. *)
Definition t : Type := list (K * V).

Definition empty : t := [].

Fixpoint get (k : K) (m : t) : option V :=
  match m with
  | [] => None
  | (k', v) :: r => if decide (k = k') then Some v else get k r
  end.

(** [Map.prototype.set]: a key already present keeps its position. *)
Fixpoint set (k : K) (v : V) (m : t) : t :=
  match m with
  | [] => [(k, v)]
  | (k', v') :: r =>
      if decide (k = k') then (k, v) :: r else (k', v') :: set k v r
  end.

Fixpoint delete (k : K) (m : t) : t :=
  match m with
  | [] => []
  | (k', v') :: r => if decide (k = k') then r else (k', v') :: delete k r
  end.

Definition size (m : t) : Z := Z.of_nat (length m).

Definition keys (m : t) : list K := fst <$> m.

Definition values (m : t) : list V := snd <$> m.

(** [m.keys().next().value]; [None] stands for [undefined]. *)
Definition first_key (m : t) : option K :=
  match m with
  | [] => None
  | (k, _) :: _ => Some k
  end.
End Defs.
Arguments t : clear implicits.
End JsMap.

(** ** Strings: the two [String.prototype] methods [withReady] uses *)

Definition ascii_lower (c : ascii) : ascii :=
  let n := nat_of_ascii c in
  if (Nat.leb 65 n && Nat.leb n 90)%bool then ascii_of_nat (n + 32) else c.

Fixpoint toLowerCase (s : string) : string :=
  match s with
  | EmptyString => EmptyString
  | String c r => String (ascii_lower c) (toLowerCase r)
  end.

Fixpoint includes (hay needle : string) : bool :=
  if String.prefix needle hay then true
  else match hay with
       | EmptyString => false
       | String _ r => includes r needle
       end.

(** What an awaited call comes back with: a value, or a thrown [Error]
    with its message. *)
Inductive Outcome (A : Type) : Type :=
  | Returned (a : A)
  | Thrown (message : string).
Arguments Returned {A} a.
Arguments Thrown {A} message.

(** ** The bridge: preview cache and the capture-thumbnail handler *)

Module Bridge.

(** [{ dataUrl, time }], the value cached and returned to the renderer. *)
Record Payload := { dataUrl : string; time : Q }.

(** The cache key [`${mediaPath}|${rounded}`].  [rounded] is a whole
    number of half seconds, kept here as that number ([Math.round] of
    twice the time); the text after the last bar determines it, so the
    pair stands for the string. *)
Abbreviation CacheKey := (string * Z)%type.

Abbreviation Cache := (JsMap.t CacheKey Payload).

Definition cacheSet (key : CacheKey) (value : Payload) (previewCache : Cache)
  : Cache :=
  let previewCache := JsMap.set key value previewCache in
  if 180 <? JsMap.size previewCache then
    match JsMap.first_key previewCache with
    | Some oldest => JsMap.delete oldest previewCache
    | None => previewCache
    end
  else previewCache.

(** A run of insertions into the empty cache. *)
Definition fill (entries : list (CacheKey * Payload)) : Cache :=
  foldl (fun c e => cacheSet e.1 e.2 c) JsMap.empty entries.

(** [Math.max(0, Number(time) || 0)]; [None] is a [time] that
    [Number] turns into [NaN]. *)
Definition safeTime (time : option Q) : Q :=
  let n := match time with Some q => q | None => 0%Q end in
  if Qle_bool 0 n then n else 0%Q.

(** [Math.round(x)]: the nearest integer, halves upwards. *)
Definition Math_round (x : Q) : Z := Qfloor (x + (1 # 2)).

(** [Math.round(safeTime * 2)], twice the value of [rounded]. *)
Definition rounded_halves (time : option Q) : Z :=
  Math_round (safeTime time * 2).

Definition rounded (time : option Q) : Q :=
  (inject_Z (rounded_halves time) / 2)%Q.

(** Commands the handler sends to the preview engine. *)
Inductive PreviewCmd :=
  | CmdSpawn
  | CmdLoadFile (mediaPath : string)
  | CmdPause
  | CmdSeek (halves : Z)
  | CmdScreenshotToFile (key : CacheKey).

Record BridgeState := {
  previewCache : Cache;
  previewLoadedPath : option string;
}.

(** What the queued task finds when it runs against the preview engine
    and the disk. *)
Record TaskEnv := {
  preview_has_process : bool;      (* previewMpv.process *)
  preview_ready : bool;            (* waitForMpvReady(previewMpv) resolves *)
  load_result : Outcome unit;      (* await previewMpv.loadFile(mediaPath) *)
  pause_result : Outcome unit;     (* await previewMpv.pause() *)
  seek_result : Outcome unit;      (* await previewMpv.command('seek', ...) *)
  thumb_exists : bool;             (* fs.existsSync(thumbPath) *)
  shot_result : Outcome unit;      (* await ... 'screenshot-to-file' *)
  thumb_base64 : Outcome string;   (* fs.readFileSync(thumbPath) as base64 *)
}.

(** The state of the playback engine the handler reads. *)
Record MainEngine := {
  main_ready : bool;               (* waitForReady() resolves within 5000 ms *)
  main_filePath : option string;   (* mpv.filePath *)
}.

Definition truthy_path (p : option string) : option string :=
  match p with
  | Some EmptyString => None
  | other => other
  end.

(** The key a request works with: [None] when the readiness gate of
    [withReady] fails or no media is loaded. *)
Definition request_key (mpv : MainEngine) (time : option Q) : option CacheKey :=
  if main_ready mpv then
    match truthy_path (main_filePath mpv) with
    | Some mediaPath => Some (mediaPath, rounded_halves time)
    | None => None
    end
  else None.

Definition Step (A : Type) : Type := BridgeState * Outcome A * list PreviewCmd.

(** The task handed to [queuePreview]. *)
Definition capture_task (env : TaskEnv) (mediaPath : string) (time : option Q)
    (st : BridgeState) : Step (option Payload) :=
  let cacheKey := (mediaPath, rounded_halves time) in
  match JsMap.get cacheKey (previewCache st) with
  | Some queuedCached => (st, Returned (Some queuedCached), [])
  | None =>
    let spawned := if preview_has_process env then [] else [CmdSpawn] in
    if negb (preview_ready env) then (st, Thrown "preview mpv not ready", spawned)
    else
      let finish st cmds :=
        match seek_result env with
        | Thrown e => (st, Thrown e, cmds ++ [CmdSeek (rounded_halves time)])
        | Returned _ =>
          let cmds := cmds ++ [CmdSeek (rounded_halves time)] in
          let shoot :=
            if thumb_exists env then Returned tt else shot_result env in
          let cmds :=
            if thumb_exists env then cmds
            else cmds ++ [CmdScreenshotToFile cacheKey] in
          match shoot with
          | Thrown e => (st, Thrown e, cmds)
          | Returned _ =>
            match thumb_base64 env with
            | Thrown e => (st, Thrown e, cmds)
            | Returned b64 =>
              let payload :=
                {| dataUrl := "data:image/jpeg;base64," +:+ b64;
                   time := rounded time |} in
              ({| previewCache := cacheSet cacheKey payload (previewCache st);
                  previewLoadedPath := previewLoadedPath st |},
               Returned (Some payload), cmds)
            end
          end
        end in
      if decide (previewLoadedPath st = Some mediaPath) then finish st spawned
      else
        match load_result env with
        | Thrown e => (st, Thrown e, spawned ++ [CmdLoadFile mediaPath])
        | Returned _ =>
          match pause_result env with
          | Thrown e =>
              (st, Thrown e, spawned ++ [CmdLoadFile mediaPath; CmdPause])
          | Returned _ =>
              finish {| previewCache := previewCache st;
                        previewLoadedPath := Some mediaPath |}
                     (spawned ++ [CmdLoadFile mediaPath; CmdPause])
          end
        end
  end.

(** The function passed to [withReady] by the handler. *)
Definition capture_action (env : TaskEnv) (mpv : MainEngine) (time : option Q)
    (st : BridgeState) : Step (option Payload) :=
  match truthy_path (main_filePath mpv) with
  | None => (st, Returned None, [])
  | Some mediaPath =>
    match JsMap.get (mediaPath, rounded_halves time) (previewCache st) with
    | Some cached => (st, Returned (Some cached), [])
    | None => capture_task env mediaPath time st
    end
  end.

(** [withReady(action, fallback)]: a failed wait and every error whose
    text mentions "not ready" or "not connected" turn into [fallback]. *)
Definition transient (message : string) : bool :=
  let msg := toLowerCase message in
  (includes msg "not ready" || includes msg "not connected")%bool.

Definition withReady {A} (mpv : MainEngine)
    (action : BridgeState -> Step A) (fallback : A) (st : BridgeState) : Step A :=
  let '(st', r, cmds) :=
    if main_ready mpv then action st else (st, Thrown "mpv not ready", []) in
  match r with
  | Returned a => (st', Returned a, cmds)
  | Thrown e =>
      if transient e then (st', Returned fallback, cmds) else (st', Thrown e, cmds)
  end.

(** [ipcMain.handle('mpv:capture-thumbnail', ...)]. *)
Definition capture_thumbnail (env : TaskEnv) (mpv : MainEngine)
    (time : option Q) (st : BridgeState) : Step (option Payload) :=
  withReady mpv (capture_action env mpv time) None st.

Definition screenshots (cmds : list PreviewCmd) : list CacheKey :=
  omap (fun c => match c with CmdScreenshotToFile k => Some k | _ => None end) cmds.

(** The commands that load a file into the preview engine. *)
Definition is_load (c : PreviewCmd) : bool :=
  match c with CmdLoadFile _ | CmdPause => true | _ => false end.

(** The bridge as [setupMpvIpc] leaves it, and a series of handler
    calls served one after the other. *)
Definition initial : BridgeState :=
  {| previewCache := JsMap.empty; previewLoadedPath := None |}.

Record Request := {
  rq_env : TaskEnv;
  rq_mpv : MainEngine;
  rq_time : option Q;
}.

Definition serve_one (st : BridgeState) (rq : Request) : BridgeState :=
  (capture_thumbnail (rq_env rq) (rq_mpv rq) (rq_time rq) st).1.1.

Definition serve (reqs : list Request) : BridgeState :=
  foldl serve_one initial reqs.

(** Sample data: the first [n] half-second previews of one file. *)
Definition sample_payload (i : Z) : Payload :=
  {| dataUrl := "data:image/jpeg;base64,AAAA"; time := (inject_Z i / 2)%Q |}.

Definition sample_entries (n : nat) : list (CacheKey * Payload) :=
  (fun i => (("a.mkv", Z.of_nat i), sample_payload (Z.of_nat i))) <$> seq 0 n.

Definition sample_engine : MainEngine :=
  {| main_ready := true; main_filePath := Some "a.mkv" |}.

Definition sample_env : TaskEnv :=
  {| preview_has_process := true; preview_ready := true;
     load_result := Returned tt; pause_result := Returned tt;
     seek_result := Returned tt; thumb_exists := false;
     shot_result := Returned tt; thumb_base64 := Returned "AAAA" |}.

End Bridge.

(** ** Numbers of the renderer: IEEE 754 doubles *)

Module Double.

Definition prec : Z := 53.
Definition emax : Z := 1024.

(** A JavaScript number.  [S754_nan] is [NaN].  The type also holds
    mantissas that are not normalised, which no double has; nothing
    below depends on a mantissa being normalised. *)
Abbreviation double := spec_float.

(** The double of an integer, and of the quotient of two integers: a
    decimal literal of the source is the double nearest to it, which is
    what the division of its digits by the power of ten gives ([0.25]
    is [ratio 25 100]). *)
Definition of_Z (n : Z) : double := binary_normalize prec emax n 0 false.

Definition sub (x y : double) : double := SFsub prec emax x y.
Definition mul (x y : double) : double := SFmul prec emax x y.
Definition div (x y : double) : double := SFdiv prec emax x y.

Definition ratio (n d : Z) : double := div (of_Z n) (of_Z d).

Definition isNaN (x : double) : bool :=
  match x with S754_nan => true | _ => false end.

(** [Number.isFinite(x)] *)
Definition isFinite (x : double) : bool :=
  match x with S754_zero _ | S754_finite _ _ _ => true | _ => false end.

(** The truth value of a number: [0], [-0] and [NaN] are falsy. *)
Definition truthy (x : double) : bool :=
  match x with S754_zero _ | S754_nan => false | _ => true end.

(** [Math.abs(x)] and [x < y]. *)
Definition Math_abs (x : double) : double := SFabs x.
Definition lt (x y : double) : bool := SFltb x y.
Definition le (x y : double) : bool := SFleb x y.

(** [Math.max(a, b)] and [Math.min(a, b)]: [NaN] if either is [NaN];
    of the two zeros, [+0] is the larger. *)
Definition Math_max (a b : double) : double :=
  if (isNaN a || isNaN b)%bool then S754_nan
  else match a, b with
       | S754_zero sa, S754_zero sb => S754_zero (sa && sb)
       | _, _ => if lt a b then b else a
       end.

Definition Math_min (a b : double) : double :=
  if (isNaN a || isNaN b)%bool then S754_nan
  else match a, b with
       | S754_zero sa, S754_zero sb => S754_zero (sa || sb)
       | _, _ => if lt b a then b else a
       end.

End Double.

(** ** The renderer thumbnail module *)

Module Thumbnails.

(** The arguments [_capture(time, token)] is called with. *)
Record CaptureRequest := { cr_time : Double.double; cr_token : Z }.

Record HybridThumbnails := {
  imgEl : option string;                    (* the <img>, by its [src] *)
  _debounceTimer : option CaptureRequest;   (* the armed timer, by its callback *)
  _lastRequestedTime : Double.double;
  _pending : bool;
  _requestToken : Z;
  _queuedCapture : option CaptureRequest;
  (* the call of [_capture] suspended at its [await] *)
  inflight : option CaptureRequest;
}.

Definition _debounceMs : Z := 120.

(** The constructor; [img] is what [getElementById] found. *)
Definition new (img : option string) : HybridThumbnails :=
  {| imgEl := img; _debounceTimer := None; _lastRequestedTime := Double.of_Z (-1);
     _pending := false; _requestToken := 0; _queuedCapture := None;
     inflight := None |}.

Inductive Effect :=
  | CaptureThumbnail (time : Double.double).    (* window.hybridAPI.mpv.captureThumbnail *)

(** [Math.abs(time - this._lastRequestedTime) < 0.25], in doubles: the
    difference is rounded before it is compared, and the test is false
    when either time is [NaN]. *)
Definition unchanged_time (time last : Double.double) : bool :=
  Double.lt (Double.Math_abs (Double.sub time last)) (Double.ratio 25 100).

(** [generatePreview(time, percent)]; [duration] is the truth value of
    [this.player.duration].  [percent] is not used by the source. *)
Definition generatePreview (time : Double.double) (duration : bool) (t : HybridThumbnails)
  : HybridThumbnails * list Effect :=
  if (negb (bool_decide (is_Some (imgEl t))) || negb duration)%bool then (t, [])
  else if unchanged_time time (_lastRequestedTime t) then (t, [])
  else
    let token := _requestToken t + 1 in
    ({| imgEl := imgEl t;
        _debounceTimer := Some {| cr_time := time; cr_token := token |};
        _lastRequestedTime := time;
        _pending := _pending t;
        _requestToken := token;
        _queuedCapture := _queuedCapture t;
        inflight := inflight t |}, []).

(** [_capture(time, token)] up to its [await]. *)
Definition _capture (r : CaptureRequest) (t : HybridThumbnails)
  : HybridThumbnails * list Effect :=
  if _pending t then
    ({| imgEl := imgEl t; _debounceTimer := _debounceTimer t;
        _lastRequestedTime := _lastRequestedTime t; _pending := _pending t;
        _requestToken := _requestToken t; _queuedCapture := Some r;
        inflight := inflight t |}, [])
  else
    ({| imgEl := imgEl t; _debounceTimer := _debounceTimer t;
        _lastRequestedTime := _lastRequestedTime t; _pending := true;
        _requestToken := _requestToken t; _queuedCapture := _queuedCapture t;
        inflight := Some r |}, [CaptureThumbnail (cr_time r)]).

(** The debounce timer fires. *)
Definition debounce_fires (t : HybridThumbnails) : HybridThumbnails * list Effect :=
  match _debounceTimer t with
  | None => (t, [])
  | Some r =>
      _capture r
        {| imgEl := imgEl t; _debounceTimer := None;
           _lastRequestedTime := _lastRequestedTime t; _pending := _pending t;
           _requestToken := _requestToken t; _queuedCapture := _queuedCapture t;
           inflight := inflight t |}
  end.

(** What the awaited [captureThumbnail] settles with: the [dataUrl] of
    the result ([None] for a [null] result), or an error. *)
Abbreviation CaptureResult := (Outcome (option string)).

(** The image after the [try] block of [_capture]. *)
Definition deliver (token : Z) (result : CaptureResult) (t : HybridThumbnails)
  : option string :=
  match result with
  | Thrown _ => imgEl t
  | Returned res =>
      if negb (bool_decide (token = _requestToken t)) then imgEl t
      else match res, imgEl t with
           | Some (String c url), Some _ => Some (String c url)
           | _, _ => imgEl t
           end
  end.

(** [_capture] from its [await] to its end, [finally] block included. *)
Definition capture_settles (result : CaptureResult) (t : HybridThumbnails)
  : HybridThumbnails * list Effect :=
  match inflight t with
  | None => (t, [])
  | Some r =>
      let t1 :=
        {| imgEl := deliver (cr_token r) result t;
           _debounceTimer := _debounceTimer t;
           _lastRequestedTime := _lastRequestedTime t; _pending := false;
           _requestToken := _requestToken t; _queuedCapture := None;
           inflight := None |} in
      match _queuedCapture t with
      | None => (t1, [])
      | Some queued =>
          if bool_decide (cr_token queued = _requestToken t) then _capture queued t1
          else (t1, [])
      end
  end.

Definition destroy (t : HybridThumbnails) : HybridThumbnails :=
  {| imgEl := imgEl t; _debounceTimer := None;
     _lastRequestedTime := _lastRequestedTime t; _pending := _pending t;
     _requestToken := _requestToken t; _queuedCapture := None;
     inflight := inflight t |}.

Definition cancelPending (t : HybridThumbnails) : HybridThumbnails :=
  {| imgEl := imgEl t; _debounceTimer := None;
     _lastRequestedTime := _lastRequestedTime t; _pending := _pending t;
     _requestToken := _requestToken t + 1; _queuedCapture := None;
     inflight := inflight t |}.

(** Everything that can happen to the module. *)
Inductive Event :=
  | GeneratePreview (time : Double.double) (duration : bool)
  | DebounceFires
  | CaptureSettles (result : CaptureResult)
  | CancelPending
  | Destroy.

Definition step (t : HybridThumbnails) (e : Event) : HybridThumbnails * list Effect :=
  match e with
  | GeneratePreview time duration => generatePreview time duration t
  | DebounceFires => debounce_fires t
  | CaptureSettles result => capture_settles result t
  | CancelPending => (cancelPending t, [])
  | Destroy => (destroy t, [])
  end.

Fixpoint run (t : HybridThumbnails) (es : list Event)
  : HybridThumbnails * list Effect :=
  match es with
  | [] => (t, [])
  | e :: es =>
      let '(t1, out1) := step t e in
      let '(t2, out2) := run t1 es in
      (t2, out1 ++ out2)
  end.

Definition is_generate (e : Event) : bool :=
  match e with GeneratePreview _ _ => true | _ => false end.

(** Requests accepted and not yet started: the armed timer and the
    queued capture. *)
Definition waiting (t : HybridThumbnails) : nat :=
  length (option_list (_debounceTimer t) ++ option_list (_queuedCapture t)).

(** Tokens held by captures that were requested and have not finished. *)
Definition outstanding (t : HybridThumbnails) : list Z :=
  map cr_token
    (option_list (_debounceTimer t) ++ option_list (_queuedCapture t)
       ++ option_list (inflight t)).

(** No capture holds a token from the future. *)
Definition tokens_minted (t : HybridThumbnails) : Prop :=
  Forall (fun k => k <= _requestToken t) (outstanding t).

Definition is_settle (e : Event) : bool :=
  match e with CaptureSettles _ => true | _ => false end.

(** One when a capture is in flight, zero otherwise. *)
Definition busy (t : HybridThumbnails) : nat := if _pending t then 1%nat else 0%nat.

(** How the fields hang together: the busy flag is up exactly while a
    call of [_capture] is suspended, a capture is queued only behind one
    in flight, and the armed timer is that of the latest request. *)
Definition coherent (t : HybridThumbnails) : Prop :=
  _pending t = bool_decide (is_Some (inflight t))
  /\ (is_Some (_queuedCapture t) -> _pending t = true)
  /\ (forall r, _debounceTimer t = Some r ->
        r = {| cr_time := _lastRequestedTime t; cr_token := _requestToken t |}).

End Thumbnails.

(** ** The transport codec: UTF-8 decoding and line framing *)

Module Codec.

(** Text is a sequence of code points; a chunk off the socket is a
    sequence of bytes. *)
Abbreviation text := (list N).

Definition REPLACEMENT : N := 65533.   (* U+FFFD *)

(** The state of the decoder between two bytes of one sequence. *)
Record Utf8State := {
  code_point : N;
  bytes_needed : nat;
  lower : N;
  upper : N;
}.

Definition utf8_idle : Utf8State :=
  {| code_point := 0; bytes_needed := 0; lower := 128; upper := 191 |}.

Definition between (lo hi b : N) : bool := ((lo <=? b) && (b <=? hi))%N%bool.

(** A byte met when no sequence is open: what is emitted, and the state
    it leaves. *)
Definition utf8_lead (b : N) : list N * Utf8State :=
  if (b <=? 127)%N then ([b], utf8_idle)
  else if between 194 223 b then
    ([], {| code_point := N.land b 31; bytes_needed := 1; lower := 128; upper := 191 |})
  else if between 224 239 b then
    ([], {| code_point := N.land b 15; bytes_needed := 2;
            lower := if (b =? 224)%N then 160 else 128;
            upper := if (b =? 237)%N then 159 else 191 |})
  else if between 240 244 b then
    ([], {| code_point := N.land b 7; bytes_needed := 3;
            lower := if (b =? 240)%N then 144 else 128;
            upper := if (b =? 244)%N then 143 else 191 |})
  else ([REPLACEMENT], utf8_idle).

Definition utf8_step (s : Utf8State) (b : N) : list N * Utf8State :=
  match bytes_needed s with
  | O => utf8_lead b
  | S n =>
      if between (lower s) (upper s) b then
        let cp := N.lor (N.shiftl (code_point s) 6) (N.land b 63) in
        match n with
        | O => ([cp], utf8_idle)
        | S _ => ([], {| code_point := cp; bytes_needed := n;
                         lower := 128; upper := 191 |})
        end
      else
        (* the open sequence is broken off; the byte is read again *)
        let '(out, s') := utf8_lead b in (REPLACEMENT :: out, s')
  end.

Fixpoint utf8_run (s : Utf8State) (bytes : list Byte.byte) : text :=
  match bytes with
  | [] => match bytes_needed s with O => [] | S _ => [REPLACEMENT] end
  | b :: rest =>
      let '(out, s') := utf8_step s (Byte.to_N b) in out ++ utf8_run s' rest
  end.

(** [chunk.toString('utf-8')]: every chunk is decoded on its own, ill-formed
    and cut-off sequences coming out as U+FFFD. *)
Definition toString_utf8 (chunk : list Byte.byte) : text := utf8_run utf8_idle chunk.

Definition NEWLINE : N := 10.

(** [s.split('\n')]: never empty, the last item is what follows the last
    newline. *)
Fixpoint split_newline (s : text) : list text :=
  match s with
  | [] => [[]]
  | c :: rest =>
      if (c =? NEWLINE)%N then [] :: split_newline rest
      else match split_newline rest with
           | line :: lines => (c :: line) :: lines
           | [] => [[c]]
           end
  end.

(** White space and line terminators, the characters [trim] removes. *)
Definition is_space (c : N) : bool :=
  (between 9 13 c || (c =? 32) || (c =? 160) || (c =? 5760)
   || between 8192 8202 c || (c =? 8232) || (c =? 8233) || (c =? 8239)
   || (c =? 8287) || (c =? 12288) || (c =? 65279))%N%bool.

(** [!line.trim()] *)
Definition blank (line : text) : bool := forallb is_space line.

(** The framing part of [_onData]: the complete lines of the buffer with
    the chunk appended, and the rest that is kept. *)
Definition frame (recvBuf : text) (chunk : text) : list text * text :=
  let lines := split_newline (recvBuf ++ chunk) in
  (removelast lines, List.last lines []).

(** Lines handed to [JSON.parse], chunk after chunk. *)
Fixpoint lines_of_texts (recvBuf : text) (chunks : list text) : list text :=
  match chunks with
  | [] => []
  | chunk :: rest =>
      let '(lines, recvBuf') := frame recvBuf chunk in
      List.filter (fun l => negb (blank l)) lines ++ lines_of_texts recvBuf' rest
  end.

Definition lines_of_chunks (recvBuf : text) (chunks : list (list Byte.byte))
  : list text :=
  lines_of_texts recvBuf (toString_utf8 <$> chunks).

(** What is kept in the buffer after the chunks. *)
Fixpoint rest_of_texts (recvBuf : text) (chunks : list text) : text :=
  match chunks with
  | [] => recvBuf
  | chunk :: rest => rest_of_texts (frame recvBuf chunk).2 rest
  end.

Definition rest_of_chunks (recvBuf : text) (chunks : list (list Byte.byte)) : text :=
  rest_of_texts recvBuf (toString_utf8 <$> chunks).

(** ASCII text as bytes and as code points. *)
Definition bytes_of (s : string) : list Byte.byte := list_byte_of_string s.

Definition text_of (s : string) : text := Byte.to_N <$> list_byte_of_string s.

(** The state the decoder is in after [bytes]. *)
Fixpoint utf8_after (s : Utf8State) (bytes : list Byte.byte) : Utf8State :=
  match bytes with
  | [] => s
  | b :: rest => utf8_after (utf8_step s (Byte.to_N b)).2 rest
  end.

(** The chunk does not end inside a character. *)
Definition whole (chunk : list Byte.byte) : bool :=
  match bytes_needed (utf8_after utf8_idle chunk) with O => true | S _ => false end.

(** A frame of mpv, the change of [media-title] to a title with an e
    acute in it, 0xC3 0xA9 on the wire.  [sample_frame_head] ends after
    the first of the two bytes, [sample_frame_tail] starts at the
    second. *)
Definition quoted (s : string) : list Byte.byte :=
  [Byte.x22] ++ bytes_of s ++ [Byte.x22].

Definition sample_frame_start : list Byte.byte :=
  bytes_of "{" ++ quoted "event" ++ bytes_of ":" ++ quoted "property-change"
  ++ bytes_of "," ++ quoted "id" ++ bytes_of ":11,"
  ++ quoted "name" ++ bytes_of ":" ++ quoted "media-title"
  ++ bytes_of "," ++ quoted "data" ++ bytes_of ":" ++ [Byte.x22] ++ bytes_of "Am".

Definition sample_frame_end : list Byte.byte :=
  bytes_of "lie" ++ [Byte.x22] ++ bytes_of "}".

Definition sample_frame_head : list Byte.byte := sample_frame_start ++ [Byte.xc3].

Definition sample_frame_tail : list Byte.byte :=
  [Byte.xa9] ++ sample_frame_end ++ [Byte.x0a].

(** The line as mpv wrote it, and the line with the two bytes of the
    character decoded apart. *)
Definition sample_line : text :=
  (Byte.to_N <$> sample_frame_start) ++ [233%N] ++ (Byte.to_N <$> sample_frame_end).

Definition sample_line_broken : text :=
  (Byte.to_N <$> sample_frame_start) ++ [REPLACEMENT; REPLACEMENT]
  ++ (Byte.to_N <$> sample_frame_end).

End Codec.

(** ** The mpv process manager *)

Module Mpv.

(** *** Values off the wire *)

(** What [JSON.parse] returns.  An object lists each key once. *)
#[local] Unset Elimination Schemes.
Inductive json :=
  | JNull
  | JBool (b : bool)
  | JNum (n : Q)
  | JStr (s : string)
  | JArr (items : list json)
  | JObj (fields : list (string * json)).
#[local] Set Elimination Schemes.

(** Built-in operations of the language the source relies on. *)
Class JsRuntime := {
  JSON_parse : Codec.text -> option json;   (* [None]: a SyntaxError *)
  ToNumber : json -> option Q;              (* of a string, array or object; [None]: NaN *)
  ToString : json -> string;                (* of a value that is not a string *)
}.

(** [msg.key]; [None] is [undefined].  Only objects carry the keys read
    here. *)
Fixpoint lookup_field (key : string) (fields : list (string * json)) : option json :=
  match fields with
  | [] => None
  | (k, v) :: rest => if decide (key = k) then Some v else lookup_field key rest
  end.

Definition field (key : string) (msg : json) : option json :=
  match msg with
  | JObj fields => lookup_field key fields
  | _ => None
  end.

Definition truthy (v : option json) : bool :=
  match v with
  | None | Some JNull | Some (JBool false) | Some (JStr EmptyString) => false
  | Some (JNum n) => negb (Qeq_bool n 0)
  | Some _ => true
  end.

(** [v > 0] *)
Definition gt_zero `{JsRuntime} (v : json) : bool :=
  match v with
  | JNum n => negb (Qle_bool n 0)
  | JBool b => b
  | JNull => false
  | other => match ToNumber other with
             | Some n => negb (Qle_bool n 0)
             | None => false
             end
  end.

(** The key of [_pending] a value is the same as, if any: keys are
    whole numbers, and a [Map] never takes a string for a number. *)
Definition as_key (v : json) : option Z :=
  match v with
  | JNum n => if Qeq_bool n (inject_Z (Qfloor n)) then Some (Qfloor n) else None
  | _ => None
  end.

(** [v === 'success'] *)
Definition is_success (v : option json) : bool :=
  match v with
  | Some (JStr s) => bool_decide (s = "success")
  | _ => false
  end.

(** The message of [new Error(msg.error || 'mpv error')]. *)
Definition error_message `{JsRuntime} (error : option json) : string :=
  if truthy error then
    match error with
    | Some (JStr s) => s
    | Some v => ToString v
    | None => "mpv error"
    end
  else "mpv error".

(** *** The instance and the runtime around it *)

Record PendingRequest := {
  promise : nat;     (* the promise [resolve] and [reject] belong to *)
  timer : nat;
}.

(** What a timer runs when it fires. *)
Inductive TimerAction :=
  | CommandTimeout (id : Z) (promise : nat)
  | ReadyWait (promise : nat)
  | Connect (retries : nat).

(** A call of [command] waiting for ['ready']: its listener, with the
    variables the listener and the wait timer share. *)
Record ReadyWaiter := {
  w_promise : nat;
  w_args : list json;
  w_timer : nat;
  w_done : bool;
}.

(** Where [_observeDefaults] is suspended. *)
Inductive Await :=
  | AfterLogRequest
  | AfterObserve (rest : list string).

Record MpvProcess := {
  process : option nat;   (* child process, by its number *)
  socket : option nat;   (* connected socket, by its number *)
  ready : bool;
  filePath : option string;
  _requestId : Z;
  _pending : JsMap.t Z PendingRequest;   (* request_id -> { resolve, reject, timer } *)
  _observedProps : gmap Z string;   (* id -> property name *)
  _nextObsId : Z;
  _recvBuf : Codec.text;   (* partial-line buffer *)
  pipeName : string;
  observeDefaults : bool;
  readyWaiters : list ReadyWaiter;   (* the once('ready') listeners of [command] *)
  timers : gmap nat TimerAction;   (* armed timers and what they will run *)
  conns : gmap nat nat;   (* sockets made by [_connectSocket], each with its [retries] *)
  awaits : gmap nat Await;   (* promises [_observeDefaults] is suspended on *)
  nextPromise : nat;   (* counters naming new objects *)
  nextTimer : nat;
  nextSock : nat;
  nextPid : nat;
}.

Definition set_process (x : option nat) (m : MpvProcess) : MpvProcess :=
  {| process := x; socket := socket m; ready := ready m; filePath :=
     filePath m; _requestId := _requestId m; _pending := _pending m;
     _observedProps := _observedProps m; _nextObsId := _nextObsId m;
     _recvBuf := _recvBuf m; pipeName := pipeName m; observeDefaults :=
     observeDefaults m; readyWaiters := readyWaiters m; timers := timers
     m; conns := conns m; awaits := awaits m; nextPromise := nextPromise
     m; nextTimer := nextTimer m; nextSock := nextSock m; nextPid :=
     nextPid m |}.

Definition set_socket (x : option nat) (m : MpvProcess) : MpvProcess :=
  {| process := process m; socket := x; ready := ready m; filePath :=
     filePath m; _requestId := _requestId m; _pending := _pending m;
     _observedProps := _observedProps m; _nextObsId := _nextObsId m;
     _recvBuf := _recvBuf m; pipeName := pipeName m; observeDefaults :=
     observeDefaults m; readyWaiters := readyWaiters m; timers := timers
     m; conns := conns m; awaits := awaits m; nextPromise := nextPromise
     m; nextTimer := nextTimer m; nextSock := nextSock m; nextPid :=
     nextPid m |}.

Definition set_ready (x : bool) (m : MpvProcess) : MpvProcess :=
  {| process := process m; socket := socket m; ready := x; filePath :=
     filePath m; _requestId := _requestId m; _pending := _pending m;
     _observedProps := _observedProps m; _nextObsId := _nextObsId m;
     _recvBuf := _recvBuf m; pipeName := pipeName m; observeDefaults :=
     observeDefaults m; readyWaiters := readyWaiters m; timers := timers
     m; conns := conns m; awaits := awaits m; nextPromise := nextPromise
     m; nextTimer := nextTimer m; nextSock := nextSock m; nextPid :=
     nextPid m |}.

Definition set_filePath (x : option string) (m : MpvProcess) : MpvProcess :=
  {| process := process m; socket := socket m; ready := ready m; filePath
     := x; _requestId := _requestId m; _pending := _pending m;
     _observedProps := _observedProps m; _nextObsId := _nextObsId m;
     _recvBuf := _recvBuf m; pipeName := pipeName m; observeDefaults :=
     observeDefaults m; readyWaiters := readyWaiters m; timers := timers
     m; conns := conns m; awaits := awaits m; nextPromise := nextPromise
     m; nextTimer := nextTimer m; nextSock := nextSock m; nextPid :=
     nextPid m |}.

Definition set__requestId (x : Z) (m : MpvProcess) : MpvProcess :=
  {| process := process m; socket := socket m; ready := ready m; filePath
     := filePath m; _requestId := x; _pending := _pending m;
     _observedProps := _observedProps m; _nextObsId := _nextObsId m;
     _recvBuf := _recvBuf m; pipeName := pipeName m; observeDefaults :=
     observeDefaults m; readyWaiters := readyWaiters m; timers := timers
     m; conns := conns m; awaits := awaits m; nextPromise := nextPromise
     m; nextTimer := nextTimer m; nextSock := nextSock m; nextPid :=
     nextPid m |}.

Definition set__pending (x : JsMap.t Z PendingRequest) (m : MpvProcess) : MpvProcess :=
  {| process := process m; socket := socket m; ready := ready m; filePath
     := filePath m; _requestId := _requestId m; _pending := x;
     _observedProps := _observedProps m; _nextObsId := _nextObsId m;
     _recvBuf := _recvBuf m; pipeName := pipeName m; observeDefaults :=
     observeDefaults m; readyWaiters := readyWaiters m; timers := timers
     m; conns := conns m; awaits := awaits m; nextPromise := nextPromise
     m; nextTimer := nextTimer m; nextSock := nextSock m; nextPid :=
     nextPid m |}.

Definition set__observedProps (x : gmap Z string) (m : MpvProcess) : MpvProcess :=
  {| process := process m; socket := socket m; ready := ready m; filePath
     := filePath m; _requestId := _requestId m; _pending := _pending m;
     _observedProps := x; _nextObsId := _nextObsId m; _recvBuf := _recvBuf
     m; pipeName := pipeName m; observeDefaults := observeDefaults m;
     readyWaiters := readyWaiters m; timers := timers m; conns := conns m;
     awaits := awaits m; nextPromise := nextPromise m; nextTimer :=
     nextTimer m; nextSock := nextSock m; nextPid := nextPid m |}.

Definition set__nextObsId (x : Z) (m : MpvProcess) : MpvProcess :=
  {| process := process m; socket := socket m; ready := ready m; filePath
     := filePath m; _requestId := _requestId m; _pending := _pending m;
     _observedProps := _observedProps m; _nextObsId := x; _recvBuf :=
     _recvBuf m; pipeName := pipeName m; observeDefaults :=
     observeDefaults m; readyWaiters := readyWaiters m; timers := timers
     m; conns := conns m; awaits := awaits m; nextPromise := nextPromise
     m; nextTimer := nextTimer m; nextSock := nextSock m; nextPid :=
     nextPid m |}.

Definition set__recvBuf (x : Codec.text) (m : MpvProcess) : MpvProcess :=
  {| process := process m; socket := socket m; ready := ready m; filePath
     := filePath m; _requestId := _requestId m; _pending := _pending m;
     _observedProps := _observedProps m; _nextObsId := _nextObsId m;
     _recvBuf := x; pipeName := pipeName m; observeDefaults :=
     observeDefaults m; readyWaiters := readyWaiters m; timers := timers
     m; conns := conns m; awaits := awaits m; nextPromise := nextPromise
     m; nextTimer := nextTimer m; nextSock := nextSock m; nextPid :=
     nextPid m |}.

Definition set_readyWaiters (x : list ReadyWaiter) (m : MpvProcess) : MpvProcess :=
  {| process := process m; socket := socket m; ready := ready m; filePath
     := filePath m; _requestId := _requestId m; _pending := _pending m;
     _observedProps := _observedProps m; _nextObsId := _nextObsId m;
     _recvBuf := _recvBuf m; pipeName := pipeName m; observeDefaults :=
     observeDefaults m; readyWaiters := x; timers := timers m; conns :=
     conns m; awaits := awaits m; nextPromise := nextPromise m; nextTimer
     := nextTimer m; nextSock := nextSock m; nextPid := nextPid m |}.

Definition set_timers (x : gmap nat TimerAction) (m : MpvProcess) : MpvProcess :=
  {| process := process m; socket := socket m; ready := ready m; filePath
     := filePath m; _requestId := _requestId m; _pending := _pending m;
     _observedProps := _observedProps m; _nextObsId := _nextObsId m;
     _recvBuf := _recvBuf m; pipeName := pipeName m; observeDefaults :=
     observeDefaults m; readyWaiters := readyWaiters m; timers := x; conns
     := conns m; awaits := awaits m; nextPromise := nextPromise m;
     nextTimer := nextTimer m; nextSock := nextSock m; nextPid := nextPid
     m |}.

Definition set_conns (x : gmap nat nat) (m : MpvProcess) : MpvProcess :=
  {| process := process m; socket := socket m; ready := ready m; filePath
     := filePath m; _requestId := _requestId m; _pending := _pending m;
     _observedProps := _observedProps m; _nextObsId := _nextObsId m;
     _recvBuf := _recvBuf m; pipeName := pipeName m; observeDefaults :=
     observeDefaults m; readyWaiters := readyWaiters m; timers := timers
     m; conns := x; awaits := awaits m; nextPromise := nextPromise m;
     nextTimer := nextTimer m; nextSock := nextSock m; nextPid := nextPid
     m |}.

Definition set_awaits (x : gmap nat Await) (m : MpvProcess) : MpvProcess :=
  {| process := process m; socket := socket m; ready := ready m; filePath
     := filePath m; _requestId := _requestId m; _pending := _pending m;
     _observedProps := _observedProps m; _nextObsId := _nextObsId m;
     _recvBuf := _recvBuf m; pipeName := pipeName m; observeDefaults :=
     observeDefaults m; readyWaiters := readyWaiters m; timers := timers
     m; conns := conns m; awaits := x; nextPromise := nextPromise m;
     nextTimer := nextTimer m; nextSock := nextSock m; nextPid := nextPid
     m |}.

Definition set_nextPromise (x : nat) (m : MpvProcess) : MpvProcess :=
  {| process := process m; socket := socket m; ready := ready m; filePath
     := filePath m; _requestId := _requestId m; _pending := _pending m;
     _observedProps := _observedProps m; _nextObsId := _nextObsId m;
     _recvBuf := _recvBuf m; pipeName := pipeName m; observeDefaults :=
     observeDefaults m; readyWaiters := readyWaiters m; timers := timers
     m; conns := conns m; awaits := awaits m; nextPromise := x; nextTimer
     := nextTimer m; nextSock := nextSock m; nextPid := nextPid m |}.

Definition set_nextTimer (x : nat) (m : MpvProcess) : MpvProcess :=
  {| process := process m; socket := socket m; ready := ready m; filePath
     := filePath m; _requestId := _requestId m; _pending := _pending m;
     _observedProps := _observedProps m; _nextObsId := _nextObsId m;
     _recvBuf := _recvBuf m; pipeName := pipeName m; observeDefaults :=
     observeDefaults m; readyWaiters := readyWaiters m; timers := timers
     m; conns := conns m; awaits := awaits m; nextPromise := nextPromise
     m; nextTimer := x; nextSock := nextSock m; nextPid := nextPid m |}.

Definition set_nextSock (x : nat) (m : MpvProcess) : MpvProcess :=
  {| process := process m; socket := socket m; ready := ready m; filePath
     := filePath m; _requestId := _requestId m; _pending := _pending m;
     _observedProps := _observedProps m; _nextObsId := _nextObsId m;
     _recvBuf := _recvBuf m; pipeName := pipeName m; observeDefaults :=
     observeDefaults m; readyWaiters := readyWaiters m; timers := timers
     m; conns := conns m; awaits := awaits m; nextPromise := nextPromise
     m; nextTimer := nextTimer m; nextSock := x; nextPid := nextPid m |}.

Definition set_nextPid (x : nat) (m : MpvProcess) : MpvProcess :=
  {| process := process m; socket := socket m; ready := ready m; filePath
     := filePath m; _requestId := _requestId m; _pending := _pending m;
     _observedProps := _observedProps m; _nextObsId := _nextObsId m;
     _recvBuf := _recvBuf m; pipeName := pipeName m; observeDefaults :=
     observeDefaults m; readyWaiters := readyWaiters m; timers := timers
     m; conns := conns m; awaits := awaits m; nextPromise := nextPromise
     m; nextTimer := nextTimer m; nextSock := nextSock m; nextPid := x |}.

(** Events the instance emits to its listeners. *)
Inductive Emitted :=
  | Ready
  | Error (message : string)
  | Exit (code : option Z)
  | MpvEvent (msg : json)
  | LogMessage (msg : json)
  | PropertyChange (name data id : option json)
  | FileLoaded
  | EndFile (reason : option json) (error : json)
  | Seek
  | PlaybackRestart
  | ClientMessage (args : json)
  | StdoutLog (text : string)
  | StderrLog (text : string)
  | Log (text : string).

Inductive Effect :=
  | Resolve (promise : nat) (value : option json)
  | Reject (promise : nat) (message : string)
  | SetTimeout (timer : nat) (ms : Z)
  | ClearTimeout (timer : nat)
  | SocketWrite (sock : nat) (command : list json) (request_id : Z)
  | SocketDestroy (sock : nat)
  | CreateConnection (sock : nat) (pipe : string)
  | ProcessKill (pid : nat)
  | ProcessSpawn (pid : nat) (bin : string) (args : list string)
  | MkdirSync (dir : string)
  | WriteFileSync (path : string) (lines : list string)
  | Emit (e : Emitted).

Abbreviation Result := (MpvProcess * list Effect)%type.

(** The constructor. *)
Definition new (pipe : string) (observe : bool) : MpvProcess :=
  {| process := None; socket := None; ready := false; filePath := None;
     _requestId := 0; _pending := JsMap.empty; _observedProps := ∅;
     _nextObsId := 1; _recvBuf := []; pipeName := pipe;
     observeDefaults := observe; readyWaiters := []; timers := ∅;
     conns := ∅; awaits := ∅; nextPromise := 0; nextTimer := 0;
     nextSock := 0; nextPid := 0 |}.

Definition setTimeout (ms : Z) (action : TimerAction) (m : MpvProcess)
  : nat * MpvProcess * list Effect :=
  let t := nextTimer m in
  (t, set_nextTimer (S t) (set_timers (<[t := action]> (timers m)) m),
   [SetTimeout t ms]).

Definition clearTimeout (t : nat) (m : MpvProcess) : Result :=
  (set_timers (delete t (timers m)) m, [ClearTimeout t]).

Definition connected (m : MpvProcess) : bool :=
  (bool_decide (is_Some (socket m)) && ready m)%bool.

(** *** Sending commands *)

(** The closure [send] of [command], for the promise [p]. *)
Definition send (p : nat) (args : list json) (m : MpvProcess) : Result :=
  match socket m, ready m with
  | Some sock, true =>
      let id := _requestId m + 1 in
      let m := set__requestId id m in
      let '(timer, m, armed) := setTimeout 10000 (CommandTimeout id p) m in
      let m := set__pending
                 (JsMap.set id {| promise := p; timer := timer |} (_pending m)) m in
      (m, armed ++ [SocketWrite sock args id])
  | _, _ => (m, [Resolve p (Some JNull)])
  end.

(** [command(...args)]: the promise it returns, the new state, the effects. *)
Definition command (args : list json) (m : MpvProcess)
  : nat * MpvProcess * list Effect :=
  let p := nextPromise m in
  let m := set_nextPromise (S p) m in
  if connected m then
    let '(m, out) := send p args m in (p, m, out)
  else
    let '(waitTimer, m, armed) := setTimeout 3000 (ReadyWait p) m in
    let waiter := {| w_promise := p; w_args := args; w_timer := waitTimer;
                     w_done := false |} in
    (p, set_readyWaiters (readyWaiters m ++ [waiter]) m, armed).

(** The ['ready'] listeners of waiting commands, run in the order they
    were added. *)
Fixpoint run_waiters (ws : list ReadyWaiter) (m : MpvProcess) : Result :=
  match ws with
  | [] => (m, [])
  | w :: ws =>
      if w_done w then run_waiters ws m
      else
        let '(m, cleared) := clearTimeout (w_timer w) m in
        let '(m, sent) := send (w_promise w) (w_args w) m in
        let '(m, rest) := run_waiters ws m in
        (m, cleared ++ sent ++ rest)
  end.

(** [this.emit('ready')] *)
Definition emit_ready (m : MpvProcess) : Result :=
  let ws := readyWaiters m in
  let '(m, out) := run_waiters ws (set_readyWaiters [] m) in
  (m, Emit Ready :: out).

(** The wait timer of a command fires. *)
Fixpoint expire_waiter (t : nat) (ws : list ReadyWaiter)
  : list ReadyWaiter * list Effect :=
  match ws with
  | [] => ([], [])
  | w :: ws =>
      if bool_decide (w_timer w = t) then
        if w_done w then (w :: ws, [])
        else ({| w_promise := w_promise w; w_args := w_args w;
                 w_timer := w_timer w; w_done := true |} :: ws,
              [Resolve (w_promise w) (Some JNull)])
      else let '(ws', out) := expire_waiter t ws in (w :: ws', out)
  end.

(** *** Incoming messages *)

Definition or_null (v : option json) : json :=
  if truthy v then default JNull v else JNull.

Definition or_empty_array (v : option json) : json :=
  if truthy v then default (JArr []) v else JArr [].

(** The [switch] over [msg.event]. *)
Definition event_emits (msg : json) : list Emitted :=
  match field "event" msg with
  | Some (JStr "log-message") => [LogMessage msg]
  | Some (JStr "property-change") =>
      [PropertyChange (field "name" msg) (field "data" msg) (field "id" msg)]
  | Some (JStr "file-loaded") => [FileLoaded]
  | Some (JStr "end-file") =>
      [EndFile (field "reason" msg) (or_null (field "error" msg))]
  | Some (JStr "seek") => [Seek]
  | Some (JStr "playback-restart") => [PlaybackRestart]
  | Some (JStr "client-message") => [ClientMessage (or_empty_array (field "args" msg))]
  | _ => []
  end.

(** [_handleMessage(msg)].  On [null] the first property access throws;
    [_onData] catches that, and nothing has happened by then. *)
Definition _handleMessage `{JsRuntime} (msg : json) (m : MpvProcess) : Result :=
  match msg with
  | JNull => (m, [])
  | _ =>
    match field "request_id" msg with
    | Some request_id =>
        if gt_zero request_id then
          match as_key request_id with
          | Some id =>
              match JsMap.get id (_pending m) with
              | Some p =>
                  let '(m, cleared) := clearTimeout (timer p) m in
                  let m := set__pending (JsMap.delete id (_pending m)) m in
                  if is_success (field "error" msg) then
                    (m, cleared ++ [Resolve (promise p) (field "data" msg)])
                  else
                    (m, cleared ++ [Reject (promise p)
                                      (error_message (field "error" msg))])
              | None => (m, [])
              end
          | None => (m, [])
          end
        else if truthy (field "event" msg) then
          (m, Emit (MpvEvent msg) :: (Emit <$> event_emits msg))
        else (m, [])
    | None =>
        if truthy (field "event" msg) then
          (m, Emit (MpvEvent msg) :: (Emit <$> event_emits msg))
        else (m, [])
    end
  end.

(** The loop of [_onData] over the complete lines. *)
Fixpoint dispatch `{JsRuntime} (lines : list Codec.text) (m : MpvProcess) : Result :=
  match lines with
  | [] => (m, [])
  | line :: lines =>
      if Codec.blank line then dispatch lines m
      else match JSON_parse line with
           | None => dispatch lines m
           | Some msg =>
               let '(m, out) := _handleMessage msg m in
               let '(m, rest) := dispatch lines m in
               (m, out ++ rest)
           end
  end.

Definition _onData `{JsRuntime} (chunk : list Byte.byte) (m : MpvProcess) : Result :=
  let '(lines, rest) := Codec.frame (_recvBuf m) (Codec.toString_utf8 chunk) in
  dispatch lines (set__recvBuf rest m).

(** [_onData] for each chunk in turn. *)
Fixpoint onData_all `{JsRuntime} (chunks : list (list Byte.byte)) (m : MpvProcess)
  : Result :=
  match chunks with
  | [] => (m, [])
  | chunk :: chunks =>
      let '(m, out) := _onData chunk m in
      let '(m, rest) := onData_all chunks m in
      (m, out ++ rest)
  end.

(** *** Default observation *)

Definition default_props : list string :=
  [ "time-pos"; "duration"; "pause"; "volume"; "mute"; "speed"; "eof-reached";
    "track-list"; "chapter-list"; "chapter"; "media-title"; "video-params";
    "demuxer-cache-state"; "sub-delay"; "sub-visibility"; "estimated-vf-fps";
    "video-bitrate"; "audio-bitrate"; "drop-frame-count"; "paused-for-cache";
    "seeking" ].

(** [observeProperty(name)] *)
Definition observeProperty (name : string) (m : MpvProcess)
  : nat * MpvProcess * list Effect :=
  let id := _nextObsId m in
  let m := set__nextObsId (id + 1) m in
  let m := set__observedProps (<[id := name]> (_observedProps m)) m in
  command [JStr "observe_property"; JNum (inject_Z id); JStr name] m.

(** The loop of [_observeDefaults], up to its next [await]. *)
Definition observe_next (props : list string) (m : MpvProcess) : Result :=
  match props with
  | [] => (m, [])
  | p :: rest =>
      let '(q, m, out) := observeProperty p m in
      (set_awaits (<[q := AfterObserve rest]> (awaits m)) m, out)
  end.

(** [_observeDefaults()], up to its first [await]. *)
Definition _observeDefaults (m : MpvProcess) : Result :=
  let '(q, m, out) :=
    command [JStr "request_log_messages"; JStr "debug"] m in
  (set_awaits (<[q := AfterLogRequest]> (awaits m)) m, out).

(** [_observeDefaults] resumes when the awaited promise settles.  The
    rejection of the log request is caught; a rejected observation ends
    the function. *)
Definition resume (k : Await) (fulfilled : bool) (m : MpvProcess) : Result :=
  match k with
  | AfterLogRequest => observe_next default_props m
  | AfterObserve rest => if fulfilled then observe_next rest m else (m, [])
  end.

(** The promises a list of effects settles, in order, each with whether
    it was fulfilled. *)
Definition settlement (e : Effect) : option (nat * bool) :=
  match e with
  | Resolve p _ => Some (p, true)
  | Reject p _ => Some (p, false)
  | _ => None
  end.

Definition settlements (out : list Effect) : list (nat * bool) :=
  omap settlement out.

(** The microtasks that follow a callback: each settled promise that
    [_observeDefaults] awaits lets it run to its next [await]. *)
Fixpoint drain (settled : list (nat * bool)) (m : MpvProcess) : Result :=
  match settled with
  | [] => (m, [])
  | (p, fulfilled) :: settled =>
      match awaits m !! p with
      | None => drain settled m
      | Some k =>
          let '(m, out) := resume k fulfilled (set_awaits (delete p (awaits m)) m) in
          let '(m, rest) := drain settled m in
          (m, out ++ rest)
      end
  end.

(** *** The socket *)

(** [_connectSocket(retries)] *)
Definition _connectSocket (retries : nat) (m : MpvProcess) : Result :=
  let sock := nextSock m in
  (set_nextSock (S sock) (set_conns (<[sock := retries]> (conns m)) m),
   [CreateConnection sock (pipeName m)]).

Definition on_connect (sock : nat) (m : MpvProcess) : Result :=
  let m := set__recvBuf [] (set_ready true (set_socket (Some sock) m)) in
  let '(m, out) := emit_ready m in
  if observeDefaults m then
    let '(m, more) := _observeDefaults m in (m, out ++ more)
  else (m, out).

Definition on_socket_error (retries : nat) (message : string) (m : MpvProcess)
  : Result :=
  match retries with
  | S fewer =>
      let '(_, m, armed) := setTimeout 200 (Connect fewer) m in (m, armed)
  | O => (m, [Emit (Error ("Could not connect to mpv IPC pipe: " +:+ message))])
  end.

Definition on_close (m : MpvProcess) : Result :=
  (set_ready false (set_socket None m), []).

(** *** Spawning *)

Record SpawnOpts := {
  attachWindow : bool;               (* [opts.attachWindow !== false] *)
  mpvPath : option string;
  ytdlPath : option string;
  cookiesPath : option string;
  screenshotDir : option string;
  hwdec : option string;
  ytdlUserAgent : option string;
  enableYtdlRawOptions : bool;       (* [opts.enableYtdlRawOptions === true] *)
}.

(** The machine the player runs on, as far as [spawn] looks at it. *)
Record Host := {
  existsSync : string -> bool;
  bundled_mpv : string;              (* resources/mpv/mpv.exe *)
  beside_mpv : string;               (* next to the executable *)
  local_mpv : string;                (* in the project *)
  ytdlp_candidates : list string;
  win32 : bool;
  locate : string -> option string;  (* first line printed by where / which *)
  default_cookies : string;
  default_screenshots : string;
  inputConfPath : string;
}.

(** [a || b] on strings. *)
Definition or_else (a : option string) (b : string) : string :=
  match a with
  | Some (String c r) => String c r
  | _ => b
  end.

Definition findBinary (host : Host) : string :=
  if existsSync host (bundled_mpv host) then bundled_mpv host
  else if existsSync host (beside_mpv host) then beside_mpv host
  else if existsSync host (local_mpv host) then local_mpv host
  else "mpv".

Definition findYtDlpBinary (host : Host) : option string :=
  match List.find (existsSync host) (ytdlp_candidates host) with
  | Some candidate => Some candidate
  | None =>
      let names := if win32 host then ["yt-dlp.exe"; "yt-dlp"] else ["yt-dlp"] in
      head (omap (locate host) names)
  end.

Definition inputConfContent : list string :=
  [ "# Hybrid Player – mpv input bindings";
    "# Relays input from mpv VO back to Electron main process";
    EmptyString;
    "# Keyboard (active when mpv native surface has OS focus)";
    "f    script-message hybrid-toggle-fullscreen";
    "F    script-message hybrid-toggle-fullscreen";
    "ESC  script-message hybrid-exit-fullscreen";
    "Escape script-message hybrid-exit-fullscreen";
    "SPACE script-message hybrid-toggle-play";
    "LEFT  script-message hybrid-seek-back-5";
    "RIGHT script-message hybrid-seek-forward-5";
    "m    script-message hybrid-toggle-mute";
    EmptyString;
    "# Mouse";
    "MBTN_LEFT     script-message hybrid-mouse-click";
    "MBTN_LEFT_DBL script-message hybrid-mouse-dblclick";
    "MOUSE_BTN0    script-message hybrid-mouse-click";
    "MOUSE_BTN0_DBL script-message hybrid-mouse-dblclick" ].

Definition defaultUserAgent : string :=
  "Mozilla/5.0 (Windows NT 10.0; Win64; x64) AppleWebKit/537.36 (KHTML, like Gecko) Chrome/132.0.0.0 Safari/537.36".

(** [s.replace(/\\/g, '/')] *)
Fixpoint slashes (s : string) : string :=
  match s with
  | EmptyString => EmptyString
  | String c r =>
      String (if Ascii.eqb c "092"%char then "/"%char else c) (slashes r)
  end.

Definition join_comma (items : list string) : string :=
  match items with
  | [] => EmptyString
  | first :: rest => fold_left (fun acc x => acc +:+ "," +:+ x) rest first
  end.

(** The argument list of the child process. *)
Definition spawn_args (host : Host) (m : MpvProcess) (hwnd : option Z)
    (opts : SpawnOpts) : list string :=
  let screenshots := or_else (screenshotDir opts) (default_screenshots host) in
  let cookies := or_else (cookiesPath opts) (default_cookies host) in
  let ytDlpPath :=
    match ytdlPath opts with
    | Some (String c r) => Some (String c r)
    | _ => findYtDlpBinary host
    end in
  [ "--idle=yes"; "--keep-open=yes"; "--no-terminal"; "--no-osc"; "--no-osd-bar";
    "--osd-level=0";
    "--input-ipc-server=" +:+ pipeName m;
    "--hwdec=" +:+ or_else (hwdec opts) "auto-safe";
    "--vo=gpu"; "--ytdl=yes"; "--sub-auto=fuzzy";
    "--sub-file-paths=subs:subtitles";
    "--screenshot-directory=" +:+ screenshots;
    "--screenshot-template=hybrid-player-%tY-%tm-%td-%tH-%tM-%tS";
    "--screenshot-format=png"; "--no-config"; "--input-default-bindings=no";
    "--input-conf=" +:+ inputConfPath host;
    "--cursor-autohide=no" ]
  ++ match ytDlpPath with
     | Some (String c r) =>
         ["--script-opts=ytdl_hook-ytdl_path=" +:+ slashes (String c r)]
     | _ => []
     end
  ++ (if enableYtdlRawOptions opts then
        ["--ytdl-raw-options=" +:+
           join_comma
             (("user-agent=" +:+ or_else (ytdlUserAgent opts) defaultUserAgent)
                :: (if existsSync host cookies then ["cookies=" +:+ cookies] else []))]
      else [])
  ++ (if attachWindow opts then
        ["--wid=" +:+ match hwnd with Some h => pretty h | None => "null" end]
      else ["--force-window=no"; "--mute=yes"; "--pause=yes"; "--audio=no"]).

(** [spawn(nativeHandle, opts)]; [nativeHandle] is the window handle read
    from the buffer, if one was given. *)
Definition spawn (host : Host) (nativeHandle : option Z) (opts : SpawnOpts)
    (m : MpvProcess) : Result :=
  match process m with
  | Some _ => (m, [])
  | None =>
      let hwnd := if attachWindow opts then nativeHandle else None in
      let mpvBin := or_else (mpvPath opts) (findBinary host) in
      let screenshots := or_else (screenshotDir opts) (default_screenshots host) in
      let made := if existsSync host screenshots then [] else [MkdirSync screenshots] in
      let pid := nextPid m in
      let m := set_nextPid (S pid) (set_process (Some pid) m) in
      let '(_, m, armed) := setTimeout 300 (Connect 10) m in
      (m, made ++ [WriteFileSync (inputConfPath host) inputConfContent;
                   ProcessSpawn pid mpvBin (spawn_args host m hwnd opts)]
            ++ armed)
  end.

(** *** Teardown *)

(** The [forEach] of [destroy]. *)
Fixpoint reject_all (ps : list PendingRequest) (m : MpvProcess) : Result :=
  match ps with
  | [] => (m, [])
  | p :: ps =>
      let '(m, cleared) := clearTimeout (timer p) m in
      let '(m, rest) := reject_all ps m in
      (m, cleared ++ Reject (promise p) "mpv destroyed" :: rest)
  end.

(** [if (this.socket) { ... }]: the quit command, best effort, and the
    end of the socket. *)
Definition destroy_socket (m : MpvProcess) : Result :=
  match socket m with
  | Some sock =>
      let '(_, m, out) := command [JStr "quit"] m in
      (set_socket None m, out ++ [SocketDestroy sock])
  | None => (m, [])
  end.

(** [if (this.process) { ... }] *)
Definition destroy_process (m : MpvProcess) : Result :=
  match process m with
  | Some pid => (set_process None m, [ProcessKill pid])
  | None => (m, [])
  end.

Definition destroy (m : MpvProcess) : Result :=
  let '(m, out1) := destroy_socket m in
  let '(m, out2) := destroy_process m in
  let m := set_ready false m in
  let '(m, out3) := reject_all (JsMap.values (_pending m)) m in
  (set__pending JsMap.empty m, out1 ++ out2 ++ out3).

(** *** Everything that can happen to an instance *)

Inductive Event :=
  | CallSpawn (nativeHandle : option Z) (opts : SpawnOpts)
  | CallCommand (args : list json)
  | CallObserveProperty (name : string)
  | CallLoadFile (path : string)
  | CallDestroy
  | TimerFires (t : nat)
  | SocketConnect (sock : nat)
  | SocketData (sock : nat) (chunk : list Byte.byte)
  | SocketError (sock : nat) (message : string)
  | SocketClose (sock : nat)
  | ProcessStdout (text : string)
  | ProcessStderr (text : string)
  | ProcessError (message : string)
  | ProcessExit (code : option Z).

(** A timer fires: it is gone, and its callback runs. *)
Definition timer_fires (t : nat) (m : MpvProcess) : Result :=
  match timers m !! t with
  | None => (m, [])
  | Some action =>
      let m := set_timers (delete t (timers m)) m in
      match action with
      | CommandTimeout id p =>
          (set__pending (JsMap.delete id (_pending m)) m,
           [Reject p "mpv command timed out"])
      | ReadyWait _ =>
          let '(ws, out) := expire_waiter t (readyWaiters m) in
          (set_readyWaiters ws m, out)
      | Connect retries => _connectSocket retries m
      end
  end.

(** One callback, without the microtasks that follow it. *)
Definition handle `{JsRuntime} (host : Host) (e : Event) (m : MpvProcess) : Result :=
  match e with
  | CallSpawn nativeHandle opts => spawn host nativeHandle opts m
  | CallCommand args => let '(_, m, out) := command args m in (m, out)
  | CallObserveProperty name => let '(_, m, out) := observeProperty name m in (m, out)
  | CallLoadFile path =>
      let '(_, m, out) :=
        command [JStr "loadfile"; JStr path; JStr "replace"]
          (set_filePath (Some path) m) in
      (m, out)
  | CallDestroy => destroy m
  | TimerFires t => timer_fires t m
  | SocketConnect sock =>
      match conns m !! sock with Some _ => on_connect sock m | None => (m, []) end
  | SocketData sock chunk =>
      match conns m !! sock with Some _ => _onData chunk m | None => (m, []) end
  | SocketError sock message =>
      match conns m !! sock with
      | Some retries => on_socket_error retries message m
      | None => (m, [])
      end
  | SocketClose sock =>
      match conns m !! sock with Some _ => on_close m | None => (m, []) end
  | ProcessStdout text => (m, [Emit (StdoutLog text); Emit (Log text)])
  | ProcessStderr text => (m, [Emit (StderrLog text); Emit (Log text)])
  | ProcessError message => (set_ready false m, [Emit (Error message)])
  | ProcessExit code =>
      (set_process None (set_socket None (set_ready false m)), [Emit (Exit code)])
  end.

Definition step `{JsRuntime} (host : Host) (m : MpvProcess) (e : Event) : Result :=
  let '(m, out) := handle host e m in
  let '(m, more) := drain (settlements out) m in
  (m, out ++ more).

Fixpoint run `{JsRuntime} (host : Host) (m : MpvProcess) (es : list Event) : Result :=
  match es with
  | [] => (m, [])
  | e :: es =>
      let '(m, out) := step host m e in
      let '(m, rest) := run host m es in
      (m, out ++ rest)
  end.

(** *** One frame off the socket *)

(** [_onData] for a chunk that completes exactly the one frame [msg],
    followed by the microtasks. *)
Definition receive `{JsRuntime} (msg : json) (m : MpvProcess) : Result :=
  let '(m, out) := _handleMessage msg m in
  let '(m, more) := drain (settlements out) m in
  (m, out ++ more).

Fixpoint receive_all `{JsRuntime} (msgs : list json) (m : MpvProcess) : Result :=
  match msgs with
  | [] => (m, [])
  | msg :: msgs =>
      let '(m, out) := receive msg m in
      let '(m, rest) := receive_all msgs m in
      (m, out ++ rest)
  end.

(** The reply of mpv to the request [id]. *)
Definition response (id : Z) (error : string) (data : option json) : json :=
  JObj (("request_id", JNum (inject_Z id)) :: ("error", JStr error)
          :: match data with Some d => [("data", d)] | None => [] end).

(** The promises settled by a list of effects. *)
Definition settled (out : list Effect) : list nat := (settlements out).*1.

Definition writes (out : list Effect) : list (list json * Z) :=
  omap (fun e => match e with SocketWrite _ c id => Some (c, id) | _ => None end) out.

(** *** The registry of observed properties *)

(** Observation ids start at one, and those handed out so far are the
    ones below the next one, none left out. *)
Definition registry_ok (m : MpvProcess) : Prop :=
  1 <= _nextObsId m
  /\ (forall id name, _observedProps m !! id = Some name -> 1 <= id < _nextObsId m)
  /\ (forall id, 1 <= id < _nextObsId m -> is_Some (_observedProps m !! id)).

(** [m'] has the registry of [m] and a request counter at least as high. *)
Definition quiet (m m' : MpvProcess) : Prop :=
  _requestId m <= _requestId m'
  /\ _observedProps m' = _observedProps m
  /\ _nextObsId m' = _nextObsId m.

(** [m'] has at least the registrations of [m]: none removed, none
    changed, the next id not lower. *)
Definition grows (m m' : MpvProcess) : Prop :=
  _requestId m <= _requestId m'
  /\ _nextObsId m <= _nextObsId m'
  /\ (registry_ok m -> registry_ok m' /\ _observedProps m ⊆ _observedProps m').




(** [_observeDefaults] is suspended on the latest request, which is
    pending, and the instance is connected through [sock]. *)
Definition bootstrapping (sock : nat) (k : Await) (m : MpvProcess) : Prop :=
  socket m = Some sock /\ ready m = true /\ 0 < _requestId m
  /\ exists pr, JsMap.get (_requestId m) (_pending m) = Some pr
                /\ awaits m !! promise pr = Some k.

(** The properties [_observeDefaults] goes on with when the promise it
    awaits is fulfilled. *)
Definition todo (k : Await) : list string :=
  match k with
  | AfterLogRequest => default_props
  | AfterObserve rest => rest
  end.

(** Events that leave a command waiting for ['ready'] with the wait
    timer [t] where it is: anything but a connection and the firing of
    that timer. *)
Definition keeps_waiting (t : nat) (e : Event) : bool :=
  match e with
  | SocketConnect _ => false
  | TimerFires t' => negb (Nat.eqb t' t)
  | _ => true
  end.

(** *** Sample data *)

Definition sample_runtime : JsRuntime :=
  {| JSON_parse := fun _ => None;
     ToNumber := fun _ => None;
     ToString := fun _ => "[object Object]" |}.

Definition sample_host : Host :=
  {| existsSync := fun _ => false; bundled_mpv := "C:/app/resources/mpv/mpv.exe";
     beside_mpv := "C:/app/mpv/mpv.exe"; local_mpv := "C:/src/mpv/mpv.exe";
     ytdlp_candidates := []; win32 := true; locate := fun _ => None;
     default_cookies := "C:/src/cookies.txt";
     default_screenshots := "C:/src/screenshots";
     inputConfPath := "C:/tmp/hybrid-player-input-1.conf" |}.

Definition sample_opts : SpawnOpts :=
  {| attachWindow := true; mpvPath := None; ytdlPath := None; cookiesPath := None;
     screenshotDir := None; hwdec := None; ytdlUserAgent := None;
     enableYtdlRawOptions := false |}.

Definition sample_pipe : string := "\\\\.\\pipe\\hybrid-mpv-ipc-1-1".

(** A fresh instance that was spawned and has connected, default
    observation switched off. *)
Definition sample_connected : MpvProcess :=
  (@run sample_runtime sample_host (new sample_pipe false)
     [CallSpawn (Some 4660) sample_opts; TimerFires 0; SocketConnect 0]).1.

(** The same with three commands in flight. *)
Definition sample_history : list Event :=
  [CallSpawn (Some 4660) sample_opts; TimerFires 0; SocketConnect 0;
   CallCommand [JStr "get_property"; JStr "duration"];
   CallCommand [JStr "get_property"; JStr "volume"];
   CallCommand [JStr "get_property"; JStr "pause"]].

Definition sample_busy : MpvProcess :=
  (@run sample_runtime sample_host (new sample_pipe false) sample_history).1.

(** *** The state an instance keeps consistent *)

(** The promises that are still to be settled: those of the pending
    requests and those of the commands waiting for ['ready']. *)
Definition live (ws : list ReadyWaiter) (P : JsMap.t Z PendingRequest) : list nat :=
  (promise <$> JsMap.values P) ++ (w_promise <$> filter (fun w => w_done w = false) ws).

(** [ws] are the waiting commands, [P] the pending requests, [rid] the
    last request id, [T] the armed timers, [nt] and [np] the next timer
    and promise numbers, [done] the promises settled so far. *)
Record consistent (ws : list ReadyWaiter) (P : JsMap.t Z PendingRequest)
    (rid : Z) (T : gmap nat TimerAction) (nt np : nat) (done : list nat) : Prop := {
  inv_keys : NoDup (JsMap.keys P);
  inv_entry : forall id pr, JsMap.get id P = Some pr ->
      id <= rid /\ T !! timer pr = Some (CommandTimeout id (promise pr));
  inv_timeout : forall t id p, T !! t = Some (CommandTimeout id p) ->
      JsMap.get id P = Some {| promise := p; timer := t |};
  inv_timer_lt : forall t a, T !! t = Some a -> (t < nt)%nat;
  inv_waiter : forall w, w ∈ ws ->
      (w_timer w < nt)%nat
      /\ (w_done w = false -> T !! w_timer w = Some (ReadyWait (w_promise w)));
  inv_waiter_timers : NoDup (w_timer <$> ws);
  inv_live : NoDup (live ws P);
  inv_live_lt : forall p, p ∈ live ws P -> (p < np)%nat /\ p ∉ done;
  inv_settled : NoDup done;
  inv_settled_lt : forall p, p ∈ done -> (p < np)%nat;
}.

Definition not_timeout (a : TimerAction) : Prop :=
  match a with CommandTimeout _ _ => False | _ => True end.

(** [ws] with the waiter holding the timer [t] marked as done. *)
Definition mark_done (t : nat) (ws : list ReadyWaiter) : list ReadyWaiter :=
  (fun w => if bool_decide (w_timer w = t)
            then {| w_promise := w_promise w; w_args := w_args w;
                    w_timer := w_timer w; w_done := true |}
            else w) <$> ws.

(** The waiters whose wait timer is [t] and who are still waiting. *)
Definition expiring (t : nat) (ws : list ReadyWaiter) : list ReadyWaiter :=
  filter (fun w => w_timer w = t /\ w_done w = false) ws.

(** The timers left when those of the requests [ps] are cleared in turn. *)
Definition clear_all (ps : list PendingRequest) (T : gmap nat TimerAction)
  : gmap nat TimerAction :=
  foldl (fun T p => delete (timer p) T) T ps.

Definition consistent_at (ws : list ReadyWaiter) (m : MpvProcess) (done : list nat)
  : Prop :=
  consistent ws (_pending m) (_requestId m) (timers m) (nextTimer m)
    (nextPromise m) done.

Definition Inv (m : MpvProcess) (done : list nat) : Prop :=
  consistent_at (readyWaiters m) m done.

(** *** Requests on the wire *)

(** The request ids written to the socket, in the order written. *)
Definition request_ids (out : list Effect) : list Z := (writes out).*2.

(** From [m] to [m'] the requests written are numbered on from the
    counter of [m], one by one, up to the counter of [m']. *)
Definition numbered (m : MpvProcess) (out : list Effect) (m' : MpvProcess) : Prop :=
  _requestId m <= _requestId m'
  /\ request_ids out = seqZ (_requestId m + 1) (_requestId m' - _requestId m).

(** *** The link to mpv *)

(** [m'] is linked as [m] is: the same socket, the same ready flag, the
    same receive buffer. *)
Definition same_link (m m' : MpvProcess) : Prop :=
  socket m' = socket m /\ ready m' = ready m /\ _recvBuf m' = _recvBuf m.

(** An instance that is ready has a socket. *)
Definition linked (m : MpvProcess) : Prop :=
  ready m = true -> is_Some (socket m).

(** *** A pipe that is never there *)

(** The connections opened, each with the pipe it goes to. *)
Definition connections (out : list Effect) : list (nat * string) :=
  omap (fun e => match e with CreateConnection s pipe => Some (s, pipe) | _ => None end)
       out.

(** What happens when every attempt to connect is refused: the error on
    the socket of the attempt and its close, then, as long as retries
    are left, the retry timer firing.  [sock] is the socket of the
    attempt, [next] and [t] are the numbers the next socket and the
    next timer get. *)
Fixpoint refused (retries : nat) (sock next t : nat) (message : string) : list Event :=
  SocketError sock message :: SocketClose sock ::
  match retries with
  | O => []
  | S fewer => TimerFires t :: refused fewer next (S next) (S t) message
  end.

(** What the instance does then: a timer of 200 ms and a new connection
    for each retry, and the error in the end. *)
Fixpoint refused_effects (retries : nat) (next t : nat) (pipe message : string)
  : list Effect :=
  match retries with
  | O => [Emit (Error ("Could not connect to mpv IPC pipe: " +:+ message))]
  | S fewer =>
      SetTimeout t 200 :: CreateConnection next pipe
        :: refused_effects fewer (S next) (S t) pipe message
  end.

End Mpv.

(** ** Pipe names and the constructor *)

Module Pipe.

(** [makePipeName(prefix)] in the process [pid], with the module
    counter [PIPE_COUNTER]: the name, and the counter after the call. *)
Definition makePipeName (pid PIPE_COUNTER : N) (prefix : string) : string * N :=
  let counter := (PIPE_COUNTER + 1)%N in
  ("\\.\pipe" +:+
     String "092"%char (prefix +:+ "-" +:+ pretty pid +:+ "-" +:+ pretty counter),
   counter).

(** The options of the constructor; [None] is an option not given. *)
Record Options := {
  opt_pipeName : option string;
  pipePrefix : option string;
  opt_observeDefaults : option bool;
}.

(** [new MpvProcess(options)]: the instance, and the counter after. *)
Definition construct (pid PIPE_COUNTER : N) (options : Options)
  : Mpv.MpvProcess * N :=
  let observe := negb (bool_decide (opt_observeDefaults options = Some false)) in
  match opt_pipeName options with
  | Some (String c r) => (Mpv.new (String c r) observe, PIPE_COUNTER)
  | _ =>
      let '(name, counter) :=
        makePipeName pid PIPE_COUNTER
          (Mpv.or_else (pipePrefix options) "hybrid-mpv-ipc") in
      (Mpv.new name observe, counter)
  end.

(** Instances constructed one after the other in one process. *)
Fixpoint construct_all (pid PIPE_COUNTER : N) (options : list Options)
  : list Mpv.MpvProcess :=
  match options with
  | [] => []
  | o :: rest =>
      let '(m, counter) := construct pid PIPE_COUNTER o in
      m :: construct_all pid counter rest
  end.

(** No hyphen in the text. *)
Fixpoint dashless (s : string) : bool :=
  match s with
  | EmptyString => true
  | String c r => (negb (Ascii.eqb c "-"%char) && dashless r)%bool
  end.

End Pipe.

(** ** The bridge: input relayed by mpv *)

(** The listener of ['client-message'] in [setupMpvIpc], with the two
    helpers that keep track of the fullscreen state of the window. *)
Module Input.

(** What a callback finds when it runs. *)
Record Env := {
  alive : bool;          (* [win && !win.isDestroyed()] *)
  isFullScreen : bool;   (* what [win.isFullScreen()] answers *)
  mpv_ready : bool;      (* [mpv.ready] *)
}.

Record InputState := {
  tracked : option bool;      (* [win.__hybridFullscreenState], when a boolean *)
  _clickTimer : option nat;   (* the armed click timer, by its number *)
  nextTimer : nat;            (* the number the next timer gets *)
}.

Inductive Effect :=
  | SetFullScreen (state : bool)
  | Focus                      (* win.focus() *)
  | FocusWebContents           (* win.webContents.focus() *)
  | TogglePause                (* mpv.togglePause() *)
  | SeekRelative (seconds : Z)
  | InvertMute                 (* mpv.getProperty('mute').then(m => mpv.setMute(!m)) *)
  | SetTimeout (t : nat) (ms : Z)
  | ClearTimeout (t : nat).

Definition getTrackedFullscreen (env : Env) (st : InputState) : bool :=
  if negb (alive env) then false
  else match tracked st with
       | Some state => state
       | None => isFullScreen env
       end.

Definition setTrackedFullscreen (env : Env) (state : bool) (st : InputState)
  : InputState * list Effect :=
  if negb (alive env) then (st, [])
  else ({| tracked := Some state; _clickTimer := _clickTimer st;
           nextTimer := nextTimer st |}, [SetFullScreen state]).

(** [if (_clickTimer) clearTimeout(_clickTimer)] *)
Definition clear_click (st : InputState) : list Effect :=
  match _clickTimer st with
  | Some t => [ClearTimeout t]
  | None => []
  end.

(** The [switch] over the command. *)
Definition relay (env : Env) (cmd : string) (st : InputState)
  : InputState * list Effect :=
  if String.eqb cmd "hybrid-toggle-fullscreen" then
    if alive env
    then setTrackedFullscreen env (negb (getTrackedFullscreen env st)) st
    else (st, [])
  else if String.eqb cmd "hybrid-exit-fullscreen" then
    if (alive env && getTrackedFullscreen env st)%bool
    then setTrackedFullscreen env false st
    else (st, [])
  else if String.eqb cmd "hybrid-toggle-play" then
    (st, if mpv_ready env then [TogglePause] else [])
  else if String.eqb cmd "hybrid-mouse-click" then
    let t := nextTimer st in
    ({| tracked := tracked st; _clickTimer := Some t; nextTimer := S t |},
     clear_click st ++ [SetTimeout t 250])
  else if String.eqb cmd "hybrid-mouse-dblclick" then
    let cleared := clear_click st in
    let st := {| tracked := tracked st; _clickTimer := None;
                 nextTimer := nextTimer st |} in
    if alive env then
      let '(st, out) :=
        setTrackedFullscreen env (negb (getTrackedFullscreen env st)) st in
      (st, cleared ++ out)
    else (st, cleared)
  else if String.eqb cmd "hybrid-seek-back-5" then
    (st, if mpv_ready env then [SeekRelative (-5)] else [])
  else if String.eqb cmd "hybrid-seek-forward-5" then
    (st, if mpv_ready env then [SeekRelative 5] else [])
  else if String.eqb cmd "hybrid-toggle-mute" then
    (st, if mpv_ready env then [InvertMute] else [])
  else (st, []).

(** The listener; [args] are the arguments of the script message. *)
Definition client_message (env : Env) (args : list string) (st : InputState)
  : InputState * list Effect :=
  match args with
  | [] | EmptyString :: _ => (st, [])
  | cmd :: _ =>
      let '(st, out) := relay env cmd st in
      (st, out ++ if alive env then [Focus; FocusWebContents] else [])
  end.

(** The click timer [t] fires; a timer that was cleared does not. *)
Definition click_timer_fires (env : Env) (t : nat) (st : InputState)
  : InputState * list Effect :=
  if bool_decide (_clickTimer st = Some t) then
    ({| tracked := tracked st; _clickTimer := None; nextTimer := nextTimer st |},
     if mpv_ready env then [TogglePause] else [])
  else (st, []).

Inductive Event :=
  | Message (env : Env) (args : list string)
  | TimerFires (env : Env) (t : nat).

Definition step (st : InputState) (e : Event) : InputState * list Effect :=
  match e with
  | Message env args => client_message env args st
  | TimerFires env t => click_timer_fires env t st
  end.

Fixpoint run (st : InputState) (es : list Event) : InputState * list Effect :=
  match es with
  | [] => (st, [])
  | e :: es =>
      let '(st, out) := step st e in
      let '(st, rest) := run st es in
      (st, out ++ rest)
  end.

(** The bridge at the start: the main process has set the tracked state
    of the window to [false]. *)
Definition initial : InputState :=
  {| tracked := Some false; _clickTimer := None; nextTimer := 0 |}.

Definition is_click (e : Event) : bool :=
  match e with
  | Message _ (cmd :: _) => String.eqb cmd "hybrid-mouse-click"
  | _ => false
  end.

Definition is_fire (e : Event) : bool :=
  match e with TimerFires _ _ => true | _ => false end.

(** The calls of [togglePause] among the effects. *)
Definition toggles (out : list Effect) : nat :=
  length (List.filter (fun e => match e with TogglePause => true | _ => false end) out).

Definition fullscreen_sets (out : list Effect) : list bool :=
  omap (fun e => match e with SetFullScreen b => Some b | _ => None end) out.

End Input.

(** ** The progress bar: the callers of the thumbnail module *)

(** The listeners [_setupProgressBar] puts on the progress bar and on
    the document.  What they do to the page itself (the width of the
    bar, the hover box, the time shown) is left out. *)
Module Controls.

(** A mouse event and the box of the bar at that moment. *)
Record Pointer := {
  clientX : Double.double;
  rect_left : Double.double;     (* container.getBoundingClientRect().left *)
  rect_width : Double.double;    (* container.getBoundingClientRect().width *)
}.

(** [((e.clientX - rect.left) / rect.width) * 100] *)
Definition raw_percent (e : Pointer) : Double.double :=
  Double.mul (Double.div (Double.sub (clientX e) (rect_left e)) (rect_width e))
    (Double.of_Z 100).

Definition getPercent (e : Pointer) : Double.double :=
  Double.Math_max (Double.of_Z 0) (Double.Math_min (Double.of_Z 100) (raw_percent e)).

Record Progress := {
  isDraggingProgress : bool;
  (* window.HybridApp?.thumbnailModule *)
  thumbnailModule : option Thumbnails.HybridThumbnails;
}.

Inductive Effect :=
  | SeekPercent (percent : Double.double)   (* this.player.seekPercent(percent) *)
  | Capture (time : Double.double).   (* a capture started by the thumbnail module *)

Definition captures (out : list Thumbnails.Effect) : list Effect :=
  (fun e => match e with Thumbnails.CaptureThumbnail t => Capture t end) <$> out.

(** A call into the thumbnail module, if there is one. *)
Definition with_thumbnails
    (f : Thumbnails.HybridThumbnails -> Thumbnails.HybridThumbnails * list Thumbnails.Effect)
    (st : Progress) : Progress * list Effect :=
  match thumbnailModule st with
  | Some t =>
      let '(t', out) := f t in
      ({| isDraggingProgress := isDraggingProgress st; thumbnailModule := Some t' |},
       captures out)
  | None => (st, [])
  end.

Inductive Event :=
  | MouseDown (e : Pointer)                       (* on the bar *)
  | DocumentMouseMove (e : Pointer)
  | DocumentMouseUp (e : Pointer)
  | Hover (e : Pointer) (duration : Double.double)   (* mousemove on the bar *)
  | MouseLeave                                    (* off the bar *)
  | DebounceFires                                 (* inside the thumbnail module *)
  | CaptureSettles (result : Thumbnails.CaptureResult).

(** [this.player.duration] is a number, [NaN] standing for a value
    that is not one (it is falsy as they are, and makes the time
    [NaN]).  [this.player.duration * percent / 100]: *)
Definition hover_time (duration : Double.double) (e : Pointer) : Double.double :=
  Double.div (Double.mul duration (getPercent e)) (Double.of_Z 100).

Definition step (st : Progress) (ev : Event) : Progress * list Effect :=
  match ev with
  | MouseDown e =>
      let '(st, out) :=
        with_thumbnails (fun t => (Thumbnails.cancelPending t, []))
          {| isDraggingProgress := true; thumbnailModule := thumbnailModule st |} in
      (st, out ++ [SeekPercent (getPercent e)])
  | DocumentMouseMove e => (st, [])
  | DocumentMouseUp e =>
      if isDraggingProgress st then
        ({| isDraggingProgress := false; thumbnailModule := thumbnailModule st |},
         [SeekPercent (getPercent e)])
      else (st, [])
  | Hover e duration =>
      if isDraggingProgress st then (st, [])
      else
        with_thumbnails
          (Thumbnails.generatePreview (hover_time duration e) (Double.truthy duration))
          st
  | MouseLeave => with_thumbnails (fun t => (Thumbnails.cancelPending t, [])) st
  | DebounceFires => with_thumbnails Thumbnails.debounce_fires st
  | CaptureSettles result => with_thumbnails (Thumbnails.capture_settles result) st
  end.

Fixpoint run (st : Progress) (evs : list Event) : Progress * list Effect :=
  match evs with
  | [] => (st, [])
  | ev :: evs =>
      let '(st, out) := step st ev in
      let '(st, rest) := run st evs in
      (st, out ++ rest)
  end.

Definition is_mouse_up (ev : Event) : bool :=
  match ev with DocumentMouseUp _ => true | _ => false end.

Definition is_capture (x : Effect) : bool :=
  match x with Capture _ => true | _ => false end.

Definition seeks (out : list Effect) : list Double.double :=
  omap (fun x => match x with SeekPercent p => Some p | _ => None end) out.

(** Dragging, with nothing waiting in the thumbnail module. *)
Definition dragging_idle (st : Progress) : Prop :=
  isDraggingProgress st = true
  /\ forall t, thumbnailModule st = Some t -> Thumbnails.waiting t = 0%nat.

(** A position on the bar: a number from 0 to 100. *)
Definition on_bar (p : Double.double) : Prop :=
  Double.le (Double.of_Z 0) p = true /\ Double.le p (Double.of_Z 100) = true.

(** The pointer and the box of the bar are where finite numbers say,
    and the box has a width. *)
Definition measured (e : Pointer) : Prop :=
  Double.isFinite (clientX e) = true /\ Double.isFinite (rect_left e) = true
  /\ Double.isFinite (rect_width e) = true /\ Double.truthy (rect_width e) = true.

(** That, at every mouse event. *)
Definition has_width (ev : Event) : Prop :=
  match ev with
  | MouseDown e | DocumentMouseMove e | DocumentMouseUp e | Hover e _ => measured e
  | _ => True
  end.

End Controls.

(** Proofs open an instance into its fields with this. *)
Ltac open_instance m :=
  destruct m as [m_process m_socket m_ready m_filePath m_requestId m_pending
                 m_observedProps m_nextObsId m_recvBuf m_pipeName
                 m_observeDefaults m_readyWaiters m_timers m_conns m_awaits
                 m_nextPromise m_nextTimer m_nextSock m_nextPid].

(* ================================================================== *)
(** * Part II: properties *)
(* ================================================================== *)

(** ** Lists *)

Lemma elem_of_drop_inv {A} (x : A) n (l : list A) : x ∈ drop n l -> x ∈ l.
Proof.
  intros Hin. rewrite <- (take_drop n l). apply elem_of_app. now right.
Qed.

Lemma tail_drop {A} n (l : list A) : tail (drop n l) = drop (S n) l.
Proof.
  revert l. induction n as [|n IH]; intros [|x l]; simpl; try reflexivity.
  apply IH.
Qed.

(** ** Insertion-ordered maps *)

Section JsMapFacts.
Context {K V : Type} `{EqDecision K}.
Implicit Types (m : JsMap.t K V) (k : K) (v : V).

Lemma get_None_not_key k m : JsMap.get k m = None <-> k ∉ JsMap.keys m.
Proof.
  induction m as [|[k' v'] r IH]; simpl.
  - split; [intros _; apply not_elem_of_nil | reflexivity].
  - destruct (decide (k = k')) as [->|Hne].
    + split; [discriminate | intros Hn; destruct Hn; left].
    + rewrite IH, not_elem_of_cons. tauto.
Qed.

Lemma set_fresh k v m :
  JsMap.get k m = None -> JsMap.set k v m = m ++ [(k, v)].
Proof.
  induction m as [|[k' v'] r IH]; simpl; [reflexivity|].
  destruct (decide (k = k')); [discriminate|].
  intros Hg. now rewrite IH.
Qed.

Lemma set_present k v m :
  is_Some (JsMap.get k m) -> JsMap.keys (JsMap.set k v m) = JsMap.keys m.
Proof.
  induction m as [|[k' v'] r IH]; simpl.
  - intros [x Hx]; discriminate.
  - destruct (decide (k = k')) as [->|Hne]; simpl; [reflexivity|].
    intros Hs. now rewrite IH.
Qed.

Lemma length_set k v m :
  length (JsMap.set k v m) =
    match JsMap.get k m with Some _ => length m | None => S (length m) end.
Proof.
  induction m as [|[k' v'] r IH]; simpl; [reflexivity|].
  destruct (decide (k = k')); simpl; [reflexivity|].
  rewrite IH. now destruct (JsMap.get k r).
Qed.

Lemma get_set_eq k v m : JsMap.get k (JsMap.set k v m) = Some v.
Proof.
  induction m as [|[k' v'] r IH]; simpl.
  - now rewrite decide_True.
  - destruct (decide (k = k')) as [->|Hne]; simpl.
    + now rewrite decide_True.
    + now rewrite decide_False.
Qed.

Lemma get_set_ne k k' v m :
  k <> k' -> JsMap.get k' (JsMap.set k v m) = JsMap.get k' m.
Proof.
  intros Hne. induction m as [|[k0 v0] r IH]; simpl.
  - rewrite decide_False; [reflexivity | congruence].
  - destruct (decide (k = k0)) as [->|Hk]; simpl.
    + rewrite !decide_False; [reflexivity | congruence | congruence].
    + destruct (decide (k' = k0)); [reflexivity | exact IH].
Qed.

Lemma get_delete_ne k k' m :
  k <> k' -> JsMap.get k' (JsMap.delete k m) = JsMap.get k' m.
Proof.
  intros Hne. induction m as [|[k0 v0] r IH]; simpl; [reflexivity|].
  destruct (decide (k = k0)) as [->|Hk]; simpl.
  - rewrite decide_False; [reflexivity | congruence].
  - destruct (decide (k' = k0)); [reflexivity | exact IH].
Qed.

Lemma keys_delete_subset k k' m :
  k' ∈ JsMap.keys (JsMap.delete k m) -> k' ∈ JsMap.keys m.
Proof.
  induction m as [|[k0 v0] r IH]; simpl; [tauto|].
  destruct (decide (k = k0)) as [->|Hk]; simpl.
  - intros; now right.
  - rewrite !elem_of_cons. intros [->|Hin]; [now left | right; auto].
Qed.

Lemma NoDup_keys_delete k m :
  NoDup (JsMap.keys m) -> NoDup (JsMap.keys (JsMap.delete k m)).
Proof.
  induction m as [|[k0 v0] r IH]; simpl; [trivial|].
  rewrite NoDup_cons. intros [Hnin Hnd].
  destruct (decide (k = k0)); simpl; [exact Hnd|].
  apply NoDup_cons. split; [|auto].
  intros Hin. apply Hnin. eapply keys_delete_subset, Hin.
Qed.

Lemma get_delete_eq k m :
  NoDup (JsMap.keys m) -> JsMap.get k (JsMap.delete k m) = None.
Proof.
  induction m as [|[k0 v0] r IH]; simpl; [reflexivity|].
  rewrite NoDup_cons. intros [Hnin Hnd].
  destruct (decide (k = k0)) as [->|Hk]; simpl.
  - now apply get_None_not_key.
  - rewrite decide_False by exact Hk. auto.
Qed.

Lemma NoDup_keys_set k v m :
  NoDup (JsMap.keys m) -> NoDup (JsMap.keys (JsMap.set k v m)).
Proof.
  intros Hnd. destruct (JsMap.get k m) eqn:Hg.
  - rewrite set_present; [exact Hnd | eauto].
  - rewrite set_fresh by exact Hg. unfold JsMap.keys. rewrite fmap_app. simpl.
    apply NoDup_app. split; [exact Hnd|]. split.
    + intros x Hx Hx'. apply list_elem_of_singleton in Hx'. subst x.
      now apply get_None_not_key in Hg.
    + apply NoDup_singleton.
Qed.

Lemma delete_first k m :
  JsMap.first_key m = Some k -> JsMap.delete k m = tail m.
Proof.
  destruct m as [|[k' v'] r]; simpl; [discriminate|].
  intros [= ->]. now rewrite decide_True.
Qed.

Lemma get_elem_of k m v :
  JsMap.get k m = Some v -> (k, v) ∈ m.
Proof.
  induction m as [|[k0 v0] r IH]; simpl; [discriminate|].
  destruct (decide (k = k0)) as [->|Hk].
  - intros [= ->]. left.
  - intros Hg. right. auto.
Qed.
End JsMapFacts.

(** ** The preview cache *)

Section BridgeFacts.
Import Bridge.
Implicit Types (c : Cache) (key : CacheKey) (value : Payload).

Lemma first_key_set key value c :
  JsMap.first_key (JsMap.set key value c) =
    match JsMap.first_key c with Some k => Some k | None => Some key end.
Proof.
  destruct c as [|[k v] r]; simpl; [reflexivity|].
  destruct (decide (key = k)) as [->|]; reflexivity.
Qed.

Lemma cacheSet_within key value c :
  JsMap.size (JsMap.set key value c) <= 180 ->
  cacheSet key value c = JsMap.set key value c.
Proof.
  intros Hle. unfold cacheSet.
  destruct (Z.ltb_spec 180 (JsMap.size (JsMap.set key value c))); [lia | reflexivity].
Qed.

Lemma cacheSet_over key value c :
  180 < JsMap.size (JsMap.set key value c) ->
  cacheSet key value c = tail (JsMap.set key value c).
Proof.
  intros Hlt. unfold cacheSet.
  destruct (Z.ltb_spec 180 (JsMap.size (JsMap.set key value c))); [|lia].
  destruct (JsMap.first_key (JsMap.set key value c)) as [oldest|] eqn:Hf.
  - now apply delete_first.
  - destruct (JsMap.set key value c); [reflexivity | destruct p; discriminate].
Qed.

Lemma cacheSet_bound key value c :
  JsMap.size c <= 180 -> JsMap.size (cacheSet key value c) <= 180.
Proof.
  intros Hle.
  destruct (Z.le_gt_cases (JsMap.size (JsMap.set key value c)) 180) as [Hs|Hs].
  - now rewrite cacheSet_within.
  - rewrite cacheSet_over by lia.
    unfold JsMap.size in *. rewrite length_set in Hs.
    destruct (JsMap.set key value c) as [|e r] eqn:Hset; simpl in *; [lia|].
    assert (Hlen : length (JsMap.set key value c) = S (length r)) by now rewrite Hset.
    rewrite length_set in Hlen. destruct (JsMap.get key c); lia.
Qed.

Lemma cacheSet_evicts_oldest key value c :
  JsMap.size c = 180 -> JsMap.get key c = None ->
  cacheSet key value c = tail c ++ [(key, value)].
Proof.
  intros Hsz Hg. rewrite cacheSet_over.
  - rewrite set_fresh by exact Hg.
    destruct c; [discriminate | reflexivity].
  - unfold JsMap.size in *. rewrite length_set, Hg. lia.
Qed.

Lemma capture_task_bound env mediaPath time0 st :
  JsMap.size (previewCache st) <= 180 ->
  JsMap.size (previewCache (capture_task env mediaPath time0 st).1.1) <= 180.
Proof.
  intros Hle. unfold capture_task. cbv zeta.
  destruct (JsMap.get (mediaPath, rounded_halves time0) (previewCache st));
    [exact Hle|].
  destruct (preview_ready env); simpl; [|exact Hle].
  destruct (decide (previewLoadedPath st = Some mediaPath)).
  - destruct (seek_result env); [|exact Hle].
    destruct (thumb_exists env); [|destruct (shot_result env); [|exact Hle]];
      (destruct (thumb_base64 env); [|exact Hle]); simpl;
      now apply cacheSet_bound.
  - destruct (load_result env); [|exact Hle].
    destruct (pause_result env); [|exact Hle].
    destruct (seek_result env); [|exact Hle].
    destruct (thumb_exists env); [|destruct (shot_result env); [|exact Hle]];
      (destruct (thumb_base64 env); [|exact Hle]); simpl;
      now apply cacheSet_bound.
Qed.

Lemma withReady_state {A} mpv (action : BridgeState -> Step A) fallback st :
  (withReady mpv action fallback st).1.1 =
    if main_ready mpv then (action st).1.1 else st.
Proof.
  unfold withReady. destruct (main_ready mpv).
  - destruct (action st) as [[st' [a|e]] cmds]; simpl; [reflexivity|].
    now destruct (transient e).
  - reflexivity.
Qed.

Lemma capture_thumbnail_bound env mpv time0 st :
  JsMap.size (previewCache st) <= 180 ->
  JsMap.size (previewCache (capture_thumbnail env mpv time0 st).1.1) <= 180.
Proof.
  intros Hle. unfold capture_thumbnail. rewrite withReady_state.
  destruct (main_ready mpv); [|exact Hle].
  unfold capture_action.
  destruct (truthy_path (main_filePath mpv)) as [mediaPath|]; [|exact Hle].
  destruct (JsMap.get (mediaPath, rounded_halves time0) (previewCache st));
    [exact Hle|].
  now apply capture_task_bound.
Qed.

Lemma serve_from_bound reqs st :
  JsMap.size (previewCache st) <= 180 ->
  JsMap.size (previewCache (foldl serve_one st reqs)) <= 180.
Proof.
  revert st. induction reqs as [|rq reqs IH]; intros st Hle; simpl; [exact Hle|].
  apply IH. now apply capture_thumbnail_bound.
Qed.

Lemma serve_bound reqs : JsMap.size (previewCache (serve reqs)) <= 180.
Proof. apply serve_from_bound. unfold JsMap.size. simpl. lia. Qed.

(** A request whose key is cached is answered from the cache: the
    payload comes back, nothing is sent to the preview engine, and the
    bridge (the order of the cache included) is as before. *)
Lemma capture_thumbnail_hit env mpv time0 st key cached :
  request_key mpv time0 = Some key ->
  JsMap.get key (previewCache st) = Some cached ->
  capture_thumbnail env mpv time0 st = (st, Returned (Some cached), []).
Proof.
  unfold request_key, capture_thumbnail, withReady, capture_action.
  destruct (main_ready mpv); [|discriminate].
  destruct (truthy_path (main_filePath mpv)) as [mediaPath|]; [|discriminate].
  intros [= <-] Hg. now rewrite Hg.
Qed.

(** Filling the cache with distinct keys: it keeps the last 180 of
    them, in the order they came. *)
Lemma fill_snoc entries e :
  fill (entries ++ [e]) = cacheSet e.1 e.2 (fill entries).
Proof. unfold fill. now rewrite foldl_app. Qed.

Lemma fill_distinct entries :
  NoDup (entries.*1) ->
  fill entries = drop (length entries - 180) entries.
Proof.
  induction entries as [|[k v] entries IH] using rev_ind; intros Hnd.
  - reflexivity.
  - rewrite fmap_app in Hnd. apply NoDup_app in Hnd as (Hnd & Hfresh & _).
    rewrite fill_snoc, IH by exact Hnd. simpl.
    assert (Hg : JsMap.get k (drop (length entries - 180) entries) = None).
    { apply get_None_not_key. intros Hin.
      apply (Hfresh k); [|simpl; left].
      unfold JsMap.keys in Hin.
      apply list_elem_of_fmap in Hin as (y & -> & Hy).
      apply list_elem_of_fmap. exists y. split; [reflexivity|].
      eapply elem_of_drop_inv, Hy. }
    rewrite length_app. simpl.
    destruct (le_lt_dec 180 (length entries)) as [Hbig|Hsmall].
    + rewrite cacheSet_evicts_oldest; [|unfold JsMap.size; rewrite length_drop; lia|exact Hg].
      replace (length entries + 1 - 180)%nat with (S (length entries - 180)) by lia.
      rewrite drop_app_le by lia. f_equal.
      apply tail_drop.
    + replace (length entries - 180)%nat with 0%nat in * by lia.
      replace (length entries + 1 - 180)%nat with 0%nat by lia.
      rewrite !drop_0 in *.
      rewrite cacheSet_within; [now apply set_fresh|].
      unfold JsMap.size. rewrite length_set, Hg. lia.
Qed.
End BridgeFacts.

Section PreviewCacheClaim.
Import Bridge.

Lemma fill_bound entries : JsMap.size (fill entries) <= 180.
Proof.
  induction entries as [|e entries IH] using rev_ind.
  - unfold JsMap.size. simpl. lia.
  - rewrite fill_snoc. now apply cacheSet_bound.
Qed.

(** C4.  The preview cache never holds more than 180 entries: not
    after any series of handler calls, and not after any run of
    insertions.  An insertion of a new key into a full cache drops the
    entry at the head of the insertion order, so distinct keys leave
    the last 180 of them; a lookup never reorders anything.  A request
    whose key is in the cache gets the cached payload, sends no command
    to the preview engine (no second screenshot-to-file) and leaves
    the bridge as it was. *)
Theorem preview_cache_bounded_fifo
    (reqs : list Request) (entries : list (CacheKey * Payload))
    (c : Cache) (key : CacheKey) (value : Payload)
    (env : TaskEnv) (mpv : MainEngine) (time0 : option Q)
    (st : BridgeState) (hit : CacheKey) (cached : Payload) :
  JsMap.size (previewCache (serve reqs)) <= 180
  /\ JsMap.size (fill entries) <= 180
  /\ (JsMap.size c <= 180 -> JsMap.size (cacheSet key value c) <= 180)
  /\ (JsMap.size c = 180 -> JsMap.get key c = None ->
      cacheSet key value c = tail c ++ [(key, value)])
  /\ (NoDup entries.*1 -> fill entries = drop (length entries - 180) entries)
  /\ (request_key mpv time0 = Some hit ->
      JsMap.get hit (previewCache st) = Some cached ->
      capture_thumbnail env mpv time0 st = (st, Returned (Some cached), [])).
Proof.
  split; [apply serve_bound|].
  split; [apply fill_bound|].
  split; [apply cacheSet_bound|].
  split; [apply cacheSet_evicts_oldest|].
  split; [apply fill_distinct|].
  apply capture_thumbnail_hit.
Qed.

Lemma preview_cache_bounded_fifo_witness :
  let c := fill (sample_entries 180) in
  let key := ("a.mkv", 180) in
  let st := {| previewCache := c; previewLoadedPath := Some "a.mkv" |} in
  JsMap.size (cacheSet key (sample_payload 180) c) <= 180
  /\ cacheSet key (sample_payload 180) c = tail c ++ [(key, sample_payload 180)]
  /\ fill (sample_entries 181) = drop 1 (sample_entries 181)
  /\ capture_thumbnail sample_env sample_engine (Some (3 # 2)) st
       = (st, Returned (Some (sample_payload 3)), []).
Proof.
  intros c key st.
  destruct (preview_cache_bounded_fifo [] (sample_entries 181) c key
              (sample_payload 180) sample_env sample_engine (Some (3 # 2)) st
              ("a.mkv", 3) (sample_payload 3))
    as (_ & _ & Hbound & Hevict & Hfill & Hhit).
  split; [apply Hbound; vm_compute; discriminate|].
  split; [apply Hevict; vm_compute; reflexivity|].
  split; [apply Hfill; apply (bool_decide_unpack _); vm_compute; exact I|].
  apply Hhit; vm_compute; reflexivity.
Defined.
End PreviewCacheClaim.

(** ** The thumbnail module *)

Section ThumbnailFacts.
Import Thumbnails.
Implicit Types (t : HybridThumbnails) (e : Event) (r : CaptureRequest).




(** A call either changes nothing or records its own time and mints
    the next token. *)
Lemma generatePreview_cases time0 duration t :
  generatePreview time0 duration t = (t, [])
  \/ (generatePreview time0 duration t).2 = []
     /\ _lastRequestedTime (generatePreview time0 duration t).1 = time0
     /\ _requestToken (generatePreview time0 duration t).1 = _requestToken t + 1
     /\ _debounceTimer (generatePreview time0 duration t).1 =
          Some {| cr_time := time0; cr_token := _requestToken t + 1 |}
     /\ _queuedCapture (generatePreview time0 duration t).1 = _queuedCapture t
     /\ inflight (generatePreview time0 duration t).1 = inflight t
     /\ imgEl (generatePreview time0 duration t).1 = imgEl t.
Proof.
  unfold generatePreview.
  destruct (_ || _)%bool; [now left|].
  destruct (unchanged_time _ _); [now left|].
  right. simpl. repeat split.
Qed.




(** Captures are paid for by waiting requests: an event other than a
    call of [generatePreview] starts at most as many captures as it
    takes requests out of the waiting positions. *)
Lemma step_spends e t :
  is_generate e = false ->
  (length (step t e).2 + waiting (step t e).1 <= waiting t)%nat.
Proof.
  unfold waiting.
  destruct t as [img timer last pend tok queued inf].
  destruct e; simpl; try discriminate; intros _.
  - unfold debounce_fires, _capture; simpl.
    destruct timer, pend, queued; simpl; lia.
  - unfold capture_settles, _capture; simpl.
    destruct inf, queued as [q|]; simpl; try lia;
      try (destruct (bool_decide _); simpl); destruct timer; simpl; lia.
  - destruct timer, queued; simpl; lia.
  - destruct timer, queued; simpl; lia.
Qed.

Lemma run_spends es t :
  forallb (fun e => negb (is_generate e)) es = true ->
  (length (run t es).2 + waiting (run t es).1 <= waiting t)%nat.
Proof.
  revert t. induction es as [|e es IH]; intros t; simpl; [lia|].
  rewrite andb_true_iff, negb_true_iff. intros [He Hes].
  pose proof (step_spends e t He) as Hstep.
  destruct (step t e) as [t1 o1]. specialize (IH t1 Hes).
  destruct (run t1 es) as [t2 o2]. simpl in *. rewrite length_app. lia.
Qed.

Lemma generatePreview_waiting time0 duration t :
  (generatePreview time0 duration t).2 = []
  /\ (generatePreview time0 duration t = (t, [])
      \/ (waiting (generatePreview time0 duration t).1 <= S (waiting t))%nat).
Proof.
  destruct (generatePreview_cases time0 duration t)
    as [Heq | (Hout & _ & _ & Htimer & Hq & _)].
  - rewrite Heq. split; [reflexivity | now left].
  - split; [exact Hout|]. right. unfold waiting. rewrite Htimer, Hq.
    simpl. destruct (_debounceTimer t); simpl; lia.
Qed.
End ThumbnailFacts.

Section SmallChangeClaim.
Import Thumbnails.




(** The difference is rounded before it is compared: 0.3 - 0.05 is
    0.25 in doubles, so after a request for 0.05 a call for 0.3 is
    accepted. *)
Example generatePreview_rounded_difference :
  unchanged_time (Double.ratio 3 10) (Double.ratio 5 100) = false
  /\ _lastRequestedTime
       (run (new (Some EmptyString))
          [GeneratePreview (Double.ratio 5 100) true;
           GeneratePreview (Double.ratio 3 10) true]).1
     = Double.ratio 3 10.
Proof. split; vm_compute; reflexivity. Qed.
End SmallChangeClaim.

Section StaleTokenClaim.
Import Thumbnails.
Implicit Types (t : HybridThumbnails) (e : Event) (r : CaptureRequest).

(** Tokens only grow. *)
Lemma step_token_mono e t : _requestToken t <= _requestToken (step t e).1.
Proof.
  destruct t as [img timer last pend tok queued inf].
  destruct e; simpl.
  - unfold generatePreview; simpl.
    destruct (_ || _)%bool; simpl; [lia|].
    destruct (unchanged_time _ _); simpl; lia.
  - unfold debounce_fires, _capture; simpl.
    destruct timer, pend; simpl; lia.
  - unfold capture_settles, _capture; simpl.
    destruct inf, queued; simpl; try lia.
    destruct (bool_decide _); simpl; lia.
  - lia.
  - lia.
Qed.

Lemma run_token_mono es t : _requestToken t <= _requestToken (run t es).1.
Proof.
  revert t. induction es as [|e es IH]; intros t; simpl; [lia|].
  pose proof (step_token_mono e t) as Hs.
  destruct (step t e) as [t1 o1]. specialize (IH t1).
  destruct (run t1 es) as [t2 o2]. simpl in *. lia.
Qed.

Lemma step_tokens_minted e t : tokens_minted t -> tokens_minted (step t e).1.
Proof.
  unfold tokens_minted, outstanding.
  destruct t as [img timer last pend tok queued inf].
  destruct e; simpl.
  - unfold generatePreview; simpl.
    destruct (_ || _)%bool; simpl; [trivial|].
    destruct (unchanged_time _ _); simpl; [trivial|].
    intros Hall. constructor; [lia|].
    destruct timer; simpl in *;
      [apply Forall_cons in Hall as [_ Hall]|];
      (eapply Forall_impl; [exact Hall | simpl; intros; lia]).
  - unfold debounce_fires, _capture; simpl.
    destruct timer as [r|]; simpl; [|trivial].
    intros Hall. apply Forall_cons in Hall as [Hr Hall].
    destruct pend; simpl.
    + constructor; [exact Hr|].
      destruct queued; simpl in *;
        [now apply Forall_cons in Hall as [_ Hall] | exact Hall].
    + destruct queued, inf; simpl in *;
        repeat (apply Forall_cons in Hall as [? Hall]);
        repeat constructor; assumption.
  - unfold capture_settles, _capture; simpl.
    intros Hall.
    destruct inf as [r|]; [|exact Hall].
    destruct queued as [q|]; simpl.
    + destruct (bool_decide _); simpl;
        destruct timer; simpl in *;
        repeat (apply Forall_cons in Hall as [? Hall]);
        repeat constructor; assumption.
    + destruct timer; simpl in *;
        repeat (apply Forall_cons in Hall as [? Hall]);
        repeat constructor; assumption.
  - intros Hall. destruct inf; simpl; [|constructor].
    destruct timer, queued; simpl in *;
      repeat (apply Forall_cons in Hall as [? Hall]);
      repeat constructor; lia.
  - intros Hall. destruct inf; simpl; [|constructor].
    destruct timer, queued; simpl in *;
      repeat (apply Forall_cons in Hall as [? Hall]);
      repeat constructor; lia.
Qed.

Lemma run_tokens_minted es t : tokens_minted t -> tokens_minted (run t es).1.
Proof.
  revert t. induction es as [|e es IH]; intros t Hwf; simpl; [exact Hwf|].
  pose proof (step_tokens_minted e t Hwf) as Hs.
  destruct (step t e) as [t1 o1]. specialize (IH t1 Hs).
  now destruct (run t1 es) as [t2 o2].
Qed.

Lemma new_tokens_minted img : tokens_minted (new img).
Proof. constructor. Qed.

(** The image after a completion is what [deliver] computes: draining
    the queue does not touch it. *)
Lemma imgEl_capture_settles result t :
  imgEl (capture_settles result t).1 =
    match inflight t with
    | Some r => deliver (cr_token r) result t
    | None => imgEl t
    end.
Proof.
  unfold capture_settles, _capture.
  destruct (inflight t); [|reflexivity].
  destruct (_queuedCapture t); [|reflexivity].
  destruct (bool_decide _); [|reflexivity]. reflexivity.
Qed.

Lemma deliver_stale token result t :
  token <> _requestToken t -> deliver token result t = imgEl t.
Proof.
  intros Hne. unfold deliver. destruct result; [|reflexivity].
  now rewrite bool_decide_eq_false_2.
Qed.

Lemma capture_settles_applies_latest_only result t :
  imgEl (capture_settles result t).1 <> imgEl t ->
  exists r, inflight t = Some r /\ cr_token r = _requestToken t.
Proof.
  rewrite imgEl_capture_settles.
  destruct (inflight t) as [r|]; [|congruence].
  intros Hchg. exists r. split; [reflexivity|].
  destruct (decide (cr_token r = _requestToken t)) as [|Hne]; [assumption|].
  now rewrite deliver_stale in Hchg.
Qed.

Lemma stale_capture_discarded t after result r :
  let late := (run t after).1 in
  inflight late = Some r ->
  cr_token r < _requestToken t ->
  imgEl (capture_settles result late).1 = imgEl late.
Proof.
  intros late Hin Hlt. rewrite imgEl_capture_settles, Hin.
  apply deliver_stale.
  pose proof (run_token_mono after t). fold late in H. lia.
Qed.
End StaleTokenClaim.

Section StaleTokenTheorem.
Import Thumbnails.

(** C5.  In every state the module can reach: the image is changed by
    a completing capture only if that capture's token equals the
    current token.  [cancelPending] disarms the debounce timer, empties
    the queue slot, leaves the capture in flight (and the busy flag)
    alone, and moves the token past every token handed out so far.
    From then on, whatever else happens, a capture requested before
    the cancellation leaves the image untouched when it completes; the
    same holds after a later call of [generatePreview] has minted a
    newer token. *)
Theorem stale_results_never_delivered
    (img : option string) (before after : list Event)
    (result : CaptureResult) (r : CaptureRequest) (time0 : Double.double)
    (duration : bool) :
  let t := (run (new img) before).1 in
  (imgEl (capture_settles result t).1 <> imgEl t ->
     exists c, inflight t = Some c /\ cr_token c = _requestToken t)
  /\ _debounceTimer (cancelPending t) = None
  /\ _queuedCapture (cancelPending t) = None
  /\ inflight (cancelPending t) = inflight t
  /\ _pending (cancelPending t) = _pending t
  /\ imgEl (cancelPending t) = imgEl t
  /\ Forall (fun k => k <> _requestToken (cancelPending t)) (outstanding t)
  /\ (let late := (run (cancelPending t) after).1 in
      inflight late = Some r -> cr_token r <= _requestToken t ->
      imgEl (capture_settles result late).1 = imgEl late)
  /\ (let newer := (generatePreview time0 duration t).1 in
      let late := (run newer after).1 in
      _requestToken newer <> _requestToken t ->
      inflight late = Some r -> cr_token r <= _requestToken t ->
      imgEl (capture_settles result late).1 = imgEl late).
Proof.
  intros t.
  assert (Hminted : tokens_minted t)
    by apply run_tokens_minted, new_tokens_minted.
  split; [apply capture_settles_applies_latest_only|].
  do 5 (split; [reflexivity|]).
  split.
  { eapply Forall_impl; [exact Hminted|]. simpl. intros k Hk. lia. }
  split.
  - intros late Hin Hle. apply (stale_capture_discarded _ after result r Hin).
    simpl. lia.
  - intros newer late Hnew Hin Hle.
    apply (stale_capture_discarded _ after result r Hin).
    subst newer.
    destruct (generatePreview_cases time0 duration t)
      as [Heq | (_ & _ & Htok & _)].
    + rewrite Heq in Hnew. now destruct Hnew.
    + rewrite Htok. lia.
Qed.

Lemma stale_results_never_delivered_witness :
  let before := [GeneratePreview (Double.of_Z 10) true; DebounceFires] in
  let t := (run (new (Some EmptyString)) before).1 in
  let r := {| cr_time := Double.of_Z 10; cr_token := 1 |} in
  (exists c, inflight t = Some c /\ cr_token c = _requestToken t)
  /\ imgEl (capture_settles (Returned (Some "data:x"%string)) (cancelPending t)).1
     = imgEl (cancelPending t)
  /\ imgEl (capture_settles (Returned (Some "data:x"%string))
             (generatePreview (Double.of_Z 20) true t).1).1
     = imgEl (generatePreview (Double.of_Z 20) true t).1.
Proof.
  intros before t r.
  destruct (stale_results_never_delivered (Some EmptyString) before []
              (Returned (Some "data:x"%string)) r (Double.of_Z 20) true)
    as (Happly & _ & _ & _ & _ & _ & _ & Hcancel & Hnewer).
  split; [apply Happly; vm_compute; discriminate|].
  split.
  - apply Hcancel; [reflexivity | vm_compute; discriminate].
  - apply Hnewer; [vm_compute; discriminate | reflexivity | vm_compute; discriminate].
Defined.
End StaleTokenTheorem.

(** ** The process manager: basic facts *)

Section MpvBasics.
Import Mpv.
Context `{JsRuntime}.
Implicit Types (m : MpvProcess) (p : PendingRequest) (id : Z).

Lemma gt_zero_id id : 0 < id -> gt_zero (JNum (inject_Z id)) = true.
Proof.
  intros Hpos. simpl. rewrite negb_true_iff.
  destruct (Qle_bool (inject_Z id) 0) eqn:Hle; [|reflexivity].
  apply Qle_bool_iff in Hle. unfold Qle in Hle. simpl in Hle. lia.
Qed.

Lemma as_key_id id : as_key (JNum (inject_Z id)) = Some id.
Proof.
  unfold as_key. rewrite Qfloor_Z.
  now rewrite (proj2 (Qeq_bool_iff _ _) (Qeq_refl _)).
Qed.

Lemma error_message_text c r : error_message (Some (JStr (String c r))) = String c r.
Proof. reflexivity. Qed.

Lemma error_message_missing : error_message None = "mpv error".
Proof. reflexivity. Qed.

Lemma error_message_empty : error_message (Some (JStr EmptyString)) = "mpv error".
Proof. reflexivity. Qed.

(** A frame answering a pending request. *)
Lemma handleMessage_matching msg m id p :
  field "request_id" msg = Some (JNum (inject_Z id)) ->
  0 < id ->
  JsMap.get id (_pending m) = Some p ->
  _handleMessage msg m =
    (set__pending (JsMap.delete id (_pending m))
       (set_timers (delete (timer p) (timers m)) m),
     [ClearTimeout (timer p);
      if is_success (field "error" msg)
      then Resolve (promise p) (field "data" msg)
      else Reject (promise p) (error_message (field "error" msg))]).
Proof.
  intros Hid Hpos Hget. unfold _handleMessage.
  destruct msg; try discriminate.
  rewrite Hid, gt_zero_id, as_key_id by exact Hpos. simpl.
  rewrite Hget. now destruct (is_success _).
Qed.

(** A frame with a positive request id that is not pending. *)
Lemma handleMessage_unmatched msg m v :
  field "request_id" msg = Some v ->
  gt_zero v = true ->
  (forall id, as_key v = Some id -> JsMap.get id (_pending m) = None) ->
  _handleMessage msg m = (m, []).
Proof.
  intros Hid Hpos Hnone. unfold _handleMessage.
  destruct msg; try reflexivity.
  rewrite Hid, Hpos. destruct (as_key v) as [id|]; [|reflexivity].
  now rewrite (Hnone id eq_refl).
Qed.

(** Whatever the frame, only the entry under its own request id can go. *)
Lemma handleMessage_other_entries msg m id :
  (forall v, field "request_id" msg = Some v -> as_key v <> Some id) ->
  JsMap.get id (_pending (_handleMessage msg m).1) = JsMap.get id (_pending m).
Proof.
  intros Hother. unfold _handleMessage.
  destruct msg; try reflexivity.
  destruct (field "request_id" _) as [v|] eqn:Hv.
  - specialize (Hother v eq_refl).
    destruct (gt_zero v).
    + destruct (as_key v) as [id'|]; [|reflexivity].
      destruct (JsMap.get id' (_pending m)) as [p|]; [|reflexivity].
      assert (id' <> id) by congruence.
      destruct (is_success _); simpl; now apply get_delete_ne.
    + now destruct (truthy _).
  - now destruct (truthy _).
Qed.
End MpvBasics.

(** ** More on insertion-ordered maps *)

Section JsMapPerm.
Context {K V : Type} `{EqDecision K}.
Implicit Types (m : JsMap.t K V) (k : K) (v : V).

Lemma get_Some_perm k v m :
  JsMap.get k m = Some v -> m ≡ₚ (k, v) :: JsMap.delete k m.
Proof.
  induction m as [|[k' v'] r IH]; simpl; [discriminate|].
  destruct (decide (k = k')) as [->|Hne].
  - now intros [= ->].
  - intros Hg. rewrite (IH Hg) at 1. apply Permutation_swap.
Qed.

Lemma elem_of_get k v m :
  NoDup (JsMap.keys m) -> (k, v) ∈ m -> JsMap.get k m = Some v.
Proof.
  induction m as [|[k' v'] r IH]; simpl.
  - intros _ Hin. now apply elem_of_nil in Hin.
  - rewrite NoDup_cons. intros [Hnin Hnd] Hin.
    apply elem_of_cons in Hin as [ [= -> ->] | Hin].
    + now rewrite decide_True.
    + destruct (decide (k = k')) as [->|Hne]; [|auto].
      destruct Hnin. apply list_elem_of_fmap. now exists (k', v).
Qed.

Lemma get_delete_Some k k' v m :
  NoDup (JsMap.keys m) ->
  JsMap.get k' (JsMap.delete k m) = Some v -> k' <> k /\ JsMap.get k' m = Some v.
Proof.
  intros Hnd Hg. destruct (decide (k' = k)) as [->|Hne].
  - now rewrite get_delete_eq in Hg.
  - split; [exact Hne|]. now rewrite get_delete_ne in Hg by congruence.
Qed.

Lemma values_snoc m k v : JsMap.values (m ++ [(k, v)]) = JsMap.values m ++ [v].
Proof. unfold JsMap.values. now rewrite fmap_app. Qed.
End JsMapPerm.

(** ** Consistency of the request bookkeeping *)

Section Consistency.
Import Mpv.
Implicit Types (ws : list ReadyWaiter) (P : JsMap.t Z PendingRequest)
  (T : gmap nat TimerAction) (done : list nat).

Lemma live_settle ws P id pr :
  JsMap.get id P = Some pr ->
  live ws P ≡ₚ promise pr :: live ws (JsMap.delete id P).
Proof.
  intros Hg. unfold live, JsMap.values.
  rewrite (get_Some_perm _ _ _ Hg) at 1. reflexivity.
Qed.

Lemma live_snoc_waiter ws P w :
  w_done w = false -> live (ws ++ [w]) P ≡ₚ w_promise w :: live ws P.
Proof.
  intros Hw. unfold live. rewrite filter_app, fmap_app.
  rewrite (filter_cons_True _ w []) by exact Hw. simpl.
  rewrite (Permutation_app_comm _ [w_promise w]). simpl.
  now rewrite Permutation_middle.
Qed.

Lemma live_cons_waiter ws P w :
  live (w :: ws) P ≡ₚ
    if bool_decide (w_done w = false) then w_promise w :: live ws P else live ws P.
Proof.
  unfold live. rewrite filter_cons. case_bool_decide as Hw.
  - rewrite decide_True by exact Hw. simpl. now rewrite Permutation_middle.
  - now rewrite decide_False by exact Hw.
Qed.

Lemma live_set_fresh ws P id pr :
  JsMap.get id P = None ->
  live ws (JsMap.set id pr P) ≡ₚ promise pr :: live ws P.
Proof.
  intros Hg. unfold live. rewrite set_fresh by exact Hg.
  rewrite values_snoc, fmap_app. simpl.
  rewrite <- app_assoc. simpl. now rewrite Permutation_middle.
Qed.

Lemma consistent_next_promise ws P rid T nt np done :
  consistent ws P rid T nt np done -> consistent ws P rid T nt (S np) done.
Proof.
  intros [? ? ? ? ? ? ? Hl ? Hs]. split; try assumption.
  - intros p Hp. destruct (Hl p Hp). split; [lia | assumption].
  - intros p Hp. specialize (Hs p Hp). lia.
Qed.

Lemma consistent_arm ws P rid T nt np done a :
  not_timeout a ->
  consistent ws P rid T nt np done ->
  consistent ws P rid (<[nt := a]> T) (S nt) np done.
Proof.
  intros Ha [Hk He Ht Hlt Hw Hwt Hl Hll Hs Hsl]. split; try assumption.
  - intros id pr Hg. destruct (He id pr Hg) as [Hle Htm]. split; [exact Hle|].
    rewrite lookup_insert_ne; [exact Htm|]. apply Hlt in Htm. lia.
  - intros t id p Hl'. apply lookup_insert_Some in Hl' as [[-> ->]|[Hne Hl']].
    + destruct Ha.
    + eauto.
  - intros t b Hl'. apply lookup_insert_Some in Hl' as [[-> ->]|[Hne Hl']].
    + lia.
    + apply Hlt in Hl'. lia.
  - intros w Hin. destruct (Hw w Hin) as [Hwlt Hwt']. split; [lia|].
    intros Hd. rewrite lookup_insert_ne by lia. auto.
Qed.

Lemma consistent_wait ws P rid T nt np done p args :
  p ∉ live ws P -> p ∉ done -> (p < np)%nat ->
  consistent ws P rid T nt np done ->
  consistent
    (ws ++ [{| w_promise := p; w_args := args; w_timer := nt; w_done := false |}])
    P rid (<[nt := ReadyWait p]> T) (S nt) np done.
Proof.
  intros Hfresh Hnd Hp Hc.
  pose proof (inv_waiter _ _ _ _ _ _ _ Hc) as Hw0.
  apply (consistent_arm _ _ _ _ _ _ _ (ReadyWait p) I) in Hc.
  destruct Hc as [Hk He Ht Hlt Hw Hwt Hl Hll Hs Hsl]. split; try assumption.
  - intros w Hin. apply elem_of_app in Hin as [Hin|Hin]; [auto|].
    apply list_elem_of_singleton in Hin. subst w. simpl. split; [lia|].
    intros _. apply lookup_insert_eq.
  - rewrite fmap_app. simpl. apply NoDup_app. split; [exact Hwt|].
    split; [|apply NoDup_singleton].
    intros t Hin Hin'. apply list_elem_of_singleton in Hin'. subst t.
    apply list_elem_of_fmap in Hin as (w & Heq & Hin).
    destruct (Hw0 w Hin) as [Hwlt _]. lia.
  - rewrite live_snoc_waiter by reflexivity. simpl.
    apply NoDup_cons. split; assumption.
  - intros q Hq. rewrite live_snoc_waiter in Hq by reflexivity. simpl in Hq.
    apply elem_of_cons in Hq as [->|Hq]; [split; assumption | auto].
Qed.

Lemma consistent_fresh_id ws P rid T nt np done :
  consistent ws P rid T nt np done -> JsMap.get (rid + 1) P = None.
Proof.
  intros Hc. destruct (JsMap.get (rid + 1) P) as [pr|] eqn:Hg; [|reflexivity].
  destruct (inv_entry _ _ _ _ _ _ _ Hc _ _ Hg). lia.
Qed.

Lemma consistent_send ws P rid T nt np done p :
  p ∉ live ws P -> p ∉ done -> (p < np)%nat ->
  consistent ws P rid T nt np done ->
  consistent ws (JsMap.set (rid + 1) {| promise := p; timer := nt |} P) (rid + 1)
    (<[nt := CommandTimeout (rid + 1) p]> T) (S nt) np done.
Proof.
  intros Hfresh Hnd Hp Hc.
  pose proof (consistent_fresh_id _ _ _ _ _ _ _ Hc) as Hnew.
  destruct Hc as [Hk He Ht Hlt Hw Hwt Hl Hll Hs Hsl]. split; try assumption.
  - now apply NoDup_keys_set.
  - intros id pr Hg. destruct (decide (id = rid + 1)) as [->|Hne].
    + rewrite get_set_eq in Hg. injection Hg as <-. simpl.
      split; [lia | apply lookup_insert_eq].
    + rewrite get_set_ne in Hg by congruence.
      destruct (He id pr Hg) as [Hle Htm]. split; [lia|].
      rewrite lookup_insert_ne; [exact Htm|]. apply Hlt in Htm. lia.
  - intros t id q Hl'. apply lookup_insert_Some in Hl' as [ [-> [= -> ->] ] | [Hne Hl'] ].
    + apply get_set_eq.
    + pose proof (Ht t id q Hl') as Hg. destruct (He _ _ Hg) as [Hle _].
      rewrite get_set_ne by lia. exact Hg.
  - intros t a Hl'. apply lookup_insert_Some in Hl' as [[-> _]|[Hne Hl']].
    + lia.
    + apply Hlt in Hl'. lia.
  - intros w Hin. destruct (Hw w Hin) as [Hwlt Hwt']. split; [lia|].
    intros Hd. rewrite lookup_insert_ne by lia. auto.
  - rewrite live_set_fresh by exact Hnew. simpl. apply NoDup_cons. now split.
  - intros q Hq. rewrite live_set_fresh in Hq by exact Hnew. simpl in Hq.
    apply elem_of_cons in Hq as [->|Hq]; [split; assumption | auto].
Qed.

Lemma consistent_resolve_fresh ws P rid T nt np done p :
  p ∉ live ws P -> p ∉ done -> (p < np)%nat ->
  consistent ws P rid T nt np done ->
  consistent ws P rid T nt np (done ++ [p]).
Proof.
  intros Hfresh Hnd Hp [Hk He Ht Hlt Hw Hwt Hl Hll Hs Hsl]. split; try assumption.
  - intros q Hq. destruct (Hll q Hq) as [Hqlt Hqn]. split; [exact Hqlt|].
    rewrite elem_of_app, list_elem_of_singleton. intros [? | ->]; tauto.
  - apply NoDup_app. split; [exact Hs|]. split; [|apply NoDup_singleton].
    intros q Hq Hq'. apply list_elem_of_singleton in Hq'. now subst q.
  - intros q Hq. apply elem_of_app in Hq as [Hq|Hq]; [auto|].
    apply list_elem_of_singleton in Hq. now subst q.
Qed.
End Consistency.

Section ConsistencySettle.
Import Mpv.
Implicit Types (ws : list ReadyWaiter) (P : JsMap.t Z PendingRequest)
  (T : gmap nat TimerAction) (done : list nat).

(** A pending request is settled: its entry and its timer go, its
    promise joins the settled ones. *)
Lemma consistent_settle ws P rid T nt np done id pr :
  JsMap.get id P = Some pr ->
  consistent ws P rid T nt np done ->
  consistent ws (JsMap.delete id P) rid (delete (timer pr) T) nt np
    (done ++ [promise pr]).
Proof.
  intros Hg [Hk He Ht Hlt Hw Hwt Hl Hll Hs Hsl].
  pose proof (live_settle ws P id pr Hg) as Hperm.
  destruct (He id pr Hg) as [_ Htimer].
  rewrite Hperm in Hl. apply NoDup_cons in Hl as [Hpr Hl].
  assert (Hin : promise pr ∈ live ws P) by (rewrite Hperm; left).
  split.
  - now apply NoDup_keys_delete.
  - intros id' pr' Hg'. apply get_delete_Some in Hg' as [Hne Hg']; [|exact Hk].
    destruct (He id' pr' Hg') as [Hle Htm]. split; [exact Hle|].
    rewrite lookup_delete_ne; [exact Htm|].
    intros Heq. rewrite Heq in Htimer. rewrite Htimer in Htm. congruence.
  - intros t id' p Hl'. apply lookup_delete_Some in Hl' as [Hne Hl'].
    pose proof (Ht t id' p Hl') as Hg'.
    rewrite get_delete_ne; [exact Hg'|].
    intros ->. rewrite Hg in Hg'. injection Hg' as ->. now simpl in Hne.
  - intros t a Hl'. apply lookup_delete_Some in Hl' as [_ Hl']. eauto.
  - intros w Hin'. destruct (Hw w Hin') as [Hwlt Hwt']. split; [exact Hwlt|].
    intros Hd. specialize (Hwt' Hd). rewrite lookup_delete_ne; [exact Hwt'|].
    intros Heq. rewrite Heq in Htimer. congruence.
  - exact Hwt.
  - exact Hl.
  - intros q Hq. assert (Hq' : q ∈ live ws P) by (rewrite Hperm; now right).
    destruct (Hll q Hq') as [Hqlt Hqn]. split; [exact Hqlt|].
    rewrite elem_of_app, list_elem_of_singleton. intros [? | ->]; tauto.
  - apply NoDup_app. split; [exact Hs|]. split; [|apply NoDup_singleton].
    intros q Hq Hq'. apply list_elem_of_singleton in Hq'. subst q.
    now destruct (Hll _ Hin).
  - intros q Hq. apply elem_of_app in Hq as [Hq|Hq]; [auto|].
    apply list_elem_of_singleton in Hq. subst q. now destruct (Hll _ Hin).
Qed.

(** A timer that belongs to no pending request and to no waiting
    command can go. *)
Lemma consistent_disarm ws P rid T nt np done t :
  (forall id p, T !! t <> Some (CommandTimeout id p)) ->
  (forall w, w ∈ ws -> w_done w = false -> w_timer w <> t) ->
  consistent ws P rid T nt np done ->
  consistent ws P rid (delete t T) nt np done.
Proof.
  intros Hnt Hnw [Hk He Ht Hlt Hw Hwt Hl Hll Hs Hsl]. split; try assumption.
  - intros id pr Hg. destruct (He id pr Hg) as [Hle Htm]. split; [exact Hle|].
    rewrite lookup_delete_ne; [exact Htm|]. intros Heq. subst t.
    now apply Hnt in Htm.
  - intros t' id p Hl'. apply lookup_delete_Some in Hl' as [_ Hl']. eauto.
  - intros t' a Hl'. apply lookup_delete_Some in Hl' as [_ Hl']. eauto.
  - intros w Hin. destruct (Hw w Hin) as [Hwlt Hwt']. split; [exact Hwlt|].
    intros Hd. rewrite lookup_delete_ne; [auto|]. intros Heq.
    now apply (Hnw w Hin Hd).
Qed.

(** The first waiting command is taken off the list. *)
Lemma consistent_waiter_off w ws P rid T nt np done :
  consistent (w :: ws) P rid T nt np done -> consistent ws P rid T nt np done.
Proof.
  intros [Hk He Ht Hlt Hw Hwt Hl Hll Hs Hsl].
  pose proof (live_cons_waiter ws P w) as Hperm.
  split; try assumption.
  - intros w' Hin. apply Hw. now right.
  - simpl in Hwt. now apply NoDup_cons in Hwt as [_ Hwt].
  - rewrite Hperm in Hl. case_bool_decide; [|exact Hl].
    now apply NoDup_cons in Hl as [_ Hl].
  - intros q Hq. apply Hll. rewrite Hperm. case_bool_decide; [now right | exact Hq].
Qed.

Lemma consistent_waiter_run w ws P rid T nt np done :
  w_done w = false ->
  consistent (w :: ws) P rid T nt np done ->
  consistent ws P rid (delete (w_timer w) T) nt np done
  /\ (w_promise w ∉ live ws P) /\ (w_promise w ∉ done) /\ (w_promise w < np)%nat.
Proof.
  intros Hd Hc.
  pose proof (consistent_waiter_off _ _ _ _ _ _ _ _ Hc) as Hc'.
  destruct Hc as [Hk He Ht Hlt Hw Hwt Hl Hll Hs Hsl].
  pose proof (live_cons_waiter ws P w) as Hperm.
  rewrite bool_decide_eq_true_2 in Hperm by exact Hd.
  destruct (Hw w) as [_ Hwt']; [left|]. specialize (Hwt' Hd).
  split; [|split; [|split]].
  - apply consistent_disarm; [| |exact Hc'].
    + intros id p Heq. rewrite Hwt' in Heq. discriminate.
    + intros w' Hin _ Heq. simpl in Hwt. apply NoDup_cons in Hwt as [Hnin _].
      apply Hnin. rewrite <- Heq. apply list_elem_of_fmap. now exists w'.
  - rewrite Hperm in Hl. now apply NoDup_cons in Hl as [Hnin _].
  - apply (Hll (w_promise w)). rewrite Hperm. left.
  - apply (Hll (w_promise w)). rewrite Hperm. left.
Qed.
End ConsistencySettle.

Section ConsistencyExpire.
Import Mpv.
Implicit Types (ws : list ReadyWaiter) (P : JsMap.t Z PendingRequest)
  (T : gmap nat TimerAction) (done : list nat).

Lemma mark_done_timers t ws : w_timer <$> mark_done t ws = w_timer <$> ws.
Proof.
  unfold mark_done. rewrite <- list_fmap_compose. apply list_fmap_ext.
  intros i w _. simpl. now case_bool_decide.
Qed.

Lemma mark_done_absent t ws : t ∉ w_timer <$> ws -> mark_done t ws = ws.
Proof.
  induction ws as [|w ws IH]; simpl; [reflexivity|].
  rewrite not_elem_of_cons. intros [Hne Hnin].
  rewrite bool_decide_eq_false_2 by congruence. now rewrite IH.
Qed.

Lemma expiring_absent t ws : t ∉ w_timer <$> ws -> expiring t ws = [].
Proof.
  induction ws as [|w ws IH]; simpl; [reflexivity|].
  rewrite not_elem_of_cons. intros [Hne Hnin]. unfold expiring in *.
  rewrite filter_cons_False by (intros [? _]; congruence). auto.
Qed.

(** With one timer per waiter, the wait timer [t] firing marks its
    waiter and resolves the promise of a waiter still waiting. *)
Lemma expire_waiter_spec t ws :
  NoDup (w_timer <$> ws) ->
  expire_waiter t ws =
    (mark_done t ws,
     (fun w => Resolve (w_promise w) (Some JNull)) <$> expiring t ws).
Proof.
  induction ws as [|w ws IH]; simpl; [reflexivity|].
  rewrite NoDup_cons. intros [Hnin Hnd]. unfold expiring. rewrite filter_cons.
  case_bool_decide as Ht.
  - subst t. rewrite mark_done_absent by exact Hnin.
    fold (expiring (w_timer w) ws). rewrite expiring_absent by exact Hnin.
    destruct w as [p args t d]; simpl in *.
    destruct d; destruct (decide _) as [[_ ?]|Hn]; try discriminate;
      try reflexivity.
    destruct Hn. now split.
  - destruct (decide _) as [[? _]|_]; [congruence|].
    rewrite IH by exact Hnd. reflexivity.
Qed.

Lemma live_mark t ws P :
  live ws P ≡ₚ (w_promise <$> expiring t ws) ++ live (mark_done t ws) P.
Proof.
  unfold live. rewrite (Permutation_app_comm (w_promise <$> expiring t ws)).
  rewrite <- app_assoc. apply Permutation_app_head.
  induction ws as [|w ws IH]; [reflexivity|].
  unfold expiring, mark_done in *. rewrite fmap_cons, !filter_cons.
  destruct w as [p args t' d].
  cbn [w_timer w_done w_promise w_args].
  destruct (bool_decide (t' = t)) eqn:Ht; cbn [w_timer w_done w_promise w_args].
  - apply bool_decide_eq_true in Ht. destruct d.
    + destruct (decide (true = false)); [discriminate|].
      destruct (decide (t' = t /\ true = false)) as [[_ ?]|_]; [discriminate|].
      exact IH.
    + destruct (decide (true = false)); [discriminate|].
      destruct (decide (false = false)); [|congruence].
      destruct (decide (t' = t /\ false = false)) as [_|Hn]; [|destruct Hn; now split].
      rewrite !fmap_cons. cbn [w_promise]. rewrite IH.
      exact (Permutation_middle _ _ _).
  - apply bool_decide_eq_false in Ht.
    destruct (decide (t' = t /\ d = false)) as [[? _]|_]; [congruence|].
    destruct (decide (d = false)); [|exact IH].
    rewrite !fmap_cons. cbn [w_promise]. now rewrite IH.
Qed.

Lemma elem_of_mark_done t ws w' :
  w' ∈ mark_done t ws ->
  exists w, w ∈ ws /\ w_timer w' = w_timer w /\ w_promise w' = w_promise w
            /\ (w_done w' = false -> w' = w /\ w_timer w <> t).
Proof.
  unfold mark_done. intros Hin. apply list_elem_of_fmap in Hin as (w & -> & Hin).
  exists w. split; [exact Hin|]. case_bool_decide as Ht; simpl.
  - split; [reflexivity|]. split; [reflexivity|]. intros Hd. discriminate Hd.
  - split; [reflexivity|]. split; [reflexivity|]. intros _. now split.
Qed.

(** Several promises move from the live ones to the settled ones. *)
Lemma settle_many done X rest np :
  NoDup done -> (forall p, p ∈ done -> (p < np)%nat) ->
  NoDup (X ++ rest) ->
  (forall p, p ∈ X ++ rest -> (p < np)%nat /\ p ∉ done) ->
  NoDup rest
  /\ (forall p, p ∈ rest -> (p < np)%nat /\ p ∉ done ++ X)
  /\ NoDup (done ++ X)
  /\ (forall p, p ∈ done ++ X -> (p < np)%nat).
Proof.
  intros Hd Hdlt Hnd Hall.
  apply NoDup_app in Hnd as (HX & Hdisj & Hrest).
  split; [exact Hrest|]. split; [|split].
  - intros p Hp. destruct (Hall p) as [Hlt Hn]; [apply elem_of_app; now right|].
    split; [exact Hlt|]. rewrite elem_of_app. intros [?|Hx]; [tauto|].
    now apply (Hdisj p).
  - apply NoDup_app. split; [exact Hd|]. split; [|exact HX].
    intros p Hp Hx. destruct (Hall p) as [_ Hn]; [apply elem_of_app; now left|].
    tauto.
  - intros p Hp. apply elem_of_app in Hp as [Hp|Hp]; [auto|].
    destruct (Hall p) as [Hlt _]; [apply elem_of_app; now left|]. exact Hlt.
Qed.

Lemma consistent_expire ws P rid T nt np done t :
  (forall id p, T !! t <> Some (CommandTimeout id p)) ->
  consistent ws P rid T nt np done ->
  consistent (mark_done t ws) P rid (delete t T) nt np
    (done ++ (w_promise <$> expiring t ws)).
Proof.
  intros Hnt [Hk He Ht Hlt Hw Hwt Hl Hll Hs Hsl].
  pose proof (live_mark t ws P) as Hperm.
  destruct (settle_many done (w_promise <$> expiring t ws)
              (live (mark_done t ws) P) np Hs Hsl) as (Hl' & Hll' & Hs' & Hsl').
  { now rewrite <- Hperm. }
  { intros p Hp. apply Hll. now rewrite Hperm. }
  split; try assumption.
  - intros id pr Hg. destruct (He id pr Hg) as [Hle Htm]. split; [exact Hle|].
    rewrite lookup_delete_ne; [exact Htm|]. intros Heq. subst t.
    now apply Hnt in Htm.
  - intros t' id p Hl0. apply lookup_delete_Some in Hl0 as [_ Hl0]. eauto.
  - intros t' a Hl0. apply lookup_delete_Some in Hl0 as [_ Hl0]. eauto.
  - intros w' Hin. apply elem_of_mark_done in Hin as (w & Hin & Htm & Hpr & Hsame).
    destruct (Hw w Hin) as [Hwlt Hwt']. rewrite Htm. split; [exact Hwlt|].
    intros Hd. destruct (Hsame Hd) as [-> Hne].
    rewrite lookup_delete_ne by congruence. auto.
  - now rewrite mark_done_timers.
Qed.

(** All pending requests are rejected, as [destroy] does. *)
Lemma consistent_clear_all ws P rid T nt np done :
  consistent ws P rid T nt np done ->
  consistent ws JsMap.empty rid (clear_all (JsMap.values P) T) nt np
    (done ++ (promise <$> JsMap.values P)).
Proof.
  revert T done. induction P as [|[id pr] P IH]; intros T done Hc; simpl.
  - now rewrite app_nil_r.
  - apply (consistent_settle _ _ _ _ _ _ _ id pr) in Hc;
      [|simpl; now rewrite decide_True].
    simpl in Hc. rewrite decide_True in Hc by reflexivity.
    apply IH in Hc. unfold clear_all in *. simpl.
    now rewrite <- app_assoc in Hc.
Qed.
End ConsistencyExpire.

(** ** Every operation keeps the bookkeeping consistent *)

Section Preservation.
Import Mpv.
Context `{JsRuntime} (host : Host).
Implicit Types (m : MpvProcess) (ws : list ReadyWaiter) (done : list nat).

Lemma settled_app out1 out2 : settled (out1 ++ out2) = settled out1 ++ settled out2.
Proof. unfold settled, settlements. now rewrite omap_app, fmap_app. Qed.

Lemma settled_cons e out :
  settled (e :: out) =
    match settlement e with Some (p, _) => p :: settled out | None => settled out end.
Proof. unfold settled, settlements. simpl. now destruct (settlement e) as [[p b]|]. Qed.

Lemma settled_emits (es : list Emitted) : settled (Emit <$> es) = [].
Proof. now induction es. Qed.

Lemma send_consistent ws p args m done :
  p ∉ live ws (_pending m) -> p ∉ done -> (p < nextPromise m)%nat ->
  consistent_at ws m done ->
  consistent_at ws (send p args m).1 (done ++ settled (send p args m).2).
Proof.
  intros Hfresh Hnd Hlt Hc. unfold send, consistent_at in *.
  destruct (socket m) as [sock|]; [destruct (ready m)|]; simpl.
  - rewrite app_nil_r. now apply consistent_send.
  - now apply consistent_resolve_fresh.
  - now apply consistent_resolve_fresh.
Qed.

Lemma send_frame p args m :
  readyWaiters (send p args m).1 = readyWaiters m
  /\ socket (send p args m).1 = socket m
  /\ ready (send p args m).1 = ready m
  /\ nextPromise (send p args m).1 = nextPromise m
  /\ _observedProps (send p args m).1 = _observedProps m
  /\ _nextObsId (send p args m).1 = _nextObsId m
  /\ awaits (send p args m).1 = awaits m
  /\ observeDefaults (send p args m).1 = observeDefaults m.
Proof.
  unfold send. open_instance m. simpl.
  destruct m_socket; [destruct m_ready|]; simpl; repeat split; reflexivity.
Qed.

(** A call of [command] settles nothing on the spot. *)
Lemma command_settles_nothing args m : settled (command args m).2 = [].
Proof.
  unfold command, connected, send. simpl.
  destruct (socket m) as [sock|]; simpl; [destruct (ready m)|]; reflexivity.
Qed.

Lemma fresh_promise m done :
  Inv m done ->
  (nextPromise m ∉ live (readyWaiters m) (_pending m)) /\ (nextPromise m ∉ done).
Proof.
  intros Hc. split.
  - intros Hin. apply (inv_live_lt _ _ _ _ _ _ _ Hc) in Hin as [Hlt _]. lia.
  - intros Hin. apply (inv_settled_lt _ _ _ _ _ _ _ Hc) in Hin. lia.
Qed.

Lemma command_consistent args m done :
  Inv m done -> Inv (command args m).1.2 done.
Proof.
  intros Hc. destruct (fresh_promise m done Hc) as [Hfresh Hnd].
  unfold command, connected, send, Inv, consistent_at in *.
  open_instance m. simpl in *.
  destruct m_socket as [sock|]; simpl; [destruct m_ready|]; simpl.
  - apply consistent_send; [exact Hfresh | exact Hnd | lia |].
    now apply consistent_next_promise.
  - apply consistent_wait; [exact Hfresh | exact Hnd | lia |].
    now apply consistent_next_promise.
  - apply consistent_wait; [exact Hfresh | exact Hnd | lia |].
    now apply consistent_next_promise.
Qed.

Lemma run_waiters_frame ws m :
  readyWaiters (run_waiters ws m).1 = readyWaiters m
  /\ socket (run_waiters ws m).1 = socket m
  /\ ready (run_waiters ws m).1 = ready m
  /\ nextPromise (run_waiters ws m).1 = nextPromise m
  /\ _observedProps (run_waiters ws m).1 = _observedProps m
  /\ _nextObsId (run_waiters ws m).1 = _nextObsId m
  /\ awaits (run_waiters ws m).1 = awaits m
  /\ observeDefaults (run_waiters ws m).1 = observeDefaults m.
Proof.
  revert m. induction ws as [|w ws IH]; intros m; simpl; [repeat split|].
  destruct (w_done w); [apply IH|].
  pose proof (send_frame (w_promise w) (w_args w)
                (set_timers (delete (w_timer w) (timers m)) m)) as Hs.
  destruct (send _ _ _) as [m1 o1]. specialize (IH m1).
  destruct (run_waiters ws m1) as [m2 o2]. simpl in *.
  destruct Hs as (? & ? & ? & ? & ? & ? & ? & ?).
  destruct IH as (? & ? & ? & ? & ? & ? & ? & ?).
  repeat split; congruence.
Qed.

Lemma run_waiters_consistent ws m done :
  consistent_at ws m done ->
  consistent_at [] (run_waiters ws m).1 (done ++ settled (run_waiters ws m).2).
Proof.
  revert m done. induction ws as [|w ws IH]; intros m done Hc; simpl.
  - now rewrite app_nil_r.
  - destruct (w_done w) eqn:Hd.
    + apply IH. unfold consistent_at in *. eapply consistent_waiter_off, Hc.
    + unfold consistent_at in Hc.
      apply consistent_waiter_run in Hc as (Hc & Hfresh & Hnd & Hlt); [|exact Hd].
      pose proof (send_consistent ws (w_promise w) (w_args w)
                    (set_timers (delete (w_timer w) (timers m)) m) done
                    Hfresh Hnd Hlt Hc) as Hs.
      destruct (send _ _ _) as [m1 o1]. cbn [fst snd] in Hs.
      specialize (IH m1 _ Hs). destruct (run_waiters ws m1) as [m2 o2].
      cbn [fst snd app] in *. rewrite settled_cons. cbn [settlement].
      rewrite settled_app, app_assoc. exact IH.
Qed.

Lemma emit_ready_consistent m done :
  Inv m done -> Inv (emit_ready m).1 (done ++ settled (emit_ready m).2).
Proof.
  intros Hc. unfold emit_ready.
  pose proof (run_waiters_consistent (readyWaiters m) (set_readyWaiters [] m) done Hc)
    as Hr.
  pose proof (run_waiters_frame (readyWaiters m) (set_readyWaiters [] m)) as (Hw & _).
  destruct (run_waiters _ _) as [m1 o1]. simpl in *.
  unfold Inv. now rewrite Hw.
Qed.

(** What a frame does: nothing to the bookkeeping, or it settles the one
    pending request it answers. *)
Lemma handleMessage_cases msg m :
  ((_handleMessage msg m).1 = m /\ settled (_handleMessage msg m).2 = [])
  \/ exists id p,
       JsMap.get id (_pending m) = Some p
       /\ (_handleMessage msg m).1 =
            set__pending (JsMap.delete id (_pending m))
              (set_timers (delete (timer p) (timers m)) m)
       /\ settled (_handleMessage msg m).2 = [promise p]
       /\ (_handleMessage msg m).2 =
            [ClearTimeout (timer p);
             if is_success (field "error" msg)
             then Resolve (promise p) (field "data" msg)
             else Reject (promise p) (error_message (field "error" msg))].
Proof.
  assert (Hev : forall fs, settled
            (if truthy (lookup_field "event" fs)
             then Emit (MpvEvent (JObj fs)) :: (Emit <$> event_emits (JObj fs))
             else []) = []).
  { intros fs. destruct (truthy _); [|reflexivity].
    rewrite settled_cons. simpl. apply settled_emits. }
  unfold _handleMessage.
  destruct msg as [| | | | |fs]; try (left; split; reflexivity).
  unfold field.
  destruct (lookup_field "request_id" fs) as [v|].
  - destruct (gt_zero v).
    + destruct (as_key v) as [id|]; [|left; split; reflexivity].
      destruct (JsMap.get id (_pending m)) as [p|] eqn:Hg;
        [|left; split; reflexivity].
      right. exists id, p. split; [exact Hg|].
      unfold clearTimeout. cbn [fst snd].
      destruct (is_success _); cbn [fst snd app]; repeat split; reflexivity.
    + left. specialize (Hev fs). destruct (truthy _); split; (reflexivity || exact Hev).
  - left. specialize (Hev fs). destruct (truthy _); split; (reflexivity || exact Hev).
Qed.

Lemma handleMessage_consistent ws msg m done :
  consistent_at ws m done ->
  consistent_at ws (_handleMessage msg m).1
    (done ++ settled (_handleMessage msg m).2).
Proof.
  intros Hc.
  destruct (handleMessage_cases msg m) as [[-> ->]|(id & p & Hg & -> & -> & _)].
  - now rewrite app_nil_r.
  - apply (consistent_settle _ _ _ _ _ _ _ _ _ Hg Hc).
Qed.

Lemma handleMessage_frame msg m :
  readyWaiters (_handleMessage msg m).1 = readyWaiters m
  /\ socket (_handleMessage msg m).1 = socket m
  /\ ready (_handleMessage msg m).1 = ready m
  /\ nextPromise (_handleMessage msg m).1 = nextPromise m
  /\ _observedProps (_handleMessage msg m).1 = _observedProps m
  /\ _nextObsId (_handleMessage msg m).1 = _nextObsId m
  /\ awaits (_handleMessage msg m).1 = awaits m
  /\ observeDefaults (_handleMessage msg m).1 = observeDefaults m.
Proof.
  destruct (handleMessage_cases msg m) as [[-> _]|(id & p & _ & -> & _)];
    repeat split; reflexivity.
Qed.

Lemma dispatch_frame lines m :
  readyWaiters (dispatch lines m).1 = readyWaiters m
  /\ socket (dispatch lines m).1 = socket m
  /\ ready (dispatch lines m).1 = ready m
  /\ nextPromise (dispatch lines m).1 = nextPromise m
  /\ _observedProps (dispatch lines m).1 = _observedProps m
  /\ _nextObsId (dispatch lines m).1 = _nextObsId m
  /\ awaits (dispatch lines m).1 = awaits m
  /\ observeDefaults (dispatch lines m).1 = observeDefaults m.
Proof.
  revert m. induction lines as [|line lines IH]; intros m; simpl;
    [repeat split; reflexivity|].
  destruct (Codec.blank line); [apply IH|].
  destruct (JSON_parse line) as [msg|]; [|apply IH].
  pose proof (handleMessage_frame msg m) as Hf.
  destruct (_handleMessage msg m) as [m1 o1]. specialize (IH m1).
  destruct (dispatch lines m1) as [m2 o2]. cbn [fst snd] in *.
  destruct Hf as (? & ? & ? & ? & ? & ? & ? & ?).
  destruct IH as (? & ? & ? & ? & ? & ? & ? & ?).
  repeat split; congruence.
Qed.

Lemma dispatch_consistent ws lines m done :
  consistent_at ws m done ->
  consistent_at ws (dispatch lines m).1 (done ++ settled (dispatch lines m).2).
Proof.
  revert m done. induction lines as [|line lines IH]; intros m done Hc; simpl.
  - now rewrite app_nil_r.
  - destruct (Codec.blank line); [now apply IH|].
    destruct (JSON_parse line) as [msg|]; [|now apply IH].
    pose proof (handleMessage_consistent ws msg m done Hc) as Hh.
    destruct (_handleMessage msg m) as [m1 o1]. cbn [fst snd] in Hh.
    specialize (IH m1 _ Hh). destruct (dispatch lines m1) as [m2 o2].
    cbn [fst snd] in *. now rewrite settled_app, app_assoc.
Qed.

Lemma onData_consistent chunk m done :
  Inv m done -> Inv (_onData chunk m).1 (done ++ settled (_onData chunk m).2).
Proof.
  intros Hc. unfold _onData.
  destruct (Codec.frame _ _) as [lines rest].
  pose proof (dispatch_frame lines (set__recvBuf rest m)) as (Hw & _).
  unfold Inv. rewrite Hw. now apply dispatch_consistent.
Qed.

Lemma observeProperty_consistent name m done :
  Inv m done -> Inv (observeProperty name m).1.2 done.
Proof. intros Hc. unfold observeProperty. now apply command_consistent. Qed.

Lemma observeProperty_settles_nothing name m :
  settled (observeProperty name m).2 = [].
Proof. unfold observeProperty. apply command_settles_nothing. Qed.

Lemma observe_next_consistent props m done :
  Inv m done ->
  Inv (observe_next props m).1 done /\ settled (observe_next props m).2 = [].
Proof.
  intros Hc. destruct props as [|name rest]; simpl; [now split|].
  pose proof (observeProperty_consistent name m done Hc) as Hi.
  pose proof (observeProperty_settles_nothing name m) as Hs.
  destruct (observeProperty name m) as [[q m1] out]. now split.
Qed.

Lemma observeDefaults_consistent m done :
  Inv m done ->
  Inv (_observeDefaults m).1 done /\ settled (_observeDefaults m).2 = [].
Proof.
  intros Hc. unfold _observeDefaults.
  pose proof (command_consistent [JStr "request_log_messages"; JStr "debug"] m done Hc)
    as Hi.
  pose proof (command_settles_nothing [JStr "request_log_messages"; JStr "debug"] m)
    as Hs.
  destruct (command _ m) as [[q m1] out]. now split.
Qed.

Lemma resume_consistent k fulfilled m done :
  Inv m done ->
  Inv (resume k fulfilled m).1 done /\ settled (resume k fulfilled m).2 = [].
Proof.
  intros Hc. destruct k as [|rest]; unfold resume.
  - now apply observe_next_consistent.
  - destruct fulfilled; [now apply observe_next_consistent | now split].
Qed.

Lemma drain_consistent l m done :
  Inv m done -> Inv (drain l m).1 done /\ settled (drain l m).2 = [].
Proof.
  revert m. induction l as [|[p fulfilled] l IH]; intros m Hc; simpl; [now split|].
  destruct (awaits m !! p) as [k|]; [|now apply IH].
  destruct (resume_consistent k fulfilled (set_awaits (delete p (awaits m)) m) done Hc)
    as [Hi Hs].
  destruct (resume _ _ _) as [m1 o1]. cbn [fst snd] in *.
  destruct (IH m1 Hi) as [Hi' Hs'].
  destruct (drain l m1) as [m2 o2]. cbn [fst snd] in *.
  split; [exact Hi'|]. now rewrite settled_app, Hs, Hs'.
Qed.

Lemma settled_resolves (ws : list ReadyWaiter) :
  settled ((fun w => Resolve (w_promise w) (Some JNull)) <$> ws) = w_promise <$> ws.
Proof.
  induction ws as [|w ws IH]; [reflexivity|].
  rewrite !fmap_cons, settled_cons. cbn [settlement]. now rewrite IH.
Qed.

Lemma timer_fires_consistent t m done :
  Inv m done -> Inv (timer_fires t m).1 (done ++ settled (timer_fires t m).2).
Proof.
  intros Hc. unfold timer_fires.
  destruct (timers m !! t) as [action|] eqn:Ht; [|now rewrite app_nil_r].
  destruct action as [id p|q|retries]; cbn [fst snd].
  - pose proof (inv_timeout _ _ _ _ _ _ _ Hc _ _ _ Ht) as Hg.
    apply (consistent_settle _ _ _ _ _ _ _ _ _ Hg Hc).
  - rewrite expire_waiter_spec by apply (inv_waiter_timers _ _ _ _ _ _ _ Hc).
    cbn [fst snd]. rewrite settled_resolves.
    unfold Inv, consistent_at. simpl.
    apply consistent_expire; [|exact Hc].
    intros id p Heq. rewrite Ht in Heq. discriminate.
  - unfold _connectSocket. cbn [fst snd]. rewrite app_nil_r.
    unfold Inv, consistent_at. simpl.
    apply consistent_disarm; [| |exact Hc].
    + intros id p Heq. rewrite Ht in Heq. discriminate.
    + intros w Hin Hd Heq.
      destruct (inv_waiter _ _ _ _ _ _ _ Hc w Hin) as [_ Hw].
      specialize (Hw Hd). rewrite Heq, Ht in Hw. discriminate.
Qed.

(** The [forEach] of [destroy]: every timer cleared, every promise
    rejected, in the order of the map. *)
Lemma reject_all_spec ps m :
  reject_all ps m =
    (set_timers (clear_all ps (timers m)) m,
     ps ≫= (fun p => [ClearTimeout (timer p); Reject (promise p) "mpv destroyed"])).
Proof.
  revert m. induction ps as [|p ps IH]; intros m; simpl.
  - now open_instance m.
  - rewrite IH. now open_instance m.
Qed.

Lemma settled_rejections (ps : list PendingRequest) :
  settled (ps ≫= (fun p => [ClearTimeout (timer p); Reject (promise p) "mpv destroyed"]))
  = promise <$> ps.
Proof.
  induction ps as [|p ps IH]; [reflexivity|].
  rewrite bind_cons, fmap_cons. cbn [app]. rewrite !settled_cons.
  cbn [settlement]. now rewrite IH.
Qed.

Lemma destroy_socket_consistent m done :
  Inv m done ->
  Inv (destroy_socket m).1 done /\ settled (destroy_socket m).2 = [].
Proof.
  intros Hc. unfold destroy_socket. destruct (socket m) as [sock|]; [|now split].
  pose proof (command_consistent [JStr "quit"] m done Hc) as Hi.
  pose proof (command_settles_nothing [JStr "quit"] m) as Hs.
  destruct (command _ m) as [[q m0] out]. cbn [fst snd] in *.
  split; [exact Hi|]. now rewrite settled_app, Hs.
Qed.

Lemma destroy_process_consistent m done :
  Inv m done ->
  Inv (destroy_process m).1 done /\ settled (destroy_process m).2 = [].
Proof.
  intros Hc. unfold destroy_process. destruct (process m); now split.
Qed.

(** [destroy] in one piece, from what its two first steps leave. *)
Lemma destroy_unfold m :
  let m1 := (destroy_socket m).1 in
  let m2 := (destroy_process m1).1 in
  destroy m =
    (set__pending JsMap.empty
       (set_timers (clear_all (JsMap.values (_pending m2)) (timers m2))
          (set_ready false m2)),
     (destroy_socket m).2 ++ (destroy_process m1).2
       ++ (JsMap.values (_pending m2) ≫=
             (fun p => [ClearTimeout (timer p); Reject (promise p) "mpv destroyed"]))).
Proof.
  intros m1 m2. unfold destroy. subst m1 m2.
  destruct (destroy_socket m) as [m1 o1]. cbn [fst snd].
  destruct (destroy_process m1) as [m2 o2]. cbn [fst snd].
  now rewrite reject_all_spec.
Qed.

Lemma destroy_consistent m done :
  Inv m done -> Inv (destroy m).1 (done ++ settled (destroy m).2).
Proof.
  intros Hc. rewrite destroy_unfold. cbn [fst snd].
  destruct (destroy_socket_consistent m done Hc) as [Hi1 Hs1].
  destruct (destroy_process_consistent _ done Hi1) as [Hi2 Hs2].
  rewrite !settled_app, Hs1, Hs2, settled_rejections. simpl.
  unfold Inv, consistent_at in *. simpl.
  now apply consistent_clear_all.
Qed.

Lemma spawn_consistent nativeHandle opts m done :
  Inv m done ->
  Inv (spawn host nativeHandle opts m).1 done
  /\ settled (spawn host nativeHandle opts m).2 = [].
Proof.
  intros Hc. unfold spawn. destruct (process m); [now split|].
  cbn [fst snd]. split.
  - unfold Inv, consistent_at in *. simpl. now apply consistent_arm.
  - destruct (existsSync host _); reflexivity.
Qed.

Lemma on_connect_consistent sock m done :
  Inv m done -> Inv (on_connect sock m).1 (done ++ settled (on_connect sock m).2).
Proof.
  intros Hc. unfold on_connect.
  pose proof (emit_ready_consistent
                (set__recvBuf [] (set_ready true (set_socket (Some sock) m))) done Hc)
    as Hi.
  destruct (emit_ready _) as [m1 o1]. cbn [fst snd] in Hi.
  destruct (observeDefaults m1); [|exact Hi].
  destruct (observeDefaults_consistent m1 _ Hi) as [Hi' Hs].
  destruct (_observeDefaults m1) as [m2 o2]. cbn [fst snd] in *.
  now rewrite settled_app, Hs, app_nil_r.
Qed.

Lemma handle_consistent e m done :
  Inv m done -> Inv (handle host e m).1 (done ++ settled (handle host e m).2).
Proof.
  intros Hc. destruct e; simpl.
  - destruct (spawn_consistent nativeHandle opts m done Hc) as [Hi Hs].
    now rewrite Hs, app_nil_r.
  - pose proof (command_consistent args m done Hc) as Hi.
    pose proof (command_settles_nothing args m) as Hs.
    destruct (command args m) as [[q m1] out]. cbn [fst snd] in *.
    now rewrite Hs, app_nil_r.
  - pose proof (observeProperty_consistent name m done Hc) as Hi.
    pose proof (observeProperty_settles_nothing name m) as Hs.
    destruct (observeProperty name m) as [[q m1] out]. cbn [fst snd] in *.
    now rewrite Hs, app_nil_r.
  - pose proof (command_consistent [JStr "loadfile"; JStr path; JStr "replace"]
                  (set_filePath (Some path) m) done Hc) as Hi.
    pose proof (command_settles_nothing [JStr "loadfile"; JStr path; JStr "replace"]
                  (set_filePath (Some path) m)) as Hs.
    destruct (command _ _) as [[q m1] out]. cbn [fst snd] in *.
    now rewrite Hs, app_nil_r.
  - now apply destroy_consistent.
  - now apply timer_fires_consistent.
  - destruct (conns m !! sock); [now apply on_connect_consistent|].
    now rewrite app_nil_r.
  - destruct (conns m !! sock); [now apply onData_consistent|].
    now rewrite app_nil_r.
  - destruct (conns m !! sock) as [retries|]; [|now rewrite app_nil_r].
    unfold on_socket_error. destruct retries as [|fewer]; cbn [fst snd].
    + now rewrite app_nil_r.
    + rewrite app_nil_r. unfold Inv, consistent_at in *. simpl.
      now apply consistent_arm.
  - destruct (conns m !! sock); cbn [fst snd]; now rewrite app_nil_r.
  - now rewrite app_nil_r.
  - now rewrite app_nil_r.
  - now rewrite app_nil_r.
  - now rewrite app_nil_r.
Qed.

Lemma step_consistent e m done :
  Inv m done -> Inv (step host m e).1 (done ++ settled (step host m e).2).
Proof.
  intros Hc. unfold step.
  pose proof (handle_consistent e m done Hc) as Hi.
  destruct (handle host e m) as [m1 o1]. cbn [fst snd] in Hi.
  destruct (drain_consistent (settlements o1) m1 _ Hi) as [Hi' Hs].
  destruct (drain _ m1) as [m2 o2]. cbn [fst snd] in *.
  now rewrite settled_app, Hs, app_nil_r.
Qed.

Lemma run_consistent es m done :
  Inv m done -> Inv (run host m es).1 (done ++ settled (run host m es).2).
Proof.
  revert m done. induction es as [|e es IH]; intros m done Hc; simpl.
  - now rewrite app_nil_r.
  - pose proof (step_consistent e m done Hc) as Hi.
    destruct (step host m e) as [m1 o1]. cbn [fst snd] in Hi.
    specialize (IH m1 _ Hi). destruct (run host m1 es) as [m2 o2].
    cbn [fst snd] in *. now rewrite settled_app, app_assoc.
Qed.

Lemma new_consistent pipe observe : Inv (new pipe observe) [].
Proof.
  split; simpl; try (intros; discriminate); try apply NoDup_nil_2;
    try (intros ? Hin; now apply elem_of_nil in Hin).
  all: intros; rewrite lookup_empty in *; discriminate.
Qed.

(** Every state an instance can reach is consistent, with the promises
    settled on the way there. *)
Lemma reachable_consistent pipe observe es :
  Inv (run host (new pipe observe) es).1
      (settled (run host (new pipe observe) es).2).
Proof. apply (run_consistent es _ [] (new_consistent pipe observe)). Qed.
End Preservation.

(** ** Spawning twice *)

Section SpawnClaim.
Import Mpv.

(** C9.  [spawn] on an instance that has a process handle returns at
    once: the instance is as before and nothing at all is done (no
    directory, no input file, no second process, no timer).  So a second
    call right after a first one changes nothing either. *)
Theorem spawn_is_idempotent (host : Host) (nativeHandle again : option Z)
    (opts opts' : SpawnOpts) (m : MpvProcess) (pid : nat) :
  (process m = Some pid -> spawn host nativeHandle opts m = (m, []))
  /\ spawn host again opts' (spawn host nativeHandle opts m).1
     = ((spawn host nativeHandle opts m).1, []).
Proof.
  split.
  - intros Hp. unfold spawn. now rewrite Hp.
  - unfold spawn at 1. destruct (process (spawn _ _ _ m).1) eqn:Hp; [reflexivity|].
    exfalso. unfold spawn in Hp. destruct (process m) eqn:Hm.
    + cbn [fst] in Hp. congruence.
    + unfold setTimeout in Hp. cbn [fst process set_nextTimer set_timers
        set_nextPid set_process] in Hp. discriminate.
Qed.

Lemma spawn_is_idempotent_witness :
  spawn sample_host (Some 4660) sample_opts sample_connected = (sample_connected, []).
Proof.
  destruct (spawn_is_idempotent sample_host (Some 4660) None sample_opts
              sample_opts sample_connected 0) as [Hnoop _].
  apply Hnoop. vm_compute. reflexivity.
Defined.
End SpawnClaim.

(** ** Commands, step by step *)

Section CommandFacts.
Import Mpv.
Context `{JsRuntime}.
Implicit Types (m : MpvProcess) (ws : list ReadyWaiter).

Lemma connected_spec m :
  connected m = true <-> exists sock, socket m = Some sock /\ ready m = true.
Proof.
  unfold connected. destruct (socket m) as [sock|]; simpl.
  - split; [intros Hr; now exists sock | now intros (? & _ & ->)].
  - split; [discriminate | intros (? & ? & _); discriminate].
Qed.

(** A command on a connected instance is written out at once, under the
    next request id, with a timeout of ten seconds. *)
Lemma command_connected args m sock :
  socket m = Some sock -> ready m = true ->
  command args m =
    (nextPromise m,
     set__pending
       (JsMap.set (_requestId m + 1)
          {| promise := nextPromise m; timer := nextTimer m |} (_pending m))
       (set_nextTimer (S (nextTimer m))
          (set_timers
             (<[nextTimer m := CommandTimeout (_requestId m + 1) (nextPromise m)]>
                (timers m))
             (set__requestId (_requestId m + 1)
                (set_nextPromise (S (nextPromise m)) m)))),
     [SetTimeout (nextTimer m) 10000; SocketWrite sock args (_requestId m + 1)]).
Proof.
  intros Hs Hr. unfold command, connected, send, setTimeout.
  open_instance m. simpl in *. subst. reflexivity.
Qed.

(** A command on an instance that is not connected is parked: a wait
    timer of three seconds and a listener for ['ready'], nothing else. *)
Lemma command_waiting args m :
  connected m = false ->
  command args m =
    (nextPromise m,
     set_readyWaiters
       (readyWaiters m ++
          [{| w_promise := nextPromise m; w_args := args;
              w_timer := nextTimer m; w_done := false |}])
       (set_nextTimer (S (nextTimer m))
          (set_timers (<[nextTimer m := ReadyWait (nextPromise m)]> (timers m))
             (set_nextPromise (S (nextPromise m)) m))),
     [SetTimeout (nextTimer m) 3000]).
Proof.
  intros Hc. unfold command, connected, setTimeout in *.
  open_instance m. simpl in *. rewrite Hc. reflexivity.
Qed.

Lemma command_keeps_entry args m done id pr :
  Inv m done ->
  JsMap.get id (_pending m) = Some pr ->
  JsMap.get id (_pending (command args m).1.2) = Some pr.
Proof.
  intros Hc Hg. destruct (connected m) eqn:Hcon.
  - apply connected_spec in Hcon as (sock & Hs & Hr).
    rewrite (command_connected args m sock Hs Hr). simpl.
    destruct (inv_entry _ _ _ _ _ _ _ Hc id pr Hg) as [Hle _].
    rewrite get_set_ne by lia. exact Hg.
  - rewrite (command_waiting args m Hcon). exact Hg.
Qed.

Lemma clear_all_lookup_Some ps (T : gmap nat TimerAction) t a :
  clear_all ps T !! t = Some a -> T !! t = Some a.
Proof.
  revert T. induction ps as [|p ps IH]; intros T; simpl; [trivial|].
  intros Hl. apply IH in Hl. now apply lookup_delete_Some in Hl as [_ Hl].
Qed.

Lemma clear_all_lookup_None ps (T : gmap nat TimerAction) p :
  p ∈ ps -> clear_all ps T !! timer p = None.
Proof.
  revert T. induction ps as [|q ps IH]; intros T Hin.
  - now apply elem_of_nil in Hin.
  - simpl. apply elem_of_cons in Hin as [->|Hin]; [|now apply IH].
    destruct (clear_all ps (delete (timer q) T) !! timer q) as [a|] eqn:Hl;
      [|reflexivity].
    apply clear_all_lookup_Some in Hl. now rewrite lookup_delete_eq in Hl.
Qed.

Lemma get_value k (pr : PendingRequest) (P : JsMap.t Z PendingRequest) :
  JsMap.get k P = Some pr -> pr ∈ JsMap.values P.
Proof.
  intros Hg. apply get_elem_of in Hg. apply list_elem_of_fmap.
  now exists (k, pr).
Qed.
End CommandFacts.

(** ** Each request is settled once *)

Section SettledOnceClaim.
Import Mpv.
Context `{JsRuntime} (host : Host).

Lemma timeout_fires t id p m :
  timers m !! t = Some (CommandTimeout id p) ->
  timer_fires t m =
    (set__pending (JsMap.delete id (_pending m))
       (set_timers (delete t (timers m)) m),
     [Reject p "mpv command timed out"]).
Proof. intros Ht. unfold timer_fires. now rewrite Ht. Qed.

Lemma response_ignored msg m id :
  field "request_id" msg = Some (JNum (inject_Z id)) -> 0 < id ->
  JsMap.get id (_pending m) = None ->
  _handleMessage msg m = (m, []).
Proof.
  intros Hid Hpos Hg. apply (handleMessage_unmatched msg m _ Hid).
  - now apply gt_zero_id.
  - rewrite as_key_id. now intros ? [= <-].
Qed.

(** C10.  Over any history of an instance no promise is settled twice.
    A request timeout removes the entry and rejects; a response for that
    id arriving later changes nothing and does nothing, and so does any
    response whose id is not pending; other entries are never touched.
    A matching response clears the timer of its entry, so the timeout
    has nothing left to fire, and a second copy of the response is
    ignored. *)
Theorem pending_request_settled_once
    (pipe : string) (observe : bool) (es : list Event)
    (msg : json) (v : json) (t : nat) (id : Z) (p : nat) (pr : PendingRequest) :
  let m := (run host (new pipe observe) es).1 in
  NoDup (settled (run host (new pipe observe) es).2)
  /\ (timers m !! t = Some (CommandTimeout id p) ->
      let late := (timer_fires t m).1 in
      (timer_fires t m).2 = [Reject p "mpv command timed out"]
      /\ JsMap.get id (_pending late) = None
      /\ (forall id', id' <> id ->
            JsMap.get id' (_pending late) = JsMap.get id' (_pending m))
      /\ (field "request_id" msg = Some (JNum (inject_Z id)) -> 0 < id ->
          _handleMessage msg late = (late, [])))
  /\ (field "request_id" msg = Some v -> gt_zero v = true ->
      (forall k, as_key v = Some k -> JsMap.get k (_pending m) = None) ->
      _handleMessage msg m = (m, []))
  /\ (field "request_id" msg = Some (JNum (inject_Z id)) -> 0 < id ->
      JsMap.get id (_pending m) = Some pr ->
      let after := (_handleMessage msg m).1 in
      settled (_handleMessage msg m).2 = [promise pr]
      /\ timers after !! timer pr = None
      /\ timer_fires (timer pr) after = (after, [])
      /\ (forall id', id' <> id ->
            JsMap.get id' (_pending after) = JsMap.get id' (_pending m))
      /\ _handleMessage msg after = (after, [])).
Proof.
  intros m.
  pose proof (reachable_consistent host pipe observe es) as Hc. fold m in Hc.
  split; [apply (inv_settled _ _ _ _ _ _ _ Hc)|].
  split; [|split].
  - intros Ht late. subst late. rewrite (timeout_fires t id p m Ht). cbn [fst snd].
    split; [reflexivity|].
    assert (Hnone : JsMap.get id (JsMap.delete id (_pending m)) = None)
      by apply get_delete_eq, (inv_keys _ _ _ _ _ _ _ Hc).
    split; [exact Hnone|]. split.
    + intros id' Hne. apply get_delete_ne. congruence.
    + intros Hid Hpos. now apply (response_ignored msg _ id).
  - apply handleMessage_unmatched.
  - intros Hid Hpos Hg after. subst after.
    rewrite (handleMessage_matching msg m id pr Hid Hpos Hg). cbn [fst snd].
    assert (Hnone : JsMap.get id (JsMap.delete id (_pending m)) = None)
      by apply get_delete_eq, (inv_keys _ _ _ _ _ _ _ Hc).
    split; [now destruct (is_success _)|].
    split; [apply lookup_delete_eq|]. split; [|split].
    + unfold timer_fires. cbn [timers set__pending set_timers].
      now rewrite lookup_delete_eq.
    + intros id' Hne. apply get_delete_ne. congruence.
    + now apply (response_ignored msg _ id).
Qed.
End SettledOnceClaim.

Section SettledOnceWitness.
Import Mpv.

Lemma pending_request_settled_once_witness :
  let m := (@run sample_runtime sample_host (new sample_pipe false)
              sample_history).1 in
  let reply := response 2 "success" (Some (JNum 5)) in
  let stray := response 9 "success" None in
  let late := (timer_fires 2 m).1 in
  let after := (@_handleMessage sample_runtime reply m).1 in
  @_handleMessage sample_runtime reply late = (late, [])
  /\ @_handleMessage sample_runtime stray m = (m, [])
  /\ timer_fires 2 after = (after, [])
  /\ @_handleMessage sample_runtime reply after = (after, []).
Proof.
  intros m reply stray late after.
  assert (Htimer : timers m !! 2%nat = Some (CommandTimeout 2 1))
    by (vm_compute; reflexivity).
  assert (Hentry : JsMap.get 2 (_pending m) = Some {| promise := 1; timer := 2 |})
    by (vm_compute; reflexivity).
  assert (Hunknown : forall k, as_key (JNum (inject_Z 9)) = Some k ->
                               JsMap.get k (_pending m) = None).
  { intros k Hk. vm_compute in Hk. injection Hk as <-. vm_compute. reflexivity. }
  destruct (@pending_request_settled_once sample_runtime sample_host sample_pipe
              false sample_history reply (JNum 2) 2 2 1
              {| promise := 1; timer := 2 |})
    as (_ & Htimeout & _ & Hmatch).
  destruct (@pending_request_settled_once sample_runtime sample_host sample_pipe
              false sample_history stray (JNum (inject_Z 9)) 2 2 1
              {| promise := 1; timer := 2 |})
    as (_ & _ & Hstray & _).
  destruct (Htimeout Htimer) as (_ & _ & _ & Hlate).
  destruct (Hmatch eq_refl eq_refl Hentry) as (_ & _ & Hfire & _ & Hagain).
  split; [exact (Hlate eq_refl eq_refl)|].
  split; [exact (Hstray eq_refl eq_refl Hunknown)|].
  split; [exact Hfire | exact Hagain].
Defined.
End SettledOnceWitness.

(** ** Teardown *)

Section DestroyClaim.
Import Mpv.
Context `{JsRuntime} (host : Host).
Implicit Types (m : MpvProcess).

Lemma settled_nil_elem out e : settled out = [] -> e ∈ out -> settlement e = None.
Proof.
  induction out as [|e' out IH]; intros Hs Hin.
  - now apply elem_of_nil in Hin.
  - rewrite settled_cons in Hs. apply elem_of_cons in Hin as [->|Hin].
    + destruct (settlement e') as [[q b]|]; [discriminate | reflexivity].
    + destruct (settlement e') as [[q b]|]; [discriminate | auto].
Qed.

Lemma destroy_process_frame m :
  _pending (destroy_process m).1 = _pending m
  /\ timers (destroy_process m).1 = timers m
  /\ socket (destroy_process m).1 = socket m
  /\ process (destroy_process m).1 = None.
Proof.
  unfold destroy_process. destruct (process m) eqn:Hp; simpl; repeat split;
    try reflexivity. exact Hp.
Qed.

(** The requests [destroy] finds pending: those of the instance, and
    the quit command when it could be written. *)
Lemma destroy_socket_pending m done :
  Inv m done ->
  JsMap.values (_pending (destroy_socket m).1) =
    JsMap.values (_pending m)
      ++ (if connected m
          then [{| promise := nextPromise m; timer := nextTimer m |}] else []).
Proof.
  intros Hc. unfold destroy_socket.
  destruct (connected m) eqn:Hcon.
  - apply connected_spec in Hcon as (sock & Hs & Hr). rewrite Hs.
    rewrite (command_connected _ m sock Hs Hr). simpl.
    rewrite set_fresh by apply (consistent_fresh_id _ _ _ _ _ _ _ Hc).
    apply values_snoc.
  - destruct (socket m) as [sock|]; [|now rewrite app_nil_r].
    rewrite (command_waiting _ m Hcon). simpl. now rewrite app_nil_r.
Qed.

Lemma destroy_socket_entry m done id pr :
  Inv m done ->
  JsMap.get id (_pending m) = Some pr ->
  JsMap.get id (_pending (destroy_socket m).1) = Some pr.
Proof.
  intros Hc Hg. unfold destroy_socket. destruct (socket m) as [sock|]; [|exact Hg].
  pose proof (command_keeps_entry [JStr "quit"] m done id pr Hc Hg) as Hk.
  now destruct (command _ m) as [[q m0] out].
Qed.

Lemma destroy_socket_fields m :
  socket (destroy_socket m).1 = None
  /\ process (destroy_socket m).1 = process m.
Proof.
  unfold destroy_socket. destruct (socket m) as [sock|] eqn:Hs; [|now split].
  destruct (connected m) eqn:Hcon.
  - apply connected_spec in Hcon as (sock' & Hs' & Hr).
    rewrite (command_connected _ m sock' Hs' Hr). now split.
  - rewrite (command_waiting _ m Hcon). now split.
Qed.

(** A timer that is armed stays armed through the quit command. *)
Lemma destroy_socket_timer m done t a :
  Inv m done -> timers m !! t = Some a -> timers (destroy_socket m).1 !! t = Some a.
Proof.
  intros Hc Ht. pose proof (inv_timer_lt _ _ _ _ _ _ _ Hc _ _ Ht) as Hlt.
  unfold destroy_socket. destruct (socket m) as [sock|] eqn:Hs; [|exact Ht].
  destruct (connected m) eqn:Hcon.
  - apply connected_spec in Hcon as (sock' & Hs' & Hr).
    rewrite (command_connected _ m sock' Hs' Hr). cbn.
    rewrite lookup_insert_ne by lia. exact Ht.
  - rewrite (command_waiting _ m Hcon). cbn.
    rewrite lookup_insert_ne by lia. exact Ht.
Qed.

(** Clearing the timers of [ps] leaves every other timer alone. *)
Lemma clear_all_lookup_other ps (T : gmap nat TimerAction) t :
  (forall p, p ∈ ps -> timer p <> t) -> clear_all ps T !! t = T !! t.
Proof.
  revert T. induction ps as [|q ps IH]; intros T Hne; [reflexivity|].
  change (clear_all (q :: ps) T) with (clear_all ps (delete (timer q) T)).
  rewrite IH by (intros p Hp; apply Hne; now right).
  apply lookup_delete_ne. apply Hne. left.
Qed.

(** C3, as the code has it.  For an instance in any state it can
    reach, [destroy] rejects every pending request with the error "mpv
    destroyed" and clears its timeout timer; the promises it settles are
    exactly those of the pending requests (and of the quit command it
    has just written, if the instance was connected), each rejected,
    none resolved.  After it the map of pending requests is empty, the
    ready flag is off, the socket and the process handle are gone; a
    socket that was there was destroyed after the quit command, a
    process that was there was killed; and no timeout timer of any
    request is armed any more.  The timers that are not timeouts of
    requests (the timer that will connect, a retry, the wait of a
    command not yet sent) are not touched: each one armed before
    [destroy] is armed after it. *)
Theorem destroy_rejects_all_pending
    (pipe : string) (observe : bool) (es : list Event)
    (id : Z) (pr : PendingRequest) (sock pid t : nat) (id' : Z) (p' : nat)
    (a : TimerAction) :
  let m := (run host (new pipe observe) es).1 in
  let m' := (destroy m).1 in
  let out := (destroy m).2 in
  (JsMap.get id (_pending m) = Some pr ->
     Reject (promise pr) "mpv destroyed" ∈ out
     /\ ClearTimeout (timer pr) ∈ out
     /\ timers m' !! timer pr = None)
  /\ settled out =
       (promise <$> JsMap.values (_pending m))
         ++ (if connected m then [nextPromise m] else [])
  /\ (forall q message, Reject q message ∈ out -> message = "mpv destroyed"%string)
  /\ (forall q v, Resolve q v ∉ out)
  /\ _pending m' = JsMap.empty /\ ready m' = false
  /\ socket m' = None /\ process m' = None
  /\ (socket m = Some sock ->
      exists rest, out = (command [JStr "quit"] m).2 ++ SocketDestroy sock :: rest)
  /\ (process m = Some pid -> ProcessKill pid ∈ out)
  /\ timers m' !! t <> Some (CommandTimeout id' p')
  /\ (timers m !! t = Some a -> not_timeout a -> timers m' !! t = Some a).
Proof.
  intros m m' out.
  pose proof (reachable_consistent host pipe observe es) as Hc. fold m in Hc.
  pose proof (destroy_consistent m _ Hc) as Hc'. fold m' in Hc'.
  pose proof (destroy_socket_timer m _ t a Hc) as Hkeep.
  subst m' out. rewrite destroy_unfold in *. cbn [fst snd] in *.
  set (m1 := (destroy_socket m).1) in *.
  set (m2 := (destroy_process m1).1) in *.
  destruct (destroy_socket_consistent m _ Hc) as [Hi1 Hs1]. fold m1 in Hi1.
  destruct (destroy_process_consistent m1 _ Hi1) as [Hi2 Hs2].
  destruct (destroy_process_frame m1) as (Hp2 & Ht2 & Hsock2 & Hproc2).
  fold m2 in Hp2, Ht2, Hsock2, Hproc2.
  pose proof (destroy_socket_pending m _ Hc) as Hvals. fold m1 in Hvals.
  set (rejections := JsMap.values (_pending m2) ≫= _) in *.
  assert (Hrej : forall p, p ∈ JsMap.values (_pending m2) ->
            Reject (promise p) "mpv destroyed" ∈ rejections
            /\ ClearTimeout (timer p) ∈ rejections).
  { intros p Hin. subst rejections. split; apply list_elem_of_bind; exists p;
      (split; [|exact Hin]); [right; left | left]. }
  split; [|split; [|split; [|split]]].
  - intros Hg. apply (destroy_socket_entry m _ id pr Hc) in Hg. fold m1 in Hg.
    rewrite <- Hp2 in Hg. apply get_value in Hg.
    destruct (Hrej pr Hg) as [Hr Hcl].
    split; [|split].
    + rewrite !elem_of_app. auto.
    + rewrite !elem_of_app. auto.
    + simpl. now apply clear_all_lookup_None.
  - rewrite !settled_app, Hs1, Hs2. subst rejections.
    rewrite settled_rejections, Hp2, Hvals, fmap_app. simpl.
    now destruct (connected m).
  - intros q message Hin. rewrite !elem_of_app in Hin.
    destruct Hin as [Hin|[Hin|Hin]].
    + apply (settled_nil_elem _ _ Hs1) in Hin. discriminate.
    + apply (settled_nil_elem _ _ Hs2) in Hin. discriminate.
    + subst rejections. apply list_elem_of_bind in Hin as (p & Hin & _).
      apply elem_of_cons in Hin as [Hin|Hin]; [discriminate|].
      apply list_elem_of_singleton in Hin. congruence.
  - intros q v Hin. rewrite !elem_of_app in Hin.
    destruct Hin as [Hin|[Hin|Hin]].
    + apply (settled_nil_elem _ _ Hs1) in Hin. discriminate.
    + apply (settled_nil_elem _ _ Hs2) in Hin. discriminate.
    + subst rejections. apply list_elem_of_bind in Hin as (p & Hin & _).
      apply elem_of_cons in Hin as [Hin|Hin]; [discriminate|].
      apply list_elem_of_singleton in Hin. discriminate.
  - split; [reflexivity|]. split; [reflexivity|].
    split; [simpl; rewrite Hsock2; apply destroy_socket_fields|].
    split; [exact Hproc2|].
    split; [|split; [|split]].
    + intros Hs. unfold destroy_socket. rewrite Hs.
      destruct (command _ m) as [[q m0] o]. cbn [fst snd].
      eexists. rewrite <- !app_assoc. reflexivity.
    + intros Hp. rewrite !elem_of_app. right. left.
      destruct (destroy_socket_fields m) as [_ Hproc]. fold m1 in Hproc.
      unfold destroy_process. rewrite Hproc, Hp. left.
    + intros Hl. apply (inv_timeout _ _ _ _ _ _ _ Hc') in Hl. discriminate.
    + intros Ht Hnot. specialize (Hkeep Ht). fold m1 in Hkeep.
      rewrite <- Ht2 in Hkeep. cbn.
      rewrite clear_all_lookup_other; [exact Hkeep|].
      intros p Hin <-. apply list_elem_of_fmap in Hin as ([k p0] & -> & Hin).
      apply (elem_of_get _ _ _ (inv_keys _ _ _ _ _ _ _ Hi2)) in Hin.
      apply (inv_entry _ _ _ _ _ _ _ Hi2) in Hin as [_ Hin].
      fold m2 in Hin. cbn [snd] in Hkeep. rewrite Hin in Hkeep.
      injection Hkeep as <-. exact Hnot.
Qed.
End DestroyClaim.

Section DestroyWitness.
Import Mpv.

Lemma destroy_rejects_all_pending_witness :
  let m := (@run sample_runtime sample_host (new sample_pipe false)
              sample_history).1 in
  let out := (destroy m).2 in
  Reject 1 "mpv destroyed" ∈ out
  /\ ClearTimeout 2 ∈ out
  /\ (exists rest, out = (command [JStr "quit"] m).2 ++ SocketDestroy 0 :: rest)
  /\ ProcessKill 0 ∈ out
  /\ timers
       (destroy (@run sample_runtime sample_host (new sample_pipe false)
                   [CallSpawn (Some 4660) sample_opts]).1).1 !! 0%nat
     = Some (Connect 10).
Proof.
  intros m out.
  assert (Harmed : timers (@run sample_runtime sample_host (new sample_pipe false)
                             [CallSpawn (Some 4660) sample_opts]).1 !! 0%nat
                   = Some (Connect 10))
    by (vm_compute; reflexivity).
  destruct (@destroy_rejects_all_pending sample_runtime sample_host sample_pipe
              false [CallSpawn (Some 4660) sample_opts] 0
              {| promise := 0; timer := 0 |} 0 0 0 0 0 (Connect 10))
    as (_ & _ & _ & _ & _ & _ & _ & _ & _ & _ & _ & Hstays).
  specialize (Hstays Harmed I).
  assert (Hentry : JsMap.get 2 (_pending m) = Some {| promise := 1; timer := 2 |})
    by (vm_compute; reflexivity).
  assert (Hsock : socket m = Some 0%nat) by (vm_compute; reflexivity).
  assert (Hproc : process m = Some 0%nat) by (vm_compute; reflexivity).
  destruct (@destroy_rejects_all_pending sample_runtime sample_host sample_pipe
              false sample_history 2 {| promise := 1; timer := 2 |} 0 0 0 0 0
              (Connect 10))
    as (Hrej & _ & _ & _ & _ & _ & _ & _ & Hquit & Hkill & _).
  destruct (Hrej Hentry) as (Hr & Hcl & _).
  split; [exact Hr|]. split; [exact Hcl|].
  split; [exact (Hquit Hsock)|]. split; [exact (Hkill Hproc) | exact Hstays].
Defined.

(** The claim as it was worded, with no timer left after [destroy],
    fails: [spawn] arms the timer that will connect, [destroy] does not
    clear it, and when it fires the destroyed instance opens a
    connection; and the quit command of [destroy] itself, on an
    instance whose socket is there but which is not ready, arms a wait
    timer of three seconds that stays armed. *)
Lemma destroy_leaves_timers_counterexample :
  ~ (forall (rt : JsRuntime) (host : Host) (pipe : string) (observe : bool)
            (es : list Event) (t : nat),
       timers (destroy (@run rt host (new pipe observe) es).1).1 !! t = None)
  /\ (timer_fires 0
        (destroy (@run sample_runtime sample_host (new sample_pipe false)
                    [CallSpawn (Some 4660) sample_opts]).1).1).2
     = [CreateConnection 0 sample_pipe]
  /\ timers
       (destroy (@run sample_runtime sample_host (new sample_pipe false)
                   [CallSpawn (Some 4660) sample_opts; TimerFires 0;
                    SocketConnect 0; ProcessError "spawn failed"]).1).1
     !! 1%nat = Some (ReadyWait 0).
Proof.
  split; [|split].
  - intros Hclaim.
    specialize (Hclaim sample_runtime sample_host sample_pipe false
                  [CallSpawn (Some 4660) sample_opts] 0%nat).
    vm_compute in Hclaim. discriminate.
  - vm_compute. reflexivity.
  - vm_compute. reflexivity.
Qed.
End DestroyWitness.

(** ** Responses find their request *)

Section ResponseClaim.
Import Mpv.
Context `{JsRuntime} (host : Host).
Implicit Types (m : MpvProcess).

(** What runs in the microtasks sends commands and nothing else: the
    bookkeeping stays consistent and no pending entry is lost. *)
Lemma observe_next_keeps props m done id pr :
  Inv m done -> JsMap.get id (_pending m) = Some pr ->
  JsMap.get id (_pending (observe_next props m).1) = Some pr.
Proof.
  intros Hc Hg. destruct props as [|name rest]; simpl; [exact Hg|].
  unfold observeProperty.
  pose proof (command_keeps_entry
                [JStr "observe_property"; JNum (inject_Z (_nextObsId m)); JStr name]
                (set__observedProps (<[_nextObsId m := name]> (_observedProps m))
                   (set__nextObsId (_nextObsId m + 1) m)) done id pr Hc Hg) as Hk.
  now destruct (command _ _) as [[q m1] out].
Qed.

Lemma drain_keeps l m done id pr :
  Inv m done -> JsMap.get id (_pending m) = Some pr ->
  JsMap.get id (_pending (drain l m).1) = Some pr.
Proof.
  revert m. induction l as [|[p fulfilled] l IH]; intros m Hc Hg; simpl; [exact Hg|].
  destruct (awaits m !! p) as [k|]; [|now apply IH].
  set (m0 := set_awaits (delete p (awaits m)) m).
  destruct (resume_consistent k fulfilled m0 done Hc) as [Hi _].
  assert (Hk : JsMap.get id (_pending (resume k fulfilled m0).1) = Some pr).
  { destruct k as [|rest]; unfold resume.
    - now apply (observe_next_keeps _ _ done).
    - destruct fulfilled; [now apply (observe_next_keeps _ _ done) | exact Hg]. }
  destruct (resume k fulfilled m0) as [m1 o1]. cbn [fst snd] in *.
  specialize (IH m1 Hi Hk). now destruct (drain l m1) as [m2 o2].
Qed.

Lemma receive_consistent msg m done :
  Inv m done -> Inv (receive msg m).1 (done ++ settled (receive msg m).2).
Proof.
  intros Hc. unfold receive.
  pose proof (handleMessage_consistent (readyWaiters m) msg m done Hc) as Hh.
  pose proof (handleMessage_frame msg m) as (Hw & _).
  destruct (_handleMessage msg m) as [m1 o1]. cbn [fst snd] in *.
  assert (Hi : Inv m1 (done ++ settled o1)) by (unfold Inv; now rewrite Hw).
  destruct (drain_consistent (settlements o1) m1 _ Hi) as [Hi' Hs].
  destruct (drain _ m1) as [m2 o2]. cbn [fst snd] in *.
  now rewrite settled_app, Hs, app_nil_r.
Qed.

Lemma receive_keeps msg m done id pr :
  Inv m done -> JsMap.get id (_pending m) = Some pr ->
  (forall v, field "request_id" msg = Some v -> as_key v <> Some id) ->
  JsMap.get id (_pending (receive msg m).1) = Some pr.
Proof.
  intros Hc Hg Hother. unfold receive.
  pose proof (handleMessage_consistent (readyWaiters m) msg m done Hc) as Hh.
  pose proof (handleMessage_frame msg m) as (Hw & _).
  pose proof (handleMessage_other_entries msg m id Hother) as Hk.
  destruct (_handleMessage msg m) as [m1 o1]. cbn [fst snd] in *.
  assert (Hi : Inv m1 (done ++ settled o1)) by (unfold Inv; now rewrite Hw).
  rewrite Hg in Hk.
  pose proof (drain_keeps (settlements o1) m1 _ id pr Hi Hk) as Hd.
  now destruct (drain _ m1) as [m2 o2].
Qed.

Lemma receive_all_keeps others m done id pr :
  Inv m done -> JsMap.get id (_pending m) = Some pr ->
  Forall (fun o => forall v, field "request_id" o = Some v -> as_key v <> Some id)
    others ->
  JsMap.get id (_pending (receive_all others m).1) = Some pr.
Proof.
  revert m done. induction others as [|o others IH]; intros m done Hc Hg Hall;
    simpl; [exact Hg|].
  apply Forall_cons in Hall as [Ho Hall].
  pose proof (receive_consistent o m done Hc) as Hi.
  pose proof (receive_keeps o m done id pr Hc Hg Ho) as Hk.
  destruct (receive o m) as [m1 o1]. cbn [fst snd] in *.
  specialize (IH m1 _ Hi Hk Hall). now destruct (receive_all others m1).
Qed.

(** C1, as the code has it.  In any state the instance can reach, and
    after any other frames have been taken in (frames that do not carry
    this request id, in whatever number and order), a frame whose
    request id is that of a pending entry clears the timer of the
    entry, removes the entry and settles its promise: resolved with the
    [data] field when the [error] field is the string "success",
    rejected otherwise.  The rejection carries the text of the [error]
    field when that is a non-empty string, and the text "mpv error"
    when the field is missing or falsy.  No other entry is touched. *)
Theorem response_settles_its_request
    (pipe : string) (observe : bool) (es : list Event)
    (others : list json) (msg : json) (id : Z) (pr : PendingRequest) :
  let m := (run host (new pipe observe) es).1 in
  field "request_id" msg = Some (JNum (inject_Z id)) ->
  0 < id ->
  JsMap.get id (_pending m) = Some pr ->
  Forall (fun o => forall v, field "request_id" o = Some v -> as_key v <> Some id)
    others ->
  let before := (receive_all others m).1 in
  _handleMessage msg before =
    (set__pending (JsMap.delete id (_pending before))
       (set_timers (delete (timer pr) (timers before)) before),
     [ClearTimeout (timer pr);
      if is_success (field "error" msg)
      then Resolve (promise pr) (field "data" msg)
      else Reject (promise pr) (error_message (field "error" msg))])
  /\ (forall id', id' <> id ->
        JsMap.get id' (_pending (_handleMessage msg before).1)
        = JsMap.get id' (_pending before))
  /\ (forall c r, field "error" msg = Some (JStr (String c r)) ->
        error_message (field "error" msg) = String c r)
  /\ (truthy (field "error" msg) = false ->
      error_message (field "error" msg) = "mpv error"%string).
Proof.
  intros m Hid Hpos Hg Hall before.
  pose proof (reachable_consistent host pipe observe es) as Hc. fold m in Hc.
  pose proof (receive_all_keeps others m _ id pr Hc Hg Hall) as Hk.
  fold before in Hk.
  split; [now apply handleMessage_matching|].
  split; [|split].
  - intros id' Hne. apply handleMessage_other_entries.
    intros v Hv. rewrite Hid in Hv. injection Hv as <-. rewrite as_key_id.
    congruence.
  - intros c r ->. reflexivity.
  - intros Hf. unfold error_message. now rewrite Hf.
Qed.
End ResponseClaim.

Section ResponseWitness.
Import Mpv.

Lemma response_settles_its_request_witness :
  let m := (@run sample_runtime sample_host (new sample_pipe false)
              sample_history).1 in
  let others := [response 3 "success" None; response 1 "property unavailable" None] in
  let before := (@receive_all sample_runtime others m).1 in
  (@_handleMessage sample_runtime (response 2 "success" (Some (JNum 5))) before).2
    = [ClearTimeout 2; Resolve 1 (Some (JNum 5))]
  /\ (@_handleMessage sample_runtime (response 2 "property unavailable" None) before).2
    = [ClearTimeout 2; Reject 1 "property unavailable"].
Proof.
  intros m others before.
  assert (Hentry : JsMap.get 2 (_pending m) = Some {| promise := 1; timer := 2 |})
    by (vm_compute; reflexivity).
  assert (Hothers : Forall (fun o => forall v, field "request_id" o = Some v ->
                                     as_key v <> Some 2) others).
  { repeat constructor; intros v Hv; vm_compute in Hv; injection Hv as <-;
      vm_compute; discriminate. }
  destruct (@response_settles_its_request sample_runtime sample_host sample_pipe
              false sample_history others (response 2 "success" (Some (JNum 5)))
              2 {| promise := 1; timer := 2 |} eq_refl eq_refl Hentry Hothers)
    as (Hok & _).
  destruct (@response_settles_its_request sample_runtime sample_host sample_pipe
              false sample_history others (response 2 "property unavailable" None)
              2 {| promise := 1; timer := 2 |} eq_refl eq_refl Hentry Hothers)
    as (Hfail & _).
  split.
  - exact (f_equal snd Hok).
  - exact (f_equal snd Hfail).
Defined.

(** The claim as it was worded, with the rejection always carrying the
    text of the [error] field, fails on a frame whose [error] is the
    empty string: the code rejects with "mpv error". *)
Lemma response_error_text_counterexample :
  ~ (forall (rt : JsRuntime) (m : MpvProcess) (msg : json) (id : Z)
            (pr : PendingRequest) (text : string),
       field "request_id" msg = Some (JNum (inject_Z id)) -> 0 < id ->
       JsMap.get id (_pending m) = Some pr ->
       field "error" msg = Some (JStr text) -> text <> "success"%string ->
       Reject (promise pr) text ∈ (@_handleMessage rt msg m).2).
Proof.
  intros Hclaim.
  assert (Hentry : JsMap.get 2 (_pending sample_busy)
                   = Some {| promise := 1; timer := 2 |})
    by (vm_compute; reflexivity).
  assert (Hout : (@_handleMessage sample_runtime (response 2 EmptyString None) sample_busy).2
                 = [ClearTimeout 2; Reject 1 "mpv error"])
    by (vm_compute; reflexivity).
  assert (Hne : EmptyString <> "success"%string) by discriminate.
  pose proof (Hclaim sample_runtime sample_busy (response 2 EmptyString None) 2
                {| promise := 1; timer := 2 |} EmptyString
                eq_refl eq_refl Hentry eq_refl Hne) as Hin.
  rewrite Hout in Hin. cbn [promise] in Hin.
  apply elem_of_cons in Hin as [Hin|Hin]; [discriminate|].
  apply list_elem_of_singleton in Hin. discriminate.
Qed.
End ResponseWitness.

(** ** Commands sent before the instance is connected *)

Section WaitingFacts.
Import Mpv.
Context `{JsRuntime} (host : Host).
Implicit Types (m : MpvProcess) (w : ReadyWaiter) (ws : list ReadyWaiter).

Lemma command_keeps_waiter args m w :
  w ∈ readyWaiters m -> w ∈ readyWaiters (command args m).1.2.
Proof.
  intros Hin. destruct (connected m) eqn:Hcon.
  - apply connected_spec in Hcon as (sock & Hs & Hr).
    now rewrite (command_connected args m sock Hs Hr).
  - rewrite (command_waiting args m Hcon). simpl. apply elem_of_app. now left.
Qed.

Lemma observe_next_keeps_waiter props m w :
  w ∈ readyWaiters m -> w ∈ readyWaiters (observe_next props m).1.
Proof.
  intros Hin. destruct props as [|name rest]; simpl; [exact Hin|].
  unfold observeProperty.
  pose proof (command_keeps_waiter
                [JStr "observe_property"; JNum (inject_Z (_nextObsId m)); JStr name]
                (set__observedProps (<[_nextObsId m := name]> (_observedProps m))
                   (set__nextObsId (_nextObsId m + 1) m)) w Hin) as Hk.
  now destruct (command _ _) as [[q m1] out].
Qed.

Lemma drain_keeps_waiter l m w :
  w ∈ readyWaiters m -> w ∈ readyWaiters (drain l m).1.
Proof.
  revert m. induction l as [|[p fulfilled] l IH]; intros m Hin; simpl; [exact Hin|].
  destruct (awaits m !! p) as [k|]; [|now apply IH].
  set (m0 := set_awaits (delete p (awaits m)) m).
  assert (Hk : w ∈ readyWaiters (resume k fulfilled m0).1).
  { destruct k as [|rest]; unfold resume.
    - now apply observe_next_keeps_waiter.
    - destruct fulfilled; [now apply observe_next_keeps_waiter | exact Hin]. }
  destruct (resume k fulfilled m0) as [m1 o1]. cbn [fst snd] in *.
  specialize (IH m1 Hk). now destruct (drain l m1).
Qed.

Lemma expire_keeps_waiter t ws w :
  w ∈ ws -> w_timer w <> t -> w ∈ (expire_waiter t ws).1.
Proof.
  induction ws as [|w' ws IH]; intros Hin Hne; simpl.
  - now apply elem_of_nil in Hin.
  - case_bool_decide as Ht.
    + apply elem_of_cons in Hin as [->|Hin]; [congruence|].
      destruct (w_done w'); simpl; now right.
    + destruct (expire_waiter t ws) as [ws' out]. simpl in *.
      apply elem_of_cons in Hin as [->|Hin]; [left | right; auto].
Qed.

Lemma destroy_keeps_waiter m w :
  w ∈ readyWaiters m -> w ∈ readyWaiters (destroy m).1.
Proof.
  intros Hin. rewrite destroy_unfold. cbn [fst]. simpl.
  assert (Hk : w ∈ readyWaiters (destroy_socket m).1).
  { unfold destroy_socket. destruct (socket m); [|exact Hin].
    pose proof (command_keeps_waiter [JStr "quit"] m w Hin) as Hk.
    now destruct (command _ m) as [[q m0] out]. }
  unfold destroy_process. now destruct (process _).
Qed.

Lemma step_keeps_waiter e m w :
  keeps_waiting (w_timer w) e = true ->
  w ∈ readyWaiters m -> w ∈ readyWaiters (step host m e).1.
Proof.
  intros He Hin. unfold step.
  assert (Hh : w ∈ readyWaiters (handle host e m).1).
  { destruct e; simpl in *; try discriminate; try exact Hin.
    - unfold spawn. now destruct (process m).
    - pose proof (command_keeps_waiter args m w Hin) as Hk.
      now destruct (command args m) as [[q m1] out].
    - unfold observeProperty.
      pose proof (command_keeps_waiter
                    [JStr "observe_property"; JNum (inject_Z (_nextObsId m));
                     JStr name]
                    (set__observedProps (<[_nextObsId m := name]> (_observedProps m))
                       (set__nextObsId (_nextObsId m + 1) m)) w Hin) as Hk.
      now destruct (command _ _) as [[q m1] out].
    - pose proof (command_keeps_waiter [JStr "loadfile"; JStr path; JStr "replace"]
                    (set_filePath (Some path) m) w Hin) as Hk.
      now destruct (command _ _) as [[q m1] out].
    - now apply destroy_keeps_waiter.
    - unfold timer_fires. destruct (timers m !! t) as [[id p|q|retries]|];
        cbn [fst]; try exact Hin.
      pose proof (expire_keeps_waiter t (readyWaiters m) w Hin) as Hk.
      cbv zeta. cbn [readyWaiters set_timers].
      destruct (expire_waiter t (readyWaiters m)) as [ws' out]. simpl in *.
      apply Hk. intros Heq. apply negb_true_iff, Nat.eqb_neq in He. congruence.
    - destruct (conns m !! sock); [|exact Hin]. unfold _onData.
      destruct (Codec.frame _ _) as [lines rest].
      destruct (dispatch_frame lines (set__recvBuf rest m)) as (Hw & _).
      now rewrite Hw.
    - destruct (conns m !! sock) as [[|fewer]|]; exact Hin.
    - destruct (conns m !! sock); exact Hin. }
  destruct (handle host e m) as [m1 o1]. cbn [fst snd] in *.
  pose proof (drain_keeps_waiter (settlements o1) m1 w Hh) as Hd.
  now destruct (drain _ m1).
Qed.

Lemma run_keeps_waiter es m w :
  forallb (keeps_waiting (w_timer w)) es = true ->
  w ∈ readyWaiters m -> w ∈ readyWaiters (run host m es).1.
Proof.
  revert m. induction es as [|e es IH]; intros m Hall Hin; simpl; [exact Hin|].
  simpl in Hall. apply andb_true_iff in Hall as [He Hall].
  pose proof (step_keeps_waiter e m w He Hin) as Hs.
  destruct (step host m e) as [m1 o1]. cbn [fst] in *.
  specialize (IH m1 Hall Hs). now destruct (run host m1 es).
Qed.

Lemma expiring_single ws w :
  NoDup (w_timer <$> ws) -> w ∈ ws -> w_done w = false ->
  expiring (w_timer w) ws = [w].
Proof.
  induction ws as [|w' ws IH]; intros Hnd Hin Hd.
  - now apply elem_of_nil in Hin.
  - simpl in Hnd. apply NoDup_cons in Hnd as [Hnin Hnd].
    unfold expiring in *. rewrite filter_cons.
    apply elem_of_cons in Hin as [->|Hin].
    + rewrite decide_True by now split.
      fold (expiring (w_timer w') ws). now rewrite expiring_absent.
    + rewrite decide_False; [now apply IH|].
      intros [Heq _]. apply Hnin. rewrite Heq.
      apply list_elem_of_fmap. now exists w.
Qed.

Lemma live_waiter ws P w :
  w ∈ ws -> w_done w = false -> w_promise w ∈ live ws P.
Proof.
  intros Hin Hd. unfold live. apply elem_of_app. right.
  apply list_elem_of_fmap. exists w. split; [reflexivity|].
  apply list_elem_of_filter. now split.
Qed.

(** When ['ready'] comes, a command still waiting has its wait timer
    cleared and is written to the socket. *)
Lemma run_waiters_sends ws m w sock :
  socket m = Some sock -> ready m = true ->
  w ∈ ws -> w_done w = false ->
  ClearTimeout (w_timer w) ∈ (run_waiters ws m).2
  /\ exists id, SocketWrite sock (w_args w) id ∈ (run_waiters ws m).2.
Proof.
  revert m. induction ws as [|w' ws IH]; intros m Hs Hr Hin Hd.
  - now apply elem_of_nil in Hin.
  - simpl. apply elem_of_cons in Hin as [->|Hin].
    + rewrite Hd. unfold clearTimeout.
      set (m0 := set_timers (delete (w_timer w') (timers m)) m).
      assert (Hsend : (send (w_promise w') (w_args w') m0).2 =
                [SetTimeout (nextTimer m) 10000;
                 SocketWrite sock (w_args w') (_requestId m + 1)]).
      { unfold send, m0. simpl. rewrite Hs, Hr. reflexivity. }
      destruct (send _ _ m0) as [m1 o1]. cbn [snd] in Hsend. subst o1.
      destruct (run_waiters ws m1) as [m2 o2]. cbn [snd]. split.
      * left.
      * exists (_requestId m + 1). right. right. left.
    + destruct (w_done w').
      * now apply IH.
      * unfold clearTimeout.
        set (m0 := set_timers (delete (w_timer w') (timers m)) m).
        pose proof (send_frame (w_promise w') (w_args w') m0)
          as (_ & Hs1 & Hr1 & _).
        destruct (send _ _ m0) as [m1 o1]. cbn [fst] in Hs1, Hr1.
        destruct (IH m1) as [Hc [id Hw]];
          [now rewrite Hs1 | now rewrite Hr1 | exact Hin | exact Hd |].
        destruct (run_waiters ws m1) as [m2 o2]. cbn [snd] in *. split.
        -- right. rewrite elem_of_app. now right.
        -- exists id. right. rewrite elem_of_app. now right.
Qed.

Lemma on_connect_sends sock m w :
  w ∈ readyWaiters m -> w_done w = false ->
  ClearTimeout (w_timer w) ∈ (on_connect sock m).2
  /\ exists id, SocketWrite sock (w_args w) id ∈ (on_connect sock m).2.
Proof.
  intros Hin Hd. unfold on_connect, emit_ready.
  set (m0 := set_readyWaiters [] _).
  destruct (run_waiters_sends (readyWaiters m) m0 w sock eq_refl eq_refl Hin Hd)
    as [Hc [id Hw]].
  change (readyWaiters (set__recvBuf [] (set_ready true (set_socket (Some sock) m))))
    with (readyWaiters m).
  destruct (run_waiters (readyWaiters m) m0) as [m1 o1]. cbn [snd] in *.
  destruct (observeDefaults m1).
  - destruct (_observeDefaults m1) as [m2 o2]. cbn [snd]. split.
    + right. apply elem_of_app. now left.
    + exists id. right. apply elem_of_app. now left.
  - cbn [snd]. split; [now right | exists id; now right].
Qed.
End WaitingFacts.

Section WaitingClaim.
Import Mpv.
Context `{JsRuntime} (host : Host).

(** C7.  In any state the instance can reach in which it is not
    connected (no socket, or the ready flag off), [command] writes
    nothing: it arms a wait timer of 3000 ms and parks the call.
    Whatever happens next short of a connection (other calls, data,
    errors, other timers), the promise stays unsettled until the wait
    timer fires, and then it is resolved with [null]: it is not
    rejected.  If instead the connection comes first, the wait timer is
    cleared and the command is written to the socket. *)
Theorem command_waits_for_ready
    (pipe : string) (observe : bool) (es : list Event)
    (args : list json) (between : list Event) (sock : nat) :
  let m := (run host (new pipe observe) es).1 in
  connected m = false ->
  let p := nextPromise m in
  let t := nextTimer m in
  let parked := (command args m).1.2 in
  (command args m).1.1 = p
  /\ (command args m).2 = [SetTimeout t 3000]
  /\ timers parked !! t = Some (ReadyWait p)
  /\ (forallb (keeps_waiting t) between = true ->
      let later := (run host parked between).1 in
      (p ∉ settled (run host parked between).2)
      /\ (timer_fires t later).2 = [Resolve p (Some JNull)]
      /\ ClearTimeout t ∈ (on_connect sock later).2
      /\ exists id, SocketWrite sock args id ∈ (on_connect sock later).2).
Proof.
  intros m Hcon p t parked.
  pose proof (reachable_consistent host pipe observe es) as Hc. fold m in Hc.
  pose proof (command_consistent args m _ Hc) as Hp. fold parked in Hp.
  subst parked. rewrite (command_waiting args m Hcon) in *. cbn [fst snd] in *.
  set (w := {| w_promise := p; w_args := args; w_timer := t; w_done := false |}).
  set (parked := set_readyWaiters _ _) in *.
  split; [reflexivity|]. split; [reflexivity|].
  split; [apply lookup_insert_eq|].
  intros Hall. set (later := (run host parked between).1).
  assert (Hw0 : w ∈ readyWaiters parked).
  { simpl. apply elem_of_app. right. left. }
  pose proof (run_keeps_waiter host between parked w Hall Hw0) as Hw.
  fold later in Hw.
  pose proof (run_consistent host between parked _ Hp) as Hl. fold later in Hl.
  split; [|split].
  - intros Hin.
    destruct (inv_live_lt _ _ _ _ _ _ _ Hl p) as [_ Hn].
    + now apply (live_waiter _ _ w).
    + apply Hn. apply elem_of_app. now right.
  - destruct (inv_waiter _ _ _ _ _ _ _ Hl w Hw) as [_ Ht].
    specialize (Ht eq_refl). simpl in Ht.
    pose proof (expiring_single _ w (inv_waiter_timers _ _ _ _ _ _ _ Hl) Hw eq_refl)
      as Hex.
    change (w_timer w) with t in Hex.
    unfold timer_fires. rewrite Ht. cbv zeta. cbn [readyWaiters set_timers].
    rewrite expire_waiter_spec by apply (inv_waiter_timers _ _ _ _ _ _ _ Hl).
    cbn [snd]. now rewrite Hex.
  - now apply (on_connect_sends sock later w).
Qed.
End WaitingClaim.

Section WaitingWitness.
Import Mpv.

Lemma command_waits_for_ready_witness :
  let m := (@run sample_runtime sample_host (new sample_pipe false) []).1 in
  let args := [JStr "get_property"; JStr "duration"] in
  let parked := (command args m).1.2 in
  let between := [CallSpawn (Some 4660) sample_opts; ProcessStderr "starting"] in
  let later := (@run sample_runtime sample_host parked between).1 in
  (command args m).2 = [SetTimeout 0 3000]
  /\ (timer_fires 0 later).2 = [Resolve 0 (Some JNull)]
  /\ exists id, SocketWrite 7 args id ∈ (on_connect 7 later).2.
Proof.
  intros m args parked between later.
  destruct (@command_waits_for_ready sample_runtime sample_host sample_pipe false
              [] args between 7 eq_refl)
    as (_ & Hout & _ & Hlater).
  destruct (Hlater eq_refl) as (_ & Hfire & _ & Hsend).
  split; [exact Hout|]. split; [exact Hfire | exact Hsend].
Defined.
End WaitingWitness.

(** ** The registry of observed properties only grows *)

Section RegistryFacts.
Import Mpv.
Context `{JsRuntime} (host : Host).
Implicit Types (m : MpvProcess).

Lemma quiet_refl m : quiet m m.
Proof. unfold quiet. repeat split; (lia || reflexivity). Qed.

Lemma quiet_trans m1 m2 m3 : quiet m1 m2 -> quiet m2 m3 -> quiet m1 m3.
Proof.
  unfold quiet. intros (? & ? & ?) (? & ? & ?). repeat split; (lia || congruence).
Qed.

Lemma quiet_grows m m' : quiet m m' -> grows m m'.
Proof.
  unfold quiet, grows, registry_ok. intros (Hr & Ho & Hn).
  split; [exact Hr|]. split; [lia|]. rewrite Ho, Hn. now split.
Qed.

Lemma grows_refl m : grows m m.
Proof. apply quiet_grows, quiet_refl. Qed.

Lemma grows_trans m1 m2 m3 : grows m1 m2 -> grows m2 m3 -> grows m1 m3.
Proof.
  unfold grows. intros (? & ? & H12) (? & ? & H23).
  split; [lia|]. split; [lia|]. intros Hok.
  destruct (H12 Hok) as [Hok2 Hsub]. destruct (H23 Hok2) as [Hok3 Hsub'].
  split; [exact Hok3|]. now transitivity (_observedProps m2).
Qed.

Lemma send_quiet p args m : quiet m (send p args m).1.
Proof.
  unfold send, quiet. open_instance m. simpl.
  destruct m_socket; [destruct m_ready|]; simpl; repeat split; (lia || reflexivity).
Qed.

Lemma command_quiet args m : quiet m (command args m).1.2.
Proof.
  destruct (connected m) eqn:Hcon.
  - apply connected_spec in Hcon as (sock & Hs & Hr).
    rewrite (command_connected args m sock Hs Hr). unfold quiet. simpl.
    repeat split; (lia || reflexivity).
  - rewrite (command_waiting args m Hcon). unfold quiet. simpl.
    repeat split; (lia || reflexivity).
Qed.

Lemma run_waiters_quiet ws m : quiet m (run_waiters ws m).1.
Proof.
  revert m. induction ws as [|w ws IH]; intros m; simpl; [apply quiet_refl|].
  destruct (w_done w); [apply IH|].
  pose proof (send_quiet (w_promise w) (w_args w)
                (set_timers (delete (w_timer w) (timers m)) m)) as Hs.
  destruct (send _ _ _) as [m1 o1]. specialize (IH m1).
  destruct (run_waiters ws m1) as [m2 o2]. cbn [fst] in *.
  eapply quiet_trans; [|exact IH]. exact Hs.
Qed.

Lemma handleMessage_quiet msg m : quiet m (_handleMessage msg m).1.
Proof.
  destruct (handleMessage_cases msg m) as [[-> _]|(id & p & _ & -> & _)].
  - apply quiet_refl.
  - unfold quiet. simpl. repeat split; (lia || reflexivity).
Qed.

Lemma dispatch_quiet lines m : quiet m (dispatch lines m).1.
Proof.
  revert m. induction lines as [|line lines IH]; intros m; simpl; [apply quiet_refl|].
  destruct (Codec.blank line); [apply IH|].
  destruct (JSON_parse line) as [msg|]; [|apply IH].
  pose proof (handleMessage_quiet msg m) as Hh.
  destruct (_handleMessage msg m) as [m1 o1]. specialize (IH m1).
  destruct (dispatch lines m1) as [m2 o2]. cbn [fst] in *.
  eapply quiet_trans; [exact Hh | exact IH].
Qed.

Lemma observeDefaults_quiet m : quiet m (_observeDefaults m).1.
Proof.
  unfold _observeDefaults.
  pose proof (command_quiet [JStr "request_log_messages"; JStr "debug"] m) as Hq.
  now destruct (command _ m) as [[q m1] out].
Qed.

Lemma on_connect_quiet sock m : quiet m (on_connect sock m).1.
Proof.
  unfold on_connect, emit_ready.
  set (m0 := set_readyWaiters [] _).
  pose proof (run_waiters_quiet
                (readyWaiters (set__recvBuf [] (set_ready true (set_socket (Some sock) m))))
                m0) as Hw.
  destruct (run_waiters _ m0) as [m1 o1]. cbn [fst] in *.
  assert (Hq : quiet m m1).
  { eapply quiet_trans; [|exact Hw].
    unfold quiet. simpl. repeat split; (lia || reflexivity). }
  destruct (observeDefaults m1); [|exact Hq].
  pose proof (observeDefaults_quiet m1) as Ho.
  destruct (_observeDefaults m1) as [m2 o2]. cbn [fst] in *.
  eapply quiet_trans; [exact Hq | exact Ho].
Qed.

Lemma destroy_quiet m : quiet m (destroy m).1.
Proof.
  rewrite destroy_unfold. cbn [fst].
  assert (Hs : quiet m (destroy_socket m).1).
  { unfold destroy_socket. destruct (socket m); [|apply quiet_refl].
    pose proof (command_quiet [JStr "quit"] m) as Hq.
    now destruct (command _ m) as [[q m0] out]. }
  eapply quiet_trans; [exact Hs|].
  unfold destroy_process, quiet.
  destruct (process _); simpl; repeat split; (lia || reflexivity).
Qed.

Lemma timer_fires_quiet t m : quiet m (timer_fires t m).1.
Proof.
  unfold timer_fires, quiet. destruct (timers m !! t) as [[id p|q|retries]|];
    cbn [fst]; try (simpl; repeat split; (lia || reflexivity)).
  cbv zeta. destruct (expire_waiter _ _) as [ws out].
  simpl; repeat split; (lia || reflexivity).
Qed.

(** [observeProperty] takes the next id, which no registration holds,
    and registers the name under it. *)
Lemma observeProperty_registers name m :
  _observedProps (observeProperty name m).1.2 = <[_nextObsId m := name]> (_observedProps m)
  /\ _nextObsId (observeProperty name m).1.2 = _nextObsId m + 1
  /\ _requestId m <= _requestId (observeProperty name m).1.2.
Proof.
  unfold observeProperty.
  pose proof (command_quiet
                [JStr "observe_property"; JNum (inject_Z (_nextObsId m)); JStr name]
                (set__observedProps (<[_nextObsId m := name]> (_observedProps m))
                   (set__nextObsId (_nextObsId m + 1) m))) as (Hr & Ho & Hn).
  now destruct (command _ _) as [[q m1] out].
Qed.

Lemma registry_fresh m : registry_ok m -> _observedProps m !! _nextObsId m = None.
Proof.
  intros (_ & Hok & _). destruct (_observedProps m !! _nextObsId m) as [name|] eqn:Hl;
    [|reflexivity].
  apply Hok in Hl. lia.
Qed.

Lemma observeProperty_grows name m : grows m (observeProperty name m).1.2.
Proof.
  destruct (observeProperty_registers name m) as (Ho & Hn & Hr).
  split; [exact Hr|]. split; [lia|]. intros Hok.
  pose proof (registry_fresh m Hok) as Hfresh. destruct Hok as (Hone & Hok & Hall).
  unfold registry_ok. rewrite Ho, Hn. split; [split; [lia|split]|].
  - intros id name' Hl. apply lookup_insert_Some in Hl as [[<- _]|[_ Hl]].
    + lia.
    + apply Hok in Hl. lia.
  - intros id Hid. destruct (decide (_nextObsId m = id)) as [<-|Hne].
    + rewrite lookup_insert_eq. now eexists.
    + rewrite lookup_insert_ne by exact Hne. apply Hall. lia.
  - now apply insert_subseteq.
Qed.
End RegistryFacts.

Section RegistryTrace.
Import Mpv.
Context `{JsRuntime} (host : Host).
Implicit Types (m : MpvProcess).

Lemma observe_next_grows props m : grows m (observe_next props m).1.
Proof.
  destruct props as [|name rest]; simpl; [apply grows_refl|].
  pose proof (observeProperty_grows name m) as Hg.
  now destruct (observeProperty name m) as [[q m1] out].
Qed.

Lemma drain_grows l m : grows m (drain l m).1.
Proof.
  revert m. induction l as [|[p fulfilled] l IH]; intros m; simpl;
    [apply grows_refl|].
  destruct (awaits m !! p) as [k|]; [|apply IH].
  set (m0 := set_awaits (delete p (awaits m)) m).
  assert (Hm0 : grows m m0).
  { apply quiet_grows. unfold quiet. simpl. repeat split; (lia || reflexivity). }
  assert (Hk : grows m (resume k fulfilled m0).1).
  { eapply grows_trans; [exact Hm0|]. destruct k as [|rest]; unfold resume.
    - apply (observe_next_grows default_props m0).
    - destruct fulfilled; [apply (observe_next_grows rest m0) | apply grows_refl]. }
  destruct (resume k fulfilled m0) as [m1 o1]. cbn [fst] in *.
  specialize (IH m1). destruct (drain l m1) as [m2 o2]. cbn [fst] in *.
  eapply grows_trans; [exact Hk | exact IH].
Qed.

Lemma handle_grows e m : grows m (handle host e m).1.
Proof.
  destruct e; simpl.
  - apply quiet_grows. unfold spawn, quiet.
    destruct (process m); simpl; repeat split; (lia || reflexivity).
  - pose proof (command_quiet args m) as Hq.
    destruct (command args m) as [[q m1] out]. now apply quiet_grows.
  - pose proof (observeProperty_grows name m) as Hg.
    now destruct (observeProperty name m) as [[q m1] out].
  - pose proof (command_quiet [JStr "loadfile"; JStr path; JStr "replace"]
                  (set_filePath (Some path) m)) as Hq.
    destruct (command _ _) as [[q m1] out]. now apply quiet_grows.
  - apply quiet_grows, destroy_quiet.
  - apply quiet_grows, timer_fires_quiet.
  - destruct (conns m !! sock); [apply quiet_grows, on_connect_quiet | apply grows_refl].
  - destruct (conns m !! sock); [|apply grows_refl]. unfold _onData.
    destruct (Codec.frame _ _) as [lines rest].
    apply quiet_grows. apply (dispatch_quiet lines (set__recvBuf rest m)).
  - destruct (conns m !! sock) as [[|fewer]|]; apply quiet_grows; unfold quiet;
      simpl; repeat split; (lia || reflexivity).
  - destruct (conns m !! sock); apply quiet_grows; unfold quiet;
      simpl; repeat split; (lia || reflexivity).
  - apply grows_refl.
  - apply grows_refl.
  - apply quiet_grows; unfold quiet; simpl; repeat split; (lia || reflexivity).
  - apply quiet_grows; unfold quiet; simpl; repeat split; (lia || reflexivity).
Qed.

Lemma step_grows e m : grows m (step host m e).1.
Proof.
  unfold step. pose proof (handle_grows e m) as Hh.
  destruct (handle host e m) as [m1 o1].
  pose proof (drain_grows (settlements o1) m1) as Hd.
  destruct (drain _ m1) as [m2 o2]. cbn [fst] in *.
  eapply grows_trans; [exact Hh | exact Hd].
Qed.

Lemma run_grows es m : grows m (run host m es).1.
Proof.
  revert m. induction es as [|e es IH]; intros m; simpl; [apply grows_refl|].
  pose proof (step_grows e m) as Hs.
  destruct (step host m e) as [m1 o1]. specialize (IH m1).
  destruct (run host m1 es) as [m2 o2]. cbn [fst] in *.
  eapply grows_trans; [exact Hs | exact IH].
Qed.

Lemma new_registry_ok pipe observe : registry_ok (new pipe observe).
Proof.
  split; [simpl; lia|]. split.
  - intros id name Hl. simpl in Hl. now rewrite lookup_empty in Hl.
  - simpl. intros id Hid. lia.
Qed.

Lemma reachable_registry pipe observe es :
  let m := (run host (new pipe observe) es).1 in
  registry_ok m /\ 0 <= _requestId m.
Proof.
  intros m. destruct (run_grows es (new pipe observe)) as (Hr & _ & Hok).
  split; [apply Hok, new_registry_ok | exact Hr].
Qed.
End RegistryTrace.

(** ** The default observation, request by request *)

Section Bootstrap.
Import Mpv.
Context `{JsRuntime}.
Implicit Types (m : MpvProcess).

Lemma resume_success k m : resume k true m = observe_next (todo k) m.
Proof. now destruct k. Qed.

Lemma response_request_id id e d :
  field "request_id" (response id e d) = Some (JNum (inject_Z id)).
Proof. reflexivity. Qed.

Lemma response_error id e d : field "error" (response id e d) = Some (JStr e).
Proof. reflexivity. Qed.


(** The last reply ends the function. *)
Lemma bootstrap_end sock m k :
  bootstrapping sock k m -> todo k = [] ->
  writes (receive (response (_requestId m) "success" None) m).2 = [].
Proof.
  intros (Hs & Hr & Hpos & pr & Hg & Ha) Htodo. unfold receive.
  rewrite (handleMessage_matching _ m (_requestId m) pr
             (response_request_id _ _ _) Hpos Hg).
  rewrite response_error. cbn [is_success].
  rewrite bool_decide_eq_true_2 by reflexivity.
  change (settlements [ClearTimeout (timer pr); Resolve (promise pr) ?v])
    with [(promise pr, true)].
  cbn [drain awaits set__pending set_timers].
  rewrite Ha, resume_success, Htodo. reflexivity.
Qed.








End Bootstrap.

Section ObservationClaim.
Import Mpv.
Context `{JsRuntime} (host : Host).

End ObservationClaim.

Section ObservationWitness.
Import Mpv.


End ObservationWitness.

(** ** Framing *)

Section Framing.
Import Codec.
Implicit Types (s t : text) (lines : list text).

Lemma split_newline_nonempty s : split_newline s <> [].
Proof.
  destruct s as [|c s]; simpl; [discriminate|].
  destruct (c =? NEWLINE)%N; [discriminate|].
  destruct (split_newline s); discriminate.
Qed.

(** Splitting a text in two parts: the complete lines of the first part,
    then the lines of what the first part left open followed by the
    second part. *)
Lemma split_newline_app s t :
  split_newline (s ++ t)
  = removelast (split_newline s) ++ split_newline (List.last (split_newline s) [] ++ t).
Proof.
  induction s as [|c s IH]; [reflexivity|].
  pose proof (split_newline_nonempty s) as Hne.
  cbn [app split_newline]. destruct (c =? NEWLINE)%N eqn:Hc.
  - rewrite IH. destruct (split_newline s) as [|l ls] eqn:Hs; [done|]. reflexivity.
  - rewrite IH. destruct (split_newline s) as [|l ls] eqn:Hs; [done|].
    destruct ls as [|l2 ls].
    + cbn [removelast List.last app split_newline]. rewrite Hc. reflexivity.
    + reflexivity.
Qed.

Lemma last_app_nonempty (lines more : list text) :
  more <> [] -> List.last (lines ++ more) [] = List.last more [].
Proof.
  intros Hne. induction lines as [|l lines IH]; [reflexivity|].
  cbn [app List.last]. destruct (lines ++ more) eqn:Happ; [|exact IH].
  apply app_eq_nil in Happ as [_ ->]. done.
Qed.

(** Two chunks of text, one after the other, frame as their
    concatenation does. *)
Lemma frame_app recvBuf a b :
  frame recvBuf (a ++ b)
  = ((frame recvBuf a).1 ++ (frame (frame recvBuf a).2 b).1,
     (frame (frame recvBuf a).2 b).2).
Proof.
  unfold frame. cbn [fst snd]. rewrite (assoc_L (++)), split_newline_app.
  pose proof (split_newline_nonempty
                (List.last (split_newline (recvBuf ++ a)) [] ++ b)) as Hne.
  rewrite removelast_app by exact Hne. now rewrite last_app_nonempty by exact Hne.
Qed.

Lemma lines_of_texts_merge recvBuf a b chunks :
  lines_of_texts recvBuf (a :: b :: chunks)
  = lines_of_texts recvBuf ((a ++ b) :: chunks).
Proof.
  cbn [lines_of_texts]. rewrite frame_app.
  destruct (frame recvBuf a) as [l1 r1]. cbn [fst snd].
  destruct (frame r1 b) as [l2 r2]. cbn [fst snd].
  now rewrite List.filter_app, (assoc_L (++)).
Qed.

(** At the level of text, chunk boundaries do not matter. *)
Lemma lines_of_texts_concat recvBuf chunk chunks :
  lines_of_texts recvBuf (chunk :: chunks)
  = lines_of_texts recvBuf [chunk ++ concat chunks].
Proof.
  revert chunk. induction chunks as [|b chunks IH]; intros chunk.
  - cbn [concat]. now rewrite (right_id_L [] (++)).
  - rewrite lines_of_texts_merge, IH. cbn [concat]. now rewrite (assoc_L (++)).
Qed.

(** *** Decoding *)

Lemma utf8_run_app st (a b : list Byte.byte) :
  utf8_run st (a ++ b)
  = match bytes_needed (utf8_after st a) with
    | O => utf8_run st a ++ utf8_run utf8_idle b
    | S _ => removelast (utf8_run st a) ++ utf8_run (utf8_after st a) b
    end.
Proof.
  revert st. induction a as [|x a IH]; intros st.
  - cbn [app utf8_after utf8_run]. destruct (bytes_needed st) eqn:Hn; [|reflexivity].
    destruct b as [|y b]; [cbn; now rewrite Hn|].
    cbn [utf8_run app]. unfold utf8_step. now rewrite Hn.
  - cbn [app utf8_after utf8_run].
    destruct (utf8_step st (Byte.to_N x)) as [out st'] eqn:Hstep. cbn [snd].
    rewrite IH. destruct (bytes_needed (utf8_after st' a)) eqn:Hn.
    + now rewrite (assoc_L (++)).
    + rewrite (assoc_L (++)). f_equal.
      assert (Hne : utf8_run st' a <> []).
      { clear -Hn. revert st' Hn. induction a as [|y a IHa]; intros st' Hn.
        - cbn in *. now rewrite Hn.
        - cbn [utf8_run utf8_after] in *.
          destruct (utf8_step st' (Byte.to_N y)) as [o s2]. cbn [snd] in Hn.
          specialize (IHa s2 Hn). intros Heq. apply app_eq_nil in Heq as [_ Heq].
          done. }
      now rewrite removelast_app.
Qed.

(** A chunk that ends between two characters decodes on its own as it
    does with more bytes behind it. *)
Lemma toString_utf8_app (a b : list Byte.byte) :
  whole a = true -> toString_utf8 (a ++ b) = toString_utf8 a ++ toString_utf8 b.
Proof.
  unfold whole, toString_utf8. intros Hw. rewrite utf8_run_app.
  now destruct (bytes_needed (utf8_after utf8_idle a)).
Qed.

Lemma utf8_after_app st (a b : list Byte.byte) :
  utf8_after st (a ++ b) = utf8_after (utf8_after st a) b.
Proof. revert st. induction a as [|x a IH]; intros st; [reflexivity|apply IH]. Qed.

Lemma utf8_step_idle st b :
  bytes_needed st = O -> utf8_step st b = utf8_step utf8_idle b.
Proof. unfold utf8_step. now intros ->. Qed.

Lemma whole_app (a b : list Byte.byte) :
  whole a = true -> whole b = true -> whole (a ++ b) = true.
Proof.
  unfold whole. rewrite utf8_after_app. intros Ha.
  destruct (bytes_needed (utf8_after utf8_idle a)) eqn:Hn; [|discriminate].
  destruct b as [|y b]; [cbn; now rewrite Hn|].
  cbn [utf8_after]. now rewrite (utf8_step_idle _ _ Hn).
Qed.

Lemma toString_utf8_concat (chunks : list (list Byte.byte)) :
  Forall (fun chunk => whole chunk = true) chunks ->
  whole (concat chunks) = true
  /\ toString_utf8 (concat chunks) = concat (toString_utf8 <$> chunks).
Proof.
  induction 1 as [|chunk chunks Hw _ [IHw IH]]; [now split|].
  cbn [concat fmap list_fmap]. split; [now apply whole_app|].
  rewrite toString_utf8_app by exact Hw. now rewrite IH.
Qed.

(** Byte chunks that are cut between characters frame as their
    concatenation does. *)
Lemma lines_of_chunks_concat recvBuf chunk (chunks : list (list Byte.byte)) :
  Forall (fun chunk => whole chunk = true) (chunk :: chunks) ->
  lines_of_chunks recvBuf (chunk :: chunks)
  = lines_of_chunks recvBuf [concat (chunk :: chunks)].
Proof.
  intros Hall. unfold lines_of_chunks. cbn [fmap list_fmap].
  rewrite lines_of_texts_concat.
  destruct (toString_utf8_concat _ Hall) as [_ Heq]. rewrite Heq.
  reflexivity.
Qed.
End Framing.

(** ** The receive path *)

Section ReceivePath.
Import Mpv.
Context `{JsRuntime}.
Implicit Types (m : MpvProcess).

Lemma handleMessage_recvBuf rest msg m :
  _handleMessage msg (set__recvBuf rest m)
  = (set__recvBuf rest (_handleMessage msg m).1, (_handleMessage msg m).2).
Proof.
  open_instance m. unfold _handleMessage, clearTimeout.
  destruct msg as [| | | | |fs]; try reflexivity.
  unfold field. cbn [_pending set__recvBuf].
  destruct (lookup_field "request_id" fs) as [v|].
  - destruct (gt_zero v).
    + destruct (as_key v) as [id|]; [|reflexivity].
      destruct (JsMap.get id m_pending) as [p|]; [|reflexivity].
      cbn. now destruct (is_success _).
    + now destruct (truthy _).
  - now destruct (truthy _).
Qed.

Lemma dispatch_recvBuf rest lines m :
  dispatch lines (set__recvBuf rest m)
  = (set__recvBuf rest (dispatch lines m).1, (dispatch lines m).2).
Proof.
  revert m. induction lines as [|line lines IH]; intros m; cbn [dispatch];
    [reflexivity|].
  destruct (Codec.blank line); [apply IH|].
  destruct (JSON_parse line) as [msg|]; [|apply IH].
  rewrite handleMessage_recvBuf. destruct (_handleMessage msg m) as [m1 o1].
  cbn [fst snd]. rewrite IH. now destruct (dispatch lines m1).
Qed.

(** The loop goes through the lines one after the other. *)
Lemma dispatch_app lines more m :
  dispatch (lines ++ more) m
  = (let '(m1, out) := dispatch lines m in
     let '(m2, rest) := dispatch more m1 in
     (m2, out ++ rest)).
Proof.
  revert m. induction lines as [|line lines IH]; intros m; cbn [app dispatch].
  - now destruct (dispatch more m).
  - destruct (Codec.blank line); [apply IH|].
    destruct (JSON_parse line) as [msg|]; [|apply IH].
    destruct (_handleMessage msg m) as [m1 o1]. rewrite IH.
    destruct (dispatch lines m1) as [m2 o2]. destruct (dispatch more m2) as [m3 o3].
    now rewrite (assoc_L (++)).
Qed.

(** A line [JSON.parse] refuses is passed over: the lines before it and
    after it are dispatched as if it were not there. *)
Lemma dispatch_malformed lines bad more m :
  JSON_parse bad = None ->
  dispatch (lines ++ bad :: more) m = dispatch (lines ++ more) m.
Proof.
  intros Hbad. rewrite !dispatch_app. destruct (dispatch lines m) as [m1 o1].
  cbn [dispatch]. rewrite Hbad. now destruct (Codec.blank bad).
Qed.

Lemma dispatch_filter lines m :
  dispatch (List.filter (fun l => negb (Codec.blank l)) lines) m = dispatch lines m.
Proof.
  revert m. induction lines as [|line lines IH]; intros m; [reflexivity|].
  cbn [List.filter dispatch]. destruct (Codec.blank line) eqn:Hb; cbn [negb];
    [apply IH|].
  cbn [dispatch]. rewrite Hb. destruct (JSON_parse line) as [msg|]; [|apply IH].
  destruct (_handleMessage msg m) as [m1 o1]. now rewrite IH.
Qed.

Lemma set_recvBuf_twice a b m : set__recvBuf a (set__recvBuf b m) = set__recvBuf a m.
Proof. now open_instance m. Qed.

Lemma set_recvBuf_same m : set__recvBuf (_recvBuf m) m = m.
Proof. now open_instance m. Qed.

Lemma dispatch_keeps_recvBuf lines m : _recvBuf (dispatch lines m).1 = _recvBuf m.
Proof.
  rewrite <- (set_recvBuf_same m) at 1. rewrite dispatch_recvBuf. cbn [fst].
  now destruct (dispatch lines m).1.
Qed.

(** Chunk after chunk, [_onData] dispatches the lines of
    [lines_of_chunks] and keeps the rest of [rest_of_chunks]. *)
Lemma onData_all_dispatch chunks m :
  onData_all chunks m
  = (set__recvBuf (Codec.rest_of_chunks (_recvBuf m) chunks)
       (dispatch (Codec.lines_of_chunks (_recvBuf m) chunks) m).1,
     (dispatch (Codec.lines_of_chunks (_recvBuf m) chunks) m).2).
Proof.
  unfold Codec.rest_of_chunks, Codec.lines_of_chunks.
  revert m. induction chunks as [|chunk chunks IH]; intros m.
  - cbn. now rewrite set_recvBuf_same.
  - cbn [onData_all fmap list_fmap Codec.lines_of_texts Codec.rest_of_texts].
    unfold _onData.
    destruct (Codec.frame (_recvBuf m) (Codec.toString_utf8 chunk)) as [lines rest].
    cbn [snd]. rewrite dispatch_app, dispatch_filter, dispatch_recvBuf.
    destruct (dispatch lines m) as [m1 o1]. cbn [fst snd]. rewrite IH.
    assert (Hbuf : _recvBuf (set__recvBuf rest m1) = rest) by now open_instance m1.
    rewrite Hbuf, dispatch_recvBuf.
    destruct (dispatch _ m1) as [m2 o2]. cbn [fst snd].
    now rewrite set_recvBuf_twice.
Qed.
End ReceivePath.

Section WholeChunks.
Import Mpv.
Context `{JsRuntime}.

(** Chunks that are cut between characters are dispatched, and leave
    the instance, as their concatenation in one chunk does. *)
Lemma onData_all_whole_chunks chunk chunks (m : MpvProcess) :
  Forall (fun chunk => Codec.whole chunk = true) (chunk :: chunks) ->
  onData_all (chunk :: chunks) m = onData_all [concat (chunk :: chunks)] m.
Proof.
  intros Hall. rewrite !onData_all_dispatch.
  rewrite (lines_of_chunks_concat (_recvBuf m) chunk chunks Hall).
  f_equal. f_equal. unfold Codec.rest_of_chunks.
  destruct (toString_utf8_concat _ Hall) as [_ Heq].
  cbn [fmap list_fmap]. rewrite Heq. clear. cbn [fmap list_fmap concat].
  generalize (Codec.toString_utf8 chunk) as a.
  generalize (Codec.toString_utf8 <$> chunks) as texts. generalize (_recvBuf m).
  intros buf texts. revert buf. induction texts as [|b texts IH]; intros buf a.
  - cbn [concat]. now rewrite (right_id_L [] (++)).
  - cbn [Codec.rest_of_texts concat] in *. rewrite (assoc_L (++)), <- IH.
    now rewrite frame_app.
Qed.
End WholeChunks.

Section ChunkingClaim.
Import Mpv.
Context `{JsRuntime}.

(** C2, at a frame cut inside a character.  mpv writes the title with
    its e acute as the bytes 0xC3 0xA9.  Received in one chunk, the frame
    reaches [JSON.parse] as mpv wrote it.  Received in two chunks, the
    first ending after 0xC3 and the second starting at 0xA9, each chunk
    is decoded on its own, each of the two bytes comes out as U+FFFD, and
    the line that reaches [JSON.parse] is another one: the title
    dispatched is not the title sent. *)
Theorem onData_cuts_character (m : MpvProcess) :
  let m0 := set__recvBuf [] m in
  Codec.lines_of_chunks [] [Codec.sample_frame_head ++ Codec.sample_frame_tail]
  = [Codec.sample_line]
  /\ Codec.lines_of_chunks [] [Codec.sample_frame_head; Codec.sample_frame_tail]
     = [Codec.sample_line_broken]
  /\ Codec.sample_line <> Codec.sample_line_broken
  /\ onData_all [Codec.sample_frame_head ++ Codec.sample_frame_tail] m0
     = dispatch [Codec.sample_line] m0
  /\ onData_all [Codec.sample_frame_head; Codec.sample_frame_tail] m0
     = dispatch [Codec.sample_line_broken] m0.
Proof.
  intros m0.
  assert (Hone : Codec.lines_of_chunks []
                   [Codec.sample_frame_head ++ Codec.sample_frame_tail]
                 = [Codec.sample_line]) by (vm_compute; reflexivity).
  assert (Htwo : Codec.lines_of_chunks []
                   [Codec.sample_frame_head; Codec.sample_frame_tail]
                 = [Codec.sample_line_broken]) by (vm_compute; reflexivity).
  assert (Hbuf : _recvBuf m0 = []) by (unfold m0; now open_instance m).
  assert (Hsame : forall lines, set__recvBuf [] (dispatch lines m0).1
                                = (dispatch lines m0).1).
  { intros lines. rewrite <- (set_recvBuf_same (dispatch lines m0).1) at 2.
    now rewrite dispatch_keeps_recvBuf, Hbuf. }
  split; [exact Hone|]. split; [exact Htwo|]. split.
  { intros Heq. apply (f_equal length) in Heq. vm_compute in Heq. discriminate. }
  split.
  - rewrite onData_all_dispatch, Hbuf, Hone.
    replace (Codec.rest_of_chunks [] _) with (@nil N) by (vm_compute; reflexivity).
    rewrite Hsame. now destruct (dispatch _ m0).
  - rewrite onData_all_dispatch, Hbuf, Htwo.
    replace (Codec.rest_of_chunks [] _) with (@nil N) by (vm_compute; reflexivity).
    rewrite Hsame. now destruct (dispatch _ m0).
Qed.
End ChunkingClaim.

(* ================================================================== *)
(** * Part III: more of the code *)
(* ================================================================== *)

(** ** The thumbnail module: serialised captures and the debounce *)

Section ThumbnailSchedule.
Import Thumbnails.
Implicit Types (t : HybridThumbnails) (e : Event) (r : CaptureRequest).

Lemma new_coherent img : coherent (new img).
Proof.
  split; [reflexivity|]. split.
  - intros [r Hr]. discriminate.
  - intros r Hr. discriminate.
Qed.

Lemma step_coherent e t : coherent t -> coherent (step t e).1.
Proof.
  unfold coherent.
  destruct t as [img timer last pend tok queued inf]. cbn [_pending inflight
    _queuedCapture _debounceTimer _lastRequestedTime _requestToken].
  intros (Hp & Hq & Ht). destruct e; cbn [step].
  - unfold generatePreview. cbn.
    destruct (_ || _)%bool; cbn; [now repeat split|].
    destruct (unchanged_time _ _); cbn; [now repeat split|].
    split; [exact Hp|]. split; [exact Hq|]. now intros r [= <-].
  - unfold debounce_fires, _capture. cbn. destruct timer as [r|]; cbn;
      [|now repeat split].
    destruct pend; cbn.
    + split; [exact Hp|]. split; [reflexivity|]. intros r' Hr'. discriminate.
    + split; [reflexivity|]. split; [reflexivity|]. intros r' Hr'. discriminate.
  - unfold capture_settles, _capture. cbn. destruct inf as [c|]; cbn;
      [|now repeat split].
    destruct queued as [q|]; cbn.
    + destruct (bool_decide (cr_token q = tok)); cbn.
      * split; [reflexivity|]. split; [intros [x Hx]; discriminate | exact Ht].
      * split; [reflexivity|]. split; [intros [x Hx]; discriminate | exact Ht].
    + split; [reflexivity|]. split; [intros [x Hx]; discriminate | exact Ht].
  - cbn. split; [exact Hp|]. split; [intros [x Hx]; discriminate|].
    intros r Hr. discriminate.
  - cbn. split; [exact Hp|]. split; [intros [x Hx]; discriminate|].
    intros r Hr. discriminate.
Qed.

Lemma run_coherent es t : coherent t -> coherent (run t es).1.
Proof.
  revert t. induction es as [|e es IH]; intros t Hc; cbn [run]; [exact Hc|].
  pose proof (step_coherent e t Hc) as Hs.
  destruct (step t e) as [t1 o1]. specialize (IH t1 Hs).
  now destruct (run t1 es) as [t2 o2].
Qed.

(** A step starts a capture only by taking the busy flag, and drops the
    flag only when a capture settles. *)
Lemma step_serial e t :
  (length (step t e).2 + busy t
   <= busy (step t e).1 + (if is_settle e then 1 else 0))%nat.
Proof.
  unfold busy.
  destruct t as [img timer last pend tok queued inf]. destruct e; cbn [step is_settle].
  - unfold generatePreview. cbn.
    destruct (_ || _)%bool; cbn; [lia|]. destruct (unchanged_time _ _); cbn; lia.
  - unfold debounce_fires, _capture. cbn. destruct timer, pend; cbn; lia.
  - unfold capture_settles, _capture. cbn.
    destruct inf as [c|]; cbn; [|destruct pend; lia].
    destruct queued as [q|]; cbn; [destruct (bool_decide (cr_token q = tok)); cbn|];
      destruct pend; cbn; lia.
  - cbn. lia.
  - cbn. lia.
Qed.

Lemma run_serial es t :
  (length (run t es).2 + busy t
   <= busy (run t es).1 + length (filter (fun e => is_settle e = true) es))%nat.
Proof.
  revert t. induction es as [|e es IH]; intros t; cbn [run]; [cbn; lia|].
  pose proof (step_serial e t) as Hs.
  destruct (step t e) as [t1 o1]. specialize (IH t1).
  destruct (run t1 es) as [t2 o2]. cbn [fst snd] in *.
  rewrite length_app, filter_cons. destruct (is_settle e).
  - rewrite decide_True by reflexivity. cbn [length]. lia.
  - rewrite decide_False by discriminate. lia.
Qed.

(** Captures go one at a time.  Over any history of the module, the
    captures started are at most the completions seen plus the one in
    flight, if there is one; and the busy flag is up exactly while a
    capture is in flight. *)
Theorem captures_one_at_a_time (img : option string) (es : list Event) :
  let t := (run (new img) es).1 in
  let started := length (run (new img) es).2 in
  let completed := length (filter (fun e => is_settle e = true) es) in
  (started <= completed + busy t)%nat
  /\ (_pending t = true <-> is_Some (inflight t))
  /\ (is_Some (_queuedCapture t) -> is_Some (inflight t)).
Proof.
  intros t started completed.
  pose proof (run_serial es (new img)) as Hs. fold t started completed in Hs.
  destruct (run_coherent es (new img) (new_coherent img)) as (Hp & Hq & _).
  fold t in Hp, Hq.
  assert (Hiff : _pending t = true <-> is_Some (inflight t)).
  { rewrite Hp. apply bool_decide_eq_true. }
  split; [cbn in Hs; lia|]. split; [exact Hiff|].
  intros Hqueued. apply Hiff, Hq, Hqueued.
Qed.

Lemma captures_one_at_a_time_witness :
  is_Some (inflight
             (run (new (Some EmptyString))
                [GeneratePreview (Double.of_Z 10) true; DebounceFires;
                 GeneratePreview (Double.of_Z 20) true; DebounceFires]).1).
Proof.
  destruct (captures_one_at_a_time (Some EmptyString)
              [GeneratePreview (Double.of_Z 10) true; DebounceFires;
               GeneratePreview (Double.of_Z 20) true; DebounceFires])
    as (_ & _ & Hqueued).
  apply Hqueued. now eexists.
Defined.

Lemma burst_silent burst t :
  forallb is_generate burst = true -> (run t burst).2 = [].
Proof.
  revert t. induction burst as [|e burst IH]; intros t; cbn [run forallb];
    [reflexivity|].
  rewrite andb_true_iff. intros [He Hb]. destruct e; try discriminate. cbn [step].
  pose proof (generatePreview_waiting time duration t) as [Hout _].
  destruct (generatePreview time duration t) as [t1 o1]. cbn [snd] in Hout. subst o1.
  specialize (IH t1 Hb). destruct (run t1 burst) as [t2 o2]. cbn [snd] in *.
  now subst o2.
Qed.

(** The debounce.  However many calls of [generatePreview] come in a
    row, none of them starts a capture.  When the timer then fires, at
    most one capture starts, and it is for the time of the last call
    that was accepted; it does start if a timer is armed and no capture
    is in flight. *)
Theorem debounce_captures_latest
    (img : option string) (es burst : list Event) :
  let t := (run (new img) (es ++ burst)).1 in
  forallb is_generate burst = true ->
  (run (run (new img) es).1 burst).2 = []
  /\ ((debounce_fires t).2 = []
       \/ (debounce_fires t).2 = [CaptureThumbnail (_lastRequestedTime t)])
  /\ (is_Some (_debounceTimer t) -> _pending t = false ->
       (debounce_fires t).2 = [CaptureThumbnail (_lastRequestedTime t)]).
Proof.
  intros t Hb. split; [now apply burst_silent|].
  destruct (run_coherent (es ++ burst) (new img) (new_coherent img)) as (_ & _ & Ht).
  fold t in Ht. unfold debounce_fires, _capture.
  destruct (_debounceTimer t) as [r|] eqn:Htimer.
  - rewrite (Ht r eq_refl). cbn. split.
    + destruct (_pending t); [now left | now right].
    + intros _ ->. reflexivity.
  - split; [now left|]. intros [x Hx]. discriminate.
Qed.

Lemma debounce_captures_latest_witness :
  (debounce_fires
     (run (new (Some EmptyString))
        ([GeneratePreview (Double.of_Z 3) true]
           ++ [GeneratePreview (Double.of_Z 10) true; GeneratePreview (Double.of_Z 20) true])).1).2
  = [CaptureThumbnail (Double.of_Z 20)].
Proof.
  destruct (debounce_captures_latest (Some EmptyString)
              [GeneratePreview (Double.of_Z 3) true]
              [GeneratePreview (Double.of_Z 10) true; GeneratePreview (Double.of_Z 20) true]
              eq_refl) as (_ & _ & Hfire).
  apply Hfire; [now eexists | reflexivity].
Defined.

(** A request that comes while a capture is in flight is not lost: when
    its timer fires it is queued, and the completion of the capture in
    flight, whatever its result, starts the queued capture, for the
    time last requested. *)
Theorem queued_capture_follows
    (img : option string) (es : list Event) (result : CaptureResult) :
  let t := (run (new img) es).1 in
  is_Some (inflight t) -> is_Some (_debounceTimer t) ->
  (step t DebounceFires).2 = []
  /\ (run t [DebounceFires; CaptureSettles result]).2
     = [CaptureThumbnail (_lastRequestedTime t)].
Proof.
  intros t [c Hc] [r Hr].
  destruct (run_coherent es (new img) (new_coherent img)) as (Hp & _ & Ht).
  fold t in Hp, Ht. specialize (Ht r Hr). rewrite Hc in Hp.
  change (bool_decide (is_Some (Some c))) with true in Hp.
  destruct t as [img' timer last pend tok queued inf]. cbn in *.
  subst timer inf pend r. unfold debounce_fires, capture_settles, _capture. cbn.
  rewrite bool_decide_eq_true_2 by reflexivity. now split.
Qed.

Lemma queued_capture_follows_witness :
  (run (run (new (Some EmptyString))
          [GeneratePreview (Double.of_Z 10) true; DebounceFires;
           GeneratePreview (Double.of_Z 20) true]).1
     [DebounceFires; CaptureSettles (Thrown "capture failed")]).2
  = [CaptureThumbnail (Double.of_Z 20)].
Proof.
  destruct (queued_capture_follows (Some EmptyString)
              [GeneratePreview (Double.of_Z 10) true; DebounceFires;
               GeneratePreview (Double.of_Z 20) true]
              (Thrown "capture failed")) as [_ Hrun].
  - now eexists.
  - now eexists.
  - exact Hrun.
Defined.

(** [destroy] and [cancelPending] stop the module: after either, as
    long as [generatePreview] is not called again, no capture starts,
    whatever timers fire and captures complete. *)
Theorem no_capture_after_stop (t : HybridThumbnails) (es : list Event) :
  forallb (fun e => negb (is_generate e)) es = true ->
  (run (destroy t) es).2 = [] /\ (run (cancelPending t) es).2 = [].
Proof.
  intros Hes.
  pose proof (run_spends es (destroy t) Hes) as Hd.
  pose proof (run_spends es (cancelPending t) Hes) as Hc.
  change (waiting (destroy t)) with 0%nat in Hd.
  change (waiting (cancelPending t)) with 0%nat in Hc.
  split.
  - destruct (run (destroy t) es).2; [reflexivity | cbn in Hd; lia].
  - destruct (run (cancelPending t) es).2; [reflexivity | cbn in Hc; lia].
Qed.

Lemma no_capture_after_stop_witness :
  (run (destroy (run (new (Some EmptyString))
                   [GeneratePreview (Double.of_Z 10) true]).1)
     [DebounceFires; CaptureSettles (Returned None); DebounceFires]).2 = [].
Proof.
  destruct (no_capture_after_stop
              (run (new (Some EmptyString)) [GeneratePreview (Double.of_Z 10) true]).1
              [DebounceFires; CaptureSettles (Returned None); DebounceFires]
              eq_refl) as [Hd _].
  exact Hd.
Defined.

Lemma step_no_image e t :
  imgEl t = None -> waiting t = 0%nat ->
  imgEl (step t e).1 = None /\ waiting (step t e).1 = 0%nat.
Proof.
  unfold waiting.
  destruct t as [img timer last pend tok queued inf]. cbn. intros ->.
  destruct timer, queued; cbn; try lia. intros _.
  destruct e; cbn [step].
  - unfold generatePreview. cbn [imgEl].
    rewrite bool_decide_eq_false_2 by (intros [x Hx]; discriminate).
    cbn. now split.
  - unfold debounce_fires. cbn. now split.
  - unfold capture_settles, deliver. cbn. destruct inf; cbn; [|now split].
    split; [|reflexivity]. destruct result as [[[|ch url]|]|]; [| | |reflexivity];
      now destruct (negb _).
  - cbn. now split.
  - cbn. now split.
Qed.

(** Without the hover image in the page the module stays idle: no
    capture is ever started. *)
Theorem no_image_no_capture (es : list Event) : (run (new None) es).2 = [].
Proof.
  assert (Hgen : forall es t, imgEl t = None -> waiting t = 0%nat ->
                              (run t es).2 = []).
  { clear es. induction es as [|e es IH]; intros t Hi Hw; cbn [run]; [reflexivity|].
    destruct (step_no_image e t Hi Hw) as [Hi1 Hw1].
    assert (Hout : (step t e).2 = []).
    { destruct (is_generate e) eqn:Hg.
      - destruct e; try discriminate. cbn [step].
        apply generatePreview_waiting.
      - pose proof (step_spends e t Hg) as Hs.
        destruct (step t e).2; [reflexivity | cbn in Hs; lia]. }
    destruct (step t e) as [t1 o1]. cbn [fst snd] in *. subst o1.
    specialize (IH t1 Hi1 Hw1). destruct (run t1 es) as [t2 o2].
    cbn [snd] in *. now subst o2. }
  now apply Hgen.
Qed.
End ThumbnailSchedule.

(** ** The bridge: rounding, the cache across requests, readiness *)

Section PreviewTime.
Import Bridge.

Lemma safeTime_nonneg time0 : (0 <= safeTime time0)%Q.
Proof.
  unfold safeTime. destruct time0 as [q|].
  - destruct (Qle_bool 0 q) eqn:Hq; [now apply Qle_bool_iff | lra].
  - destruct (Qle_bool 0 0); lra.
Qed.

(** The time a preview is made for.  The requested time is first
    clamped at zero (a time that is not a number counts as zero) and
    then rounded to a whole number of half seconds: the result is not
    negative, is twice a whole number away from zero, and lies within a
    quarter of a second of the clamped time; a time that is a whole
    number of half seconds already is kept. *)
Theorem preview_time_rounding (time0 : option Q) (q : Q) (k : Z) :
  (0 <= safeTime time0)%Q
  /\ (time0 = Some q -> (0 <= q)%Q -> safeTime time0 = q)
  /\ (time0 = Some q -> (q < 0)%Q -> safeTime time0 = 0%Q)
  /\ 0 <= rounded_halves time0
  /\ (rounded time0 * 2 == inject_Z (rounded_halves time0))%Q
  /\ (Qabs (rounded time0 - safeTime time0) <= 1 # 4)%Q
  /\ (0 <= k -> rounded_halves (Some (inject_Z k / 2)%Q) = k).
Proof.
  pose proof (safeTime_nonneg time0) as Hs.
  split; [exact Hs|]. split; [|split; [|split; [|split; [|split]]]].
  - intros -> Hq. unfold safeTime.
    now rewrite (proj2 (Qle_bool_iff 0 q) Hq).
  - intros -> Hq. unfold safeTime.
    destruct (Qle_bool 0 q) eqn:Hle; [|reflexivity].
    apply Qle_bool_iff in Hle. lra.
  - unfold rounded_halves, Math_round.
    change 0 with (Qfloor 0). apply Qfloor_resp_le. lra.
  - unfold rounded. field.
  - unfold rounded, rounded_halves, Math_round.
    set (s := safeTime time0) in *.
    pose proof (Qfloor_le (s * 2 + (1 # 2))) as Hlo.
    pose proof (Qlt_floor (s * 2 + (1 # 2))) as Hhi.
    rewrite inject_Z_plus in Hhi. change (inject_Z 1) with 1%Q in Hhi.
    generalize dependent (inject_Z (Qfloor (s * 2 + (1 # 2)))). intros x Hlo Hhi.
    clearbody s. unfold Qdiv. change (/ 2)%Q with (1 # 2)%Q.
    apply Qabs_case; intros _; lra.
  - intros Hk. unfold rounded_halves, Math_round, safeTime.
    assert (Hpos : (0 <= inject_Z k / 2)%Q).
    { unfold Qdiv. change (/ 2)%Q with (1 # 2)%Q.
      assert (0 <= inject_Z k)%Q by (unfold Qle; cbn; lia). lra. }
    rewrite (proj2 (Qle_bool_iff 0 _) Hpos).
    assert (Heq : (inject_Z k / 2 * 2 + (1 # 2) == inject_Z k + (1 # 2))%Q) by field.
    rewrite Heq.
    assert (Hlo : (inject_Z k <= inject_Z k + (1 # 2))%Q) by lra.
    assert (Hhi : (inject_Z k + (1 # 2) < inject_Z (k + 1))%Q).
    { rewrite inject_Z_plus. change (inject_Z 1) with 1%Q. lra. }
    apply Qfloor_resp_le in Hlo. rewrite Qfloor_Z in Hlo.
    apply Qlt_le_weak, Qfloor_resp_le in Hhi as Hhi'. rewrite Qfloor_Z in Hhi'.
    destruct (Z.eq_dec (Qfloor (inject_Z k + (1 # 2))) (k + 1)) as [Heq1|Hne]; [|lia].
    pose proof (Qfloor_le (inject_Z k + (1 # 2))) as Hfl. rewrite Heq1 in Hfl.
    rewrite inject_Z_plus in Hfl. change (inject_Z 1) with 1%Q in Hfl. lra.
Qed.

Lemma preview_time_rounding_witness :
  safeTime (Some (7 # 5)) = (7 # 5)%Q
  /\ safeTime (Some (-(3 # 1))%Q) = 0%Q
  /\ rounded_halves (Some (inject_Z 3 / 2)%Q) = 3.
Proof.
  destruct (preview_time_rounding (Some (7 # 5)) (7 # 5) 3)
    as (_ & Hkeep & _ & _ & _ & _ & Hhalf).
  destruct (preview_time_rounding (Some (-(3 # 1))%Q) (-(3 # 1))%Q 3)
    as (_ & _ & Hclamp & _).
  split; [apply Hkeep; [reflexivity | unfold Qle; cbn; lia]|].
  split; [apply Hclamp; [reflexivity | reflexivity]|].
  apply Hhalf. lia.
Defined.
End PreviewTime.

Section CaptureOutcome.
Import Bridge.
Implicit Types (c : Cache) (key : CacheKey) (st : BridgeState).

(** A new key is not the one an insertion drops. *)
Lemma get_cacheSet_fresh key value c :
  JsMap.get key c = None -> JsMap.get key (cacheSet key value c) = Some value.
Proof.
  intros Hg. destruct c as [|[k0 v0] r].
  - apply get_set_eq.
  - unfold cacheSet.
    destruct (180 <? JsMap.size (JsMap.set key value ((k0, v0) :: r)));
      [|apply get_set_eq].
    rewrite first_key_set. cbn [JsMap.first_key].
    assert (Hne : key <> k0).
    { intros ->. cbn in Hg. now rewrite decide_True in Hg. }
    rewrite get_delete_ne by (intros Heq; now apply Hne). apply get_set_eq.
Qed.

(** What the queued task leaves behind: a payload it returns is the
    one it has just put into the cache; when it throws the cache is as
    it was.  It never returns [null]. *)
Lemma capture_task_outcome env mediaPath time0 st :
  JsMap.get (mediaPath, rounded_halves time0) (previewCache st) = None ->
  match (capture_task env mediaPath time0 st).1.2 with
  | Returned (Some p) =>
      previewCache (capture_task env mediaPath time0 st).1.1
      = cacheSet (mediaPath, rounded_halves time0) p (previewCache st)
  | Returned None => False
  | Thrown _ =>
      previewCache (capture_task env mediaPath time0 st).1.1 = previewCache st
  end.
Proof.
  intros Hg. unfold capture_task. cbv zeta. rewrite Hg.
  destruct (preview_ready env); cbn [negb]; [|reflexivity].
  destruct (decide (previewLoadedPath st = Some mediaPath)).
  - destruct (seek_result env); [|reflexivity].
    destruct (thumb_exists env); [|destruct (shot_result env); [|reflexivity]];
      (destruct (thumb_base64 env); reflexivity).
  - destruct (load_result env); [|reflexivity].
    destruct (pause_result env); [|reflexivity].
    destruct (seek_result env); [|reflexivity].
    destruct (thumb_exists env); [|destruct (shot_result env); [|reflexivity]];
      (destruct (thumb_base64 env); reflexivity).
Qed.

(** The handler's result against the cache. *)
Lemma capture_thumbnail_outcome env mpv time0 st :
  let r := capture_thumbnail env mpv time0 st in
  match r.1.2 with
  | Returned (Some p) =>
      exists key, request_key mpv time0 = Some key
                  /\ JsMap.get key (previewCache r.1.1) = Some p
  | _ => previewCache r.1.1 = previewCache st
  end.
Proof.
  unfold capture_thumbnail, withReady, capture_action, request_key.
  destruct (main_ready mpv); [|reflexivity].
  destruct (truthy_path (main_filePath mpv)) as [mediaPath|]; [|reflexivity].
  destruct (JsMap.get (mediaPath, rounded_halves time0) (previewCache st))
    as [cached|] eqn:Hg.
  - cbn. now exists (mediaPath, rounded_halves time0).
  - pose proof (capture_task_outcome env mediaPath time0 st Hg) as Hout.
    destruct (capture_task env mediaPath time0 st) as [[st' [[p|]|e]] cmds];
      cbn [fst snd] in *.
    + exists (mediaPath, rounded_halves time0). split; [reflexivity|].
      rewrite Hout. now apply get_cacheSet_fresh.
    + destruct Hout.
    + now destruct (transient e).
Qed.
End CaptureOutcome.

Section CaptureAcrossRequests.
Import Bridge.
Implicit Types (st : BridgeState).

(** A payload the handler returns is in the cache under the key of
    the request when the handler is done, so the same request, asked
    again, is answered with the same payload from the cache, with no
    command to the preview engine and no change to the bridge. *)
Theorem captured_payload_is_cached
    (env env' : TaskEnv) (mpv : MainEngine) (time0 : option Q)
    (st : BridgeState) (p : Payload) :
  (capture_thumbnail env mpv time0 st).1.2 = Returned (Some p) ->
  let st' := (capture_thumbnail env mpv time0 st).1.1 in
  (exists key, request_key mpv time0 = Some key
               /\ JsMap.get key (previewCache st') = Some p)
  /\ capture_thumbnail env' mpv time0 st' = (st', Returned (Some p), []).
Proof.
  intros Hres st'.
  pose proof (capture_thumbnail_outcome env mpv time0 st) as Hout.
  cbv zeta in Hout. rewrite Hres in Hout. fold st' in Hout.
  destruct Hout as (key & Hkey & Hget).
  split; [now exists key|]. now apply (capture_thumbnail_hit env' mpv time0 st' key).
Qed.

Lemma captured_payload_is_cached_witness :
  let first := capture_thumbnail sample_env sample_engine (Some (7 # 5)) initial in
  capture_thumbnail sample_env sample_engine (Some (7 # 5)) first.1.1
  = (first.1.1, Returned (Some {| dataUrl := "data:image/jpeg;base64,AAAA";
                                  time := rounded (Some (7 # 5)) |}), []).
Proof.
  intros first.
  destruct (captured_payload_is_cached sample_env sample_env sample_engine
              (Some (7 # 5)) initial
              {| dataUrl := "data:image/jpeg;base64,AAAA";
                 time := rounded (Some (7 # 5)) |} eq_refl) as [_ Hhit].
  exact Hhit.
Defined.

(** The cache changes only when a payload is returned: a request
    answered with [null], or one that ends in an error, leaves every
    entry, and the order of the entries, as they were. *)
Theorem failed_capture_caches_nothing
    (env : TaskEnv) (mpv : MainEngine) (time0 : option Q) (st : BridgeState) :
  (forall p, (capture_thumbnail env mpv time0 st).1.2 <> Returned (Some p)) ->
  previewCache (capture_thumbnail env mpv time0 st).1.1 = previewCache st.
Proof.
  intros Hnone.
  pose proof (capture_thumbnail_outcome env mpv time0 st) as Hout. cbv zeta in Hout.
  destruct (capture_thumbnail env mpv time0 st).1.2 as [[p|]|e] eqn:Hres;
    [|exact Hout|exact Hout].
  now destruct (Hnone p).
Qed.

Lemma failed_capture_caches_nothing_witness :
  let env := {| preview_has_process := true; preview_ready := true;
                load_result := Returned tt; pause_result := Returned tt;
                seek_result := Thrown "mpv command timed out";
                thumb_exists := false; shot_result := Returned tt;
                thumb_base64 := Returned "AAAA" |} in
  previewCache (capture_thumbnail env sample_engine (Some (7 # 5)) initial).1.1
  = JsMap.empty.
Proof.
  intros env.
  apply (failed_capture_caches_nothing env sample_engine (Some (7 # 5)) initial).
  intros p. vm_compute. discriminate.
Defined.

Lemma capture_task_loaded env mediaPath time0 st h :
  CmdSeek h ∈ (capture_task env mediaPath time0 st).2 ->
  previewLoadedPath (capture_task env mediaPath time0 st).1.1 = Some mediaPath.
Proof.
  unfold capture_task. cbv zeta.
  destruct (JsMap.get _ _); [now intros ?%elem_of_nil|].
  assert (Hspawn : forall h', CmdSeek h' ∉ (if preview_has_process env
                                            then [] else [CmdSpawn])).
  { intros h' Hin. destruct (preview_has_process env).
    - now apply elem_of_nil in Hin.
    - apply list_elem_of_singleton in Hin. discriminate. }
  destruct (preview_ready env); cbn [negb]; [|intros Hin; now apply Hspawn in Hin].
  destruct (decide (previewLoadedPath st = Some mediaPath)) as [Heq|Hne].
  - intros _. destruct (seek_result env); [|exact Heq].
    destruct (thumb_exists env); [|destruct (shot_result env); [|exact Heq]];
      (destruct (thumb_base64 env); exact Heq).
  - destruct (load_result env).
    + destruct (pause_result env).
      * intros _. destruct (seek_result env); [|reflexivity].
        destruct (thumb_exists env); [|destruct (shot_result env); [|reflexivity]];
          (destruct (thumb_base64 env); reflexivity).
      * intros Hin. apply elem_of_app in Hin as [Hin|Hin];
          [now apply Hspawn in Hin|].
        apply elem_of_cons in Hin as [Hin|Hin]; [discriminate|].
        apply list_elem_of_singleton in Hin. discriminate.
    + intros Hin. apply elem_of_app in Hin as [Hin|Hin];
        [now apply Hspawn in Hin|].
      apply list_elem_of_singleton in Hin. discriminate.
Qed.

Lemma capture_task_no_reload env mediaPath time0 st :
  previewLoadedPath st = Some mediaPath ->
  forallb (fun c => negb (is_load c)) (capture_task env mediaPath time0 st).2 = true.
Proof.
  intros Hloaded. unfold capture_task. cbv zeta.
  destruct (JsMap.get _ _); [reflexivity|].
  destruct (preview_ready env); cbn [negb];
    [|now destruct (preview_has_process env)].
  rewrite decide_True by exact Hloaded.
  destruct (preview_has_process env);
    (destruct (seek_result env); [|reflexivity]);
    (destruct (thumb_exists env); [|destruct (shot_result env); [|reflexivity]]);
    destruct (thumb_base64 env); reflexivity.
Qed.

(** The preview engine loads a file once.  A request that got as far
    as seeking has left the file recorded as loaded, and from then on
    requests for the same file, for whatever time and however they end,
    send no [loadfile] and no pause to the preview engine. *)
Theorem preview_media_loaded_once
    (env1 env2 : TaskEnv) (mpv : MainEngine) (time1 time2 : option Q)
    (st : BridgeState) (h : Z) :
  CmdSeek h ∈ (capture_thumbnail env1 mpv time1 st).2 ->
  let st1 := (capture_thumbnail env1 mpv time1 st).1.1 in
  previewLoadedPath st1 = main_filePath mpv
  /\ forallb (fun c => negb (is_load c))
       (capture_thumbnail env2 mpv time2 st1).2 = true.
Proof.
  intros Hseek st1.
  assert (Hloaded : exists mediaPath,
             main_ready mpv = true
             /\ truthy_path (main_filePath mpv) = Some mediaPath
             /\ previewLoadedPath st1 = Some mediaPath).
  { subst st1. revert Hseek.
    unfold capture_thumbnail, withReady, capture_action.
    destruct (main_ready mpv); [|now intros ?%elem_of_nil].
    destruct (truthy_path (main_filePath mpv)) as [mediaPath|];
      [|now intros ?%elem_of_nil].
    destruct (JsMap.get _ _); [now intros ?%elem_of_nil|].
    pose proof (capture_task_loaded env1 mediaPath time1 st h) as Hl.
    destruct (capture_task env1 mediaPath time1 st) as [[st' [a|e]] cmds];
      cbn [fst snd] in *.
    - intros Hin. exists mediaPath. auto.
    - destruct (transient e); cbn [fst snd]; intros Hin; exists mediaPath; auto. }
  destruct Hloaded as (mediaPath & Hready & Hpath & Hloaded).
  assert (Hfile : main_filePath mpv = Some mediaPath).
  { unfold truthy_path in Hpath. now destruct (main_filePath mpv) as [[|c r]|]. }
  split; [now rewrite Hfile|].
  unfold capture_thumbnail, withReady, capture_action. rewrite Hready, Hpath.
  destruct (JsMap.get _ _); [reflexivity|].
  pose proof (capture_task_no_reload env2 mediaPath time2 st1 Hloaded) as Hno.
  destruct (capture_task env2 mediaPath time2 st1) as [[st' [a|e]] cmds];
    cbn [fst snd] in *; [exact Hno|].
  now destruct (transient e).
Qed.

Lemma preview_media_loaded_once_witness :
  let first := capture_thumbnail sample_env sample_engine (Some (7 # 5)) initial in
  CmdLoadFile "a.mkv" ∈ first.2
  /\ forallb (fun c => negb (is_load c))
       (capture_thumbnail sample_env sample_engine (Some (60 # 1)) first.1.1).2 = true.
Proof.
  intros first. split; [vm_compute; left|].
  destruct (preview_media_loaded_once sample_env sample_env sample_engine
              (Some (7 # 5)) (Some (60 # 1)) initial 3) as [_ Hno].
  - vm_compute. right. right. left.
  - exact Hno.
Defined.

(** Readiness errors do not reach the renderer.  With the playback
    engine not ready the handler answers [null] and does nothing at
    all; with the preview engine not ready it answers [null] as well,
    having at most spawned the preview process, and the bridge is as
    before. *)
Theorem capture_not_ready_is_null
    (env : TaskEnv) (mpv : MainEngine) (time0 : option Q) (st : BridgeState) :
  (main_ready mpv = false ->
   capture_thumbnail env mpv time0 st = (st, Returned None, []))
  /\ (preview_ready env = false ->
      (capture_thumbnail env mpv time0 st).1.1 = st
      /\ ((capture_thumbnail env mpv time0 st).1.2 = Returned None
          \/ exists cached,
               (capture_thumbnail env mpv time0 st).1.2 = Returned (Some cached)
               /\ (capture_thumbnail env mpv time0 st).2 = [])
      /\ ((capture_thumbnail env mpv time0 st).2 = []
          \/ (capture_thumbnail env mpv time0 st).2 = [CmdSpawn])).
Proof.
  split.
  - intros Hready. unfold capture_thumbnail, withReady. now rewrite Hready.
  - intros Hprev. unfold capture_thumbnail, withReady, capture_action.
    destruct (main_ready mpv); [|cbn; auto].
    destruct (truthy_path (main_filePath mpv)) as [mediaPath|]; [|cbn; auto].
    destruct (JsMap.get (mediaPath, rounded_halves time0) (previewCache st))
      as [cached|] eqn:Hg.
    + cbn. split; [reflexivity|]. split; [right; now exists cached | now left].
    + unfold capture_task. cbv zeta. rewrite Hg, Hprev. cbn.
      destruct (preview_has_process env); auto.
Qed.

Lemma capture_not_ready_is_null_witness :
  let env := {| preview_has_process := false; preview_ready := false;
                load_result := Returned tt; pause_result := Returned tt;
                seek_result := Returned tt; thumb_exists := false;
                shot_result := Returned tt; thumb_base64 := Returned "AAAA" |} in
  capture_thumbnail sample_env
    {| main_ready := false; main_filePath := Some "a.mkv" |} (Some (7 # 5)) initial
  = (initial, Returned None, [])
  /\ (capture_thumbnail env sample_engine (Some (7 # 5)) initial).1.1 = initial.
Proof.
  intros env.
  destruct (capture_not_ready_is_null sample_env
              {| main_ready := false; main_filePath := Some "a.mkv" |}
              (Some (7 # 5)) initial) as [Hmain _].
  destruct (capture_not_ready_is_null env sample_engine (Some (7 # 5)) initial)
    as [_ Hpreview].
  split; [apply Hmain; reflexivity|].
  destruct (Hpreview eq_refl) as [Hsame _]. exact Hsame.
Defined.
End CaptureAcrossRequests.

(** ** [withReady]: which errors become the fallback *)

Section Transient.
Import Bridge.

Lemma toLowerCase_app (a b : string) :
  toLowerCase (a +:+ b) = toLowerCase a +:+ toLowerCase b.
Proof.
  induction a as [|c a IH]; [reflexivity|].
  change (String c a +:+ b) with (String c (a +:+ b)).
  cbn [toLowerCase]. rewrite IH. reflexivity.
Qed.

Lemma prefix_app (needle rest : string) : String.prefix needle (needle +:+ rest) = true.
Proof.
  induction needle as [|c needle IH]; [now destruct rest|].
  change (String c needle +:+ rest) with (String c (needle +:+ rest)).
  cbn [String.prefix]. destruct (ascii_dec c c); [exact IH | congruence].
Qed.

Lemma includes_app (before needle after : string) :
  includes (before +:+ needle +:+ after) needle = true.
Proof.
  induction before as [|c before IH].
  - change (EmptyString +:+ needle +:+ after) with (needle +:+ after).
    destruct (needle +:+ after) eqn:Heq; cbn [includes];
      rewrite <- Heq, prefix_app; reflexivity.
  - change (String c before +:+ needle +:+ after)
      with (String c (before +:+ needle +:+ after)).
    cbn [includes]. rewrite IH. now destruct (String.prefix _ _).
Qed.

Lemma transient_mentions (before word after : string) :
  toLowerCase word = "not ready"%string \/ toLowerCase word = "not connected"%string ->
  transient (before +:+ word +:+ after) = true.
Proof.
  intros Hword. unfold transient. cbv zeta. rewrite !toLowerCase_app.
  destruct Hword as [-> | ->]; rewrite includes_app; [reflexivity|].
  apply orb_true_r.
Qed.

(** [withReady] hides readiness errors and only those.  When the engine
    is not ready the action is not run and the fallback is returned;
    when the action throws an error whose message mentions "not ready"
    or "not connected" anywhere, in whatever letter case, the fallback
    is returned; a value the action returns is passed on, and any
    other error is thrown on with its message. *)
Theorem withReady_hides_readiness_errors {A : Type}
    (mpv : MainEngine) (action : BridgeState -> Step A) (fallback : A)
    (st st' : BridgeState) (cmds : list PreviewCmd)
    (before word after message : string) (a : A) :
  (main_ready mpv = false ->
   withReady mpv action fallback st = (st, Returned fallback, []))
  /\ (main_ready mpv = true ->
      (action st = (st', Returned a, cmds) ->
       withReady mpv action fallback st = (st', Returned a, cmds))
      /\ (action st = (st', Thrown (before +:+ word +:+ after), cmds) ->
          toLowerCase word = "not ready"%string
          \/ toLowerCase word = "not connected"%string ->
          withReady mpv action fallback st = (st', Returned fallback, cmds))
      /\ (action st = (st', Thrown message, cmds) ->
          transient message = false ->
          withReady mpv action fallback st = (st', Thrown message, cmds))).
Proof.
  split.
  - intros Hready. unfold withReady. now rewrite Hready.
  - intros Hready. unfold withReady. rewrite Hready. repeat split.
    + now intros ->.
    + intros -> Hword. now rewrite transient_mentions.
    + now intros -> ->.
Qed.

Lemma withReady_hides_readiness_errors_witness :
  withReady sample_engine
    (fun st => (st, Thrown "MPV IPC pipe Not Connected yet", [])) false initial
  = (initial, Returned false, [])
  /\ withReady sample_engine
       (fun st => (st, Thrown "mpv command timed out", [])) false initial
     = (initial, Thrown "mpv command timed out", [])
  /\ withReady {| main_ready := false; main_filePath := None |}
       (fun st => (st, Returned true, [CmdSpawn])) false initial
     = (initial, Returned false, []).
Proof.
  destruct (withReady_hides_readiness_errors sample_engine
              (fun st => (st, Thrown "MPV IPC pipe Not Connected yet", []))
              false initial initial [] "MPV IPC pipe " "Not Connected" " yet"
              "x" false) as [_ Hon].
  destruct (Hon eq_refl) as (_ & Hhide & _).
  destruct (withReady_hides_readiness_errors sample_engine
              (fun st => (st, Thrown "mpv command timed out", []))
              false initial initial [] "a" "b" "c"
              "mpv command timed out" false) as [_ Hon'].
  destruct (Hon' eq_refl) as (_ & _ & Hpass).
  destruct (withReady_hides_readiness_errors
              {| main_ready := false; main_filePath := None |}
              (fun st => (st, Returned true, [CmdSpawn]))
              false initial initial [] "a" "b" "c" "d" true) as [Hoff _].
  split; [apply Hhide; [reflexivity | now right]|].
  split; [apply Hpass; reflexivity | apply Hoff; reflexivity].
Defined.
End Transient.

(** ** The process manager: request numbering *)

Section RequestNumbering.
Import Mpv.
Context `{JsRuntime} (host : Host).
Implicit Types (m : MpvProcess) (out : list Effect).

Lemma request_ids_app out more :
  request_ids (out ++ more) = request_ids out ++ request_ids more.
Proof. unfold request_ids, writes. now rewrite omap_app, fmap_app. Qed.

Lemma numbered_same m out m' :
  _requestId m' = _requestId m -> request_ids out = [] -> numbered m out m'.
Proof.
  intros Hr Ho. unfold numbered. rewrite Hr, Ho.
  split; [lia|]. now rewrite seqZ_nil by lia.
Qed.

Lemma numbered_trans m1 o1 m2 o2 m3 :
  numbered m1 o1 m2 -> numbered m2 o2 m3 -> numbered m1 (o1 ++ o2) m3.
Proof.
  unfold numbered. intros [H12 E1] [H23 E2]. split; [lia|].
  rewrite request_ids_app, E1, E2.
  replace (_requestId m3 - _requestId m1)
    with ((_requestId m2 - _requestId m1) + (_requestId m3 - _requestId m2)) by lia.
  rewrite seqZ_app by lia. f_equal. f_equal. lia.
Qed.

Lemma send_numbered p args m : numbered m (send p args m).2 (send p args m).1.
Proof.
  unfold send. open_instance m. cbn.
  destruct m_socket as [sock|]; [destruct m_ready|]; cbn;
    try (apply numbered_same; reflexivity).
  unfold numbered. cbn. split; [lia|].
  replace (m_requestId + 1 - m_requestId) with 1 by lia. reflexivity.
Qed.

Lemma command_numbered args m : numbered m (command args m).2 (command args m).1.2.
Proof.
  destruct (connected m) eqn:Hcon.
  - apply connected_spec in Hcon as (sock & Hs & Hr).
    rewrite (command_connected args m sock Hs Hr). unfold numbered. cbn.
    split; [lia|].
    replace (_requestId m + 1 - _requestId m) with 1 by lia. reflexivity.
  - rewrite (command_waiting args m Hcon). now apply numbered_same.
Qed.

Lemma run_waiters_numbered ws m :
  numbered m (run_waiters ws m).2 (run_waiters ws m).1.
Proof.
  revert m. induction ws as [|w ws IH]; intros m; cbn [run_waiters];
    [now apply numbered_same|].
  destruct (w_done w); [apply IH|]. unfold clearTimeout.
  pose proof (send_numbered (w_promise w) (w_args w)
                (set_timers (delete (w_timer w) (timers m)) m)) as Hs.
  destruct (send _ _ _) as [m1 o1]. specialize (IH m1).
  destruct (run_waiters ws m1) as [m2 o2]. cbn [fst snd] in *.
  change (numbered m ([ClearTimeout (w_timer w)] ++ (o1 ++ o2)) m2).
  eapply numbered_trans; [now apply numbered_same|].
  eapply numbered_trans; [exact Hs | exact IH].
Qed.

Lemma emits_write_nothing (es : list Emitted) : request_ids (Emit <$> es) = [].
Proof. induction es as [|e es IH]; [reflexivity | exact IH]. Qed.

Lemma handleMessage_writes_nothing msg m :
  request_ids (_handleMessage msg m).2 = []
  /\ _requestId (_handleMessage msg m).1 = _requestId m.
Proof.
  unfold _handleMessage.
  destruct msg as [| | | | |fs]; try (split; reflexivity). unfold field.
  assert (Hev : request_ids
                  (if truthy (lookup_field "event" fs)
                   then Emit (MpvEvent (JObj fs)) :: (Emit <$> event_emits (JObj fs))
                   else []) = []).
  { destruct (truthy _); [|reflexivity].
    apply (emits_write_nothing (MpvEvent (JObj fs) :: event_emits (JObj fs))). }
  destruct (lookup_field "request_id" fs) as [v|].
  - destruct (gt_zero v).
    + destruct (as_key v) as [id|]; [|split; reflexivity].
      destruct (JsMap.get id (_pending m)) as [p|]; [|split; reflexivity].
      unfold clearTimeout. cbn. now destruct (is_success _).
    + destruct (truthy _); [|split; reflexivity]. split; [exact Hev|reflexivity].
  - destruct (truthy _); [|split; reflexivity]. split; [exact Hev|reflexivity].
Qed.

Lemma handleMessage_numbered msg m :
  numbered m (_handleMessage msg m).2 (_handleMessage msg m).1.
Proof.
  destruct (handleMessage_writes_nothing msg m) as [Ho Hr].
  now apply numbered_same.
Qed.

Lemma dispatch_numbered lines m :
  numbered m (dispatch lines m).2 (dispatch lines m).1.
Proof.
  revert m. induction lines as [|line lines IH]; intros m; cbn [dispatch];
    [now apply numbered_same|].
  destruct (Codec.blank line); [apply IH|].
  destruct (JSON_parse line) as [msg|]; [|apply IH].
  pose proof (handleMessage_numbered msg m) as Hh.
  destruct (_handleMessage msg m) as [m1 o1]. specialize (IH m1).
  destruct (dispatch lines m1) as [m2 o2]. cbn [fst snd] in *.
  eapply numbered_trans; [exact Hh | exact IH].
Qed.

Lemma observeProperty_numbered name m :
  numbered m (observeProperty name m).2 (observeProperty name m).1.2.
Proof.
  unfold observeProperty.
  apply (command_numbered _
           (set__observedProps (<[_nextObsId m := name]> (_observedProps m))
              (set__nextObsId (_nextObsId m + 1) m))).
Qed.

Lemma observe_next_numbered props m :
  numbered m (observe_next props m).2 (observe_next props m).1.
Proof.
  destruct props as [|name rest]; cbn [observe_next]; [now apply numbered_same|].
  pose proof (observeProperty_numbered name m) as Ho.
  now destruct (observeProperty name m) as [[q m1] out].
Qed.

Lemma drain_numbered l m : numbered m (drain l m).2 (drain l m).1.
Proof.
  revert m. induction l as [|[p fulfilled] l IH]; intros m; cbn [drain];
    [now apply numbered_same|].
  destruct (awaits m !! p) as [k|]; [|apply IH].
  set (m0 := set_awaits (delete p (awaits m)) m).
  assert (Hk : numbered m (resume k fulfilled m0).2 (resume k fulfilled m0).1).
  { destruct k as [|rest]; unfold resume.
    - apply (observe_next_numbered default_props m0).
    - destruct fulfilled; [apply (observe_next_numbered rest m0)|].
      now apply numbered_same. }
  destruct (resume k fulfilled m0) as [m1 o1]. specialize (IH m1).
  destruct (drain l m1) as [m2 o2]. cbn [fst snd] in *.
  eapply numbered_trans; [exact Hk | exact IH].
Qed.

Lemma on_connect_numbered sock m :
  numbered m (on_connect sock m).2 (on_connect sock m).1.
Proof.
  unfold on_connect, emit_ready.
  set (m0 := set_readyWaiters [] _).
  pose proof (run_waiters_numbered
                (readyWaiters (set__recvBuf [] (set_ready true (set_socket (Some sock) m))))
                m0) as Hw.
  destruct (run_waiters _ m0) as [m1 o1]. cbn [fst snd] in *.
  assert (Hq : numbered m (Emit Ready :: o1) m1).
  { change (numbered m ([Emit Ready] ++ o1) m1).
    eapply numbered_trans; [|exact Hw]. now apply numbered_same. }
  destruct (observeDefaults m1); [|exact Hq].
  unfold _observeDefaults.
  pose proof (command_numbered [JStr "request_log_messages"; JStr "debug"] m1) as Hc.
  destruct (command _ m1) as [[q m2] o2]. cbn [fst snd] in *.
  eapply numbered_trans; [exact Hq | exact Hc].
Qed.

Lemma destroy_numbered m : numbered m (destroy m).2 (destroy m).1.
Proof.
  rewrite destroy_unfold. cbn [fst snd].
  assert (Hs : numbered m (destroy_socket m).2 (destroy_socket m).1).
  { unfold destroy_socket. destruct (socket m) as [sock|]; [|now apply numbered_same].
    pose proof (command_numbered [JStr "quit"] m) as Hq.
    destruct (command _ m) as [[q m0] out]. cbn [fst snd] in *.
    rewrite <- (app_nil_r (out ++ _)), <- (assoc_L (++)).
    eapply numbered_trans; [exact Hq | now apply numbered_same]. }
  eapply numbered_trans; [exact Hs|].
  apply numbered_same.
  - unfold destroy_process. now destruct (process _).
  - rewrite request_ids_app. unfold destroy_process at 1.
    replace (request_ids (_ ≫= _)) with (@nil Z).
    + now destruct (process _).
    + generalize (JsMap.values (_pending (destroy_process (destroy_socket m).1).1)).
      intros ps. induction ps as [|p ps IH]; [reflexivity | exact IH].
Qed.

Lemma timer_fires_numbered t m :
  numbered m (timer_fires t m).2 (timer_fires t m).1.
Proof.
  unfold timer_fires. destruct (timers m !! t) as [[id p|p|retries]|];
    try (now apply numbered_same).
  destruct (expire_waiter t _) as [ws out] eqn:He. cbn [fst snd].
  apply numbered_same; [reflexivity|].
  assert (Hgen : forall ws, request_ids (expire_waiter t ws).2 = []).
  { clear. induction ws as [|w ws IH]; cbn [expire_waiter]; [reflexivity|].
    case_bool_decide; [now destruct (w_done w)|].
    now destruct (expire_waiter t ws). }
  specialize (Hgen (readyWaiters (set_timers (delete t (timers m)) m))).
  now rewrite He in Hgen.
Qed.

Lemma handle_numbered e m : numbered m (handle host e m).2 (handle host e m).1.
Proof.
  destruct e; cbn [handle].
  - unfold spawn, setTimeout. destruct (process m); [now apply numbered_same|].
    cbn [fst snd]. apply numbered_same; [reflexivity|].
    now destruct (existsSync host _).
  - pose proof (command_numbered args m) as Hq.
    now destruct (command args m) as [[q m1] out].
  - pose proof (observeProperty_numbered name m) as Hq.
    now destruct (observeProperty name m) as [[q m1] out].
  - pose proof (command_numbered [JStr "loadfile"; JStr path; JStr "replace"]
                  (set_filePath (Some path) m)) as Hq.
    now destruct (command _ _) as [[q m1] out].
  - apply destroy_numbered.
  - apply timer_fires_numbered.
  - destruct (conns m !! sock); [apply on_connect_numbered | now apply numbered_same].
  - destruct (conns m !! sock); [|now apply numbered_same]. unfold _onData.
    destruct (Codec.frame _ _) as [lines rest].
    apply (dispatch_numbered lines (set__recvBuf rest m)).
  - destruct (conns m !! sock) as [[|fewer]|]; now apply numbered_same.
  - destruct (conns m !! sock); now apply numbered_same.
  - now apply numbered_same.
  - now apply numbered_same.
  - now apply numbered_same.
  - now apply numbered_same.
Qed.

Lemma run_numbered es m : numbered m (run host m es).2 (run host m es).1.
Proof.
  revert m. induction es as [|e es IH]; intros m; cbn [run];
    [now apply numbered_same|].
  unfold step. pose proof (handle_numbered e m) as Hh.
  destruct (handle host e m) as [m1 o1].
  pose proof (drain_numbered (settlements o1) m1) as Hd.
  destruct (drain _ m1) as [m2 o2]. specialize (IH m2).
  destruct (run host m2 es) as [m3 o3]. cbn [fst snd] in *.
  eapply numbered_trans; [|exact IH].
  eapply numbered_trans; [exact Hh | exact Hd].
Qed.

(** Requests are numbered as they are written.  Over any history of an
    instance the requests written to the socket carry the ids 1, 2, 3,
    ... in that order, the last one being the request counter: no id is
    used twice and none is left out. *)
Theorem requests_numbered_in_order
    (pipe : string) (observe : bool) (es : list Event) (i : nat) (id : Z) :
  let r := run host (new pipe observe) es in
  request_ids r.2 = seqZ 1 (_requestId r.1)
  /\ Z.of_nat (length (request_ids r.2)) = _requestId r.1
  /\ NoDup (request_ids r.2)
  /\ (request_ids r.2 !! i = Some id <-> id = Z.of_nat i + 1 /\ id <= _requestId r.1).
Proof.
  intros r. destruct (run_numbered es (new pipe observe)) as [Hle Hids].
  fold r in Hle, Hids. cbn in Hle, Hids. rewrite Z.sub_0_r in Hids.
  split; [exact Hids|]. rewrite Hids. split; [|split].
  - rewrite length_seqZ. lia.
  - apply NoDup_seqZ.
  - rewrite lookup_seqZ. lia.
Qed.
End RequestNumbering.

(** ** The process manager: a pipe that is never there *)

Section ConnectionRefused.
Import Mpv.
Context `{JsRuntime} (host : Host).
Implicit Types (m : MpvProcess).

Lemma refused_run message retries :
  forall m sock,
    conns m !! sock = Some retries ->
    (run host m (refused retries sock (nextSock m) (nextTimer m) message)).2
    = refused_effects retries (nextSock m) (nextTimer m) (pipeName m) message.
Proof.
  induction retries as [|fewer IH]; intros m sock Hc.
  - cbn [refused run]. unfold step. cbn [handle]. rewrite Hc.
    cbn [on_socket_error settlements omap list_omap settlement drain fst snd].
    now rewrite Hc.
  - cbn [refused run]. unfold step at 1. cbn [handle]. rewrite Hc.
    cbn [on_socket_error setTimeout settlements omap list_omap settlement drain
         fst snd app].
    set (m0 := set_nextTimer _ _).
    assert (Hc0 : conns m0 !! sock = Some (S fewer))
      by (subst m0; now open_instance m).
    unfold step at 1. cbn [handle]. rewrite Hc0.
    cbn [on_close settlements omap list_omap settlement drain fst snd app].
    set (m1 := set_ready false _).
    unfold step at 1. cbn [handle]. unfold timer_fires.
    assert (Ht : timers m1 !! nextTimer m = Some (Connect fewer)).
    { subst m1 m0. open_instance m. cbn. apply lookup_insert_eq. }
    rewrite Ht. cbn [_connectSocket settlements omap list_omap settlement drain
                     fst snd app].
    set (m2 := set_nextSock _ _).
    assert (Hc2 : conns m2 !! nextSock m = Some fewer).
    { subst m2 m1 m0. open_instance m. cbn. apply lookup_insert_eq. }
    assert (Hs : nextSock m2 = S (nextSock m))
      by (subst m2 m1 m0; now open_instance m).
    assert (Hn : nextTimer m2 = S (nextTimer m))
      by (subst m2 m1 m0; now open_instance m).
    assert (Hp : pipeName m2 = pipeName m) by (subst m2 m1 m0; now open_instance m).
    assert (Hp1 : pipeName (set_timers (delete (nextTimer m) (timers m1)) m1)
                  = pipeName m) by (subst m1 m0; now open_instance m).
    assert (Hs1 : nextSock (set_timers (delete (nextTimer m) (timers m1)) m1)
                  = nextSock m) by (subst m1 m0; now open_instance m).
    specialize (IH m2 (nextSock m) Hc2). rewrite Hs, Hn, Hp in IH.
    rewrite Hp1, Hs1.
    destruct (run host m2 _) as [m3 o3]. cbn [fst snd] in *. rewrite IH.
    reflexivity.
Qed.

Lemma spawn_settles_nothing nativeHandle opts m :
  settlements (spawn host nativeHandle opts m).2 = []
  /\ connections (spawn host nativeHandle opts m).2 = [].
Proof.
  unfold spawn, setTimeout. destruct (process m); [now split|].
  cbn [fst snd]. now destruct (existsSync host _).
Qed.

Lemma refused_effects_connections retries next t pipe message :
  length (connections (refused_effects retries next t pipe message)) = retries
  /\ Forall (fun c => c.2 = pipe)
       (connections (refused_effects retries next t pipe message))
  /\ last (refused_effects retries next t pipe message)
     = Some (Emit (Error ("Could not connect to mpv IPC pipe: " +:+ message))).
Proof.
  revert next t. induction retries as [|fewer IH]; intros next t.
  - repeat split. constructor.
  - destruct (IH (S next) (S t)) as (Hlen & Hall & Hlast).
    cbn [refused_effects connections omap list_omap length].
    split; [now f_equal|]. split; [now constructor|].
    change (last (?a :: ?b :: ?l)) with (last (b :: l)).
    destruct (refused_effects fewer (S next) (S t) pipe message) eqn:Hr;
      [discriminate | exact Hlast].
Qed.

(** When mpv never opens its pipe.  [spawn] starts the child, telling
    it to serve the pipe of the instance, and 300 ms later the instance
    connects to that pipe.  If that attempt and every later one ends in
    an error and a close, the instance tries again 200 ms after each
    error, ten times, always on the same pipe: eleven connections in
    all.  The eleventh error is reported by one ['error'] event carrying
    the message of the socket, and that is the last thing that
    happens. *)
Theorem connection_attempts_bounded
    (m : MpvProcess) (nativeHandle : option Z) (opts : SpawnOpts)
    (message : string) (pid : nat) (bin : string) (args : list string) :
  process m = None ->
  let t := nextTimer m in
  let s := nextSock m in
  let r := run host m (CallSpawn nativeHandle opts :: TimerFires t
                         :: refused 10 s (S s) (S t) message) in
  r.2 = (spawn host nativeHandle opts m).2
        ++ CreateConnection s (pipeName m)
        :: refused_effects 10 (S s) (S t) (pipeName m) message
  /\ (ProcessSpawn pid bin args ∈ (spawn host nativeHandle opts m).2 ->
      ("--input-ipc-server=" +:+ pipeName m) ∈ args)
  /\ length (connections r.2) = 11%nat
  /\ Forall (fun c => c.2 = pipeName m) (connections r.2)
  /\ last r.2 = Some (Emit (Error ("Could not connect to mpv IPC pipe: " +:+ message))).
Proof.
  intros Hproc t s r.
  destruct (spawn_settles_nothing nativeHandle opts m) as [Hset Hconn].
  assert (Hr : r.2 = (spawn host nativeHandle opts m).2
                     ++ CreateConnection s (pipeName m)
                     :: refused_effects 10 (S s) (S t) (pipeName m) message).
  { subst r. cbn [run]. unfold step at 1. cbn [handle].
    destruct (spawn host nativeHandle opts m) as [m1 o1] eqn:Hsp.
    cbn [fst snd] in *. rewrite Hset. cbn [drain].
    assert (Hm1 : timers m1 !! t = Some (Connect 10)
                  /\ nextSock m1 = s /\ pipeName m1 = pipeName m
                  /\ nextTimer m1 = S t).
    { revert Hsp. unfold spawn, setTimeout. rewrite Hproc. intros [= <- _].
      subst t s. open_instance m. cbn. repeat split. apply lookup_insert_eq. }
    destruct Hm1 as (Ht & Hs1 & Hp1 & Hn1).
    unfold step at 1. cbn [handle]. unfold timer_fires. rewrite Ht.
    cbn [_connectSocket settlements omap list_omap settlement drain fst snd app].
    set (m2 := set_nextSock _ _).
    assert (Hm2 : conns m2 !! s = Some 10%nat /\ nextSock m2 = S s
                  /\ nextTimer m2 = S t /\ pipeName m2 = pipeName m).
    { subst m2. rewrite <- Hs1, <- Hn1, <- Hp1. open_instance m1. cbn.
      repeat split. apply lookup_insert_eq. }
    destruct Hm2 as (Hc2 & Hs2 & Hn2 & Hp2).
    pose proof (refused_run message 10 m2 s Hc2) as Hrun.
    rewrite Hs2, Hn2, Hp2 in Hrun.
    destruct (run host m2 _) as [m3 o3]. cbn [fst snd] in *. rewrite Hrun.
    assert (Hp : pipeName (set_timers (delete t (timers m1)) m1) = pipeName m)
      by (rewrite <- Hp1; now open_instance m1).
    assert (Hs : nextSock (set_timers (delete t (timers m1)) m1) = s)
      by (rewrite <- Hs1; now open_instance m1).
    rewrite Hp, Hs. now rewrite !app_nil_r. }
  destruct (refused_effects_connections 10 (S s) (S t) (pipeName m) message)
    as (Hlen & Hall & Hlast).
  split; [exact Hr|]. split; [|split; [|split]].
  - unfold spawn, setTimeout. rewrite Hproc. cbn [fst snd].
    intros Hin. apply elem_of_app in Hin as [Hin|Hin].
    + destruct (existsSync host _); [now apply elem_of_nil in Hin|].
      apply list_elem_of_singleton in Hin. discriminate.
    + apply elem_of_app in Hin as [Hin|Hin].
      * apply elem_of_cons in Hin as [Hin|Hin]; [discriminate|].
        apply list_elem_of_singleton in Hin. injection Hin as _ _ ->.
        unfold spawn_args. cbn [pipeName]. 
        do 6 right. left.
      * apply list_elem_of_singleton in Hin. discriminate.
  - rewrite Hr. unfold connections at 1. rewrite omap_app.
    fold (connections (spawn host nativeHandle opts m).2). rewrite Hconn.
    cbn [app omap list_omap length].
    fold (connections (refused_effects 10 (S s) (S t) (pipeName m) message)).
    now rewrite Hlen.
  - rewrite Hr. unfold connections at 1. rewrite omap_app.
    fold (connections (spawn host nativeHandle opts m).2). rewrite Hconn.
    cbn [app omap list_omap].
    fold (connections (refused_effects 10 (S s) (S t) (pipeName m) message)).
    now constructor.
  - rewrite Hr, last_app. cbn [last]. 
    change (last (?a :: refused_effects 10 ?x ?y ?z ?w))
      with (last (refused_effects 10 x y z w)).
    now rewrite Hlast.
Qed.
End ConnectionRefused.

Section ConnectionRefusedWitness.
Import Mpv.

Lemma connection_attempts_bounded_witness :
  length (connections
            (@run sample_runtime sample_host (new sample_pipe false)
               (CallSpawn (Some 4660) sample_opts :: TimerFires 0
                  :: refused 10 0 1 1 "connect ENOENT")).2) = 11%nat
  /\ ("--input-ipc-server=" +:+ sample_pipe)
       ∈ spawn_args sample_host (new sample_pipe false) (Some 4660) sample_opts.
Proof.
  destruct (@connection_attempts_bounded sample_runtime sample_host
              (new sample_pipe false) (Some 4660) sample_opts "connect ENOENT"
              0%nat "mpv"
              (spawn_args sample_host (new sample_pipe false) (Some 4660) sample_opts)
              eq_refl) as (_ & Harg & Hlen & _).
  split; [exact Hlen|]. apply Harg. vm_compute. right. right. left.
Defined.
End ConnectionRefusedWitness.

(** ** The process manager: frames in, requests out and back *)

Section FramesIn.
Import Mpv.
Context `{JsRuntime}.
Implicit Types (m : MpvProcess).

(** What a frame can do.  A frame that is relayed to the listeners is
    relayed as ['mpv-event'] first, names an event, changes nothing in
    the instance and settles no promise.  A frame with a positive
    request id is never relayed, whether or not it names an event and
    whether or not a request is pending under that id. *)
Theorem frames_relayed_or_settled (msg : json) (m : MpvProcess) (e : Emitted) (id : Z) :
  let r := _handleMessage msg m in
  (Emit e ∈ r.2 ->
   r = (m, Emit (MpvEvent msg) :: (Emit <$> event_emits msg))
   /\ truthy (field "event" msg) = true
   /\ settled r.2 = [])
  /\ (field "request_id" msg = Some (JNum (inject_Z id)) -> 0 < id -> Emit e ∉ r.2).
Proof.
  intros r.
  assert (Hresp : forall t x, (forall e', x <> Emit e') ->
                              Emit e ∉ [ClearTimeout t; x]).
  { intros t x Hx Hin. apply elem_of_cons in Hin as [Hin|Hin]; [discriminate|].
    apply list_elem_of_singleton in Hin. now apply (Hx e). }
  assert (Hset : settled (Emit (MpvEvent msg) :: (Emit <$> event_emits msg)) = []).
  { rewrite settled_cons. cbn. apply settled_emits. }
  split.
  - subst r. unfold _handleMessage.
    destruct msg as [| | | | |fs]; try (now intros ?%elem_of_nil). unfold field.
    fold (field "event" (JObj fs)).
    destruct (lookup_field "request_id" fs) as [v|].
    + destruct (gt_zero v).
      * destruct (as_key v) as [k|]; [|now intros ?%elem_of_nil].
        destruct (JsMap.get k (_pending m)) as [p|]; [|now intros ?%elem_of_nil].
        unfold clearTimeout. cbn [fst snd app].
        destruct (is_success _); cbn [snd]; intros Hin; exfalso; revert Hin;
          apply Hresp; intros e'; discriminate.
      * destruct (truthy _) eqn:Ht; [|now intros ?%elem_of_nil]. now intros _.
    + destruct (truthy _) eqn:Ht; [|now intros ?%elem_of_nil]. now intros _.
  - intros Hid Hpos. subst r. unfold _handleMessage.
    destruct msg as [| | | | |fs]; try discriminate. rewrite Hid.
    rewrite (gt_zero_id id Hpos), as_key_id.
    destruct (JsMap.get id (_pending m)) as [p|]; [|apply not_elem_of_nil].
    unfold clearTimeout. cbn [fst snd app].
    destruct (is_success _); cbn [snd]; apply Hresp; intros e'; discriminate.
Qed.
End FramesIn.

Section FramesInWitness.
Import Mpv.

Lemma frames_relayed_or_settled_witness :
  (Emit Seek ∉ (@_handleMessage sample_runtime
                  (JObj [("request_id", JNum (inject_Z 2)); ("event", JStr "seek")])
                  sample_busy).2)
  /\ (@_handleMessage sample_runtime (JObj [("event", JStr "seek")]) sample_busy).1
     = sample_busy.
Proof.
  destruct (@frames_relayed_or_settled sample_runtime
              (JObj [("request_id", JNum (inject_Z 2)); ("event", JStr "seek")])
              sample_busy Seek 2) as [_ Hnever].
  destruct (@frames_relayed_or_settled sample_runtime
              (JObj [("event", JStr "seek")]) sample_busy Seek 2) as [Hrelay _].
  split; [apply Hnever; [reflexivity | lia]|].
  destruct Hrelay as (Heq & _ & _); [right; left|].
  now rewrite Heq.
Defined.
End FramesInWitness.

Section RoundTrip.
Import Mpv.
Context `{JsRuntime} (host : Host).
Implicit Types (m : MpvProcess).

Lemma delete_set_fresh {K V : Type} `{EqDecision K} (k : K) (v : V) (P : JsMap.t K V) :
  JsMap.get k P = None -> JsMap.delete k (JsMap.set k v P) = P.
Proof.
  induction P as [|[k0 v0] r IH]; cbn.
  - intros _. now rewrite decide_True.
  - destruct (decide (k = k0)) as [->|Hne]; [discriminate|]. cbn.
    rewrite decide_False by exact Hne. intros Hg. now rewrite IH.
Qed.

Lemma response_data id e d : field "data" (response id e d) = d.
Proof. now destruct d. Qed.

(** A request and its end.  On a connected instance, in any state it
    can reach, [command] writes one frame with the arguments under the
    next request id and arms a timeout of ten seconds.  Whichever comes
    first, the reply of mpv or the timeout, settles the promise of the
    command (resolved with the data of a successful reply, rejected
    with "mpv command timed out" by the timeout) and leaves the pending
    requests and the armed timers exactly as they were before the
    command. *)
Theorem request_round_trip
    (pipe : string) (observe : bool) (es : list Event)
    (args : list json) (sock : nat) (data : option json) :
  let m := (run host (new pipe observe) es).1 in
  socket m = Some sock -> ready m = true ->
  let p := (command args m).1.1 in
  let m1 := (command args m).1.2 in
  let id := _requestId m + 1 in
  let t := nextTimer m in
  (command args m).2 = [SetTimeout t 10000; SocketWrite sock args id]
  /\ (let r := _handleMessage (response id "success" data) m1 in
      r.2 = [ClearTimeout t; Resolve p data]
      /\ _pending r.1 = _pending m /\ timers r.1 = timers m)
  /\ (let r := timer_fires t m1 in
      r.2 = [Reject p "mpv command timed out"]
      /\ _pending r.1 = _pending m /\ timers r.1 = timers m).
Proof.
  intros m Hs Hr p m1 id t.
  pose proof (reachable_consistent host pipe observe es) as Hc. fold m in Hc.
  destruct (reachable_registry host pipe observe es) as [_ Hrid]. fold m in Hrid.
  assert (Hfresh : JsMap.get id (_pending m) = None)
    by apply (consistent_fresh_id _ _ _ _ _ _ _ Hc).
  assert (Htimer : timers m !! t = None).
  { destruct (timers m !! t) as [a|] eqn:Ht; [|reflexivity].
    pose proof (inv_timer_lt _ _ _ _ _ _ _ Hc _ _ Ht). subst t. lia. }
  subst p m1. rewrite (command_connected args m sock Hs Hr). cbn [fst snd].
  split; [reflexivity|]. split.
  - rewrite (handleMessage_matching _ _ id {| promise := nextPromise m; timer := t |}).
    + cbn [fst snd]. rewrite response_data. split; [reflexivity|]. cbn.
      split; [now apply delete_set_fresh | now apply delete_insert_id].
    + apply response_request_id.
    + subst id. lia.
    + cbn. apply get_set_eq.
  - rewrite (timeout_fires t id (nextPromise m)) by (cbn; apply lookup_insert_eq).
    cbn. split; [reflexivity|].
    split; [now apply delete_set_fresh | now apply delete_insert_id].
Qed.
End RoundTrip.

Section RoundTripWitness.
Import Mpv.

Lemma request_round_trip_witness :
  let m := (@run sample_runtime sample_host (new sample_pipe false)
              sample_history).1 in
  _pending (@_handleMessage sample_runtime (response 4 "success" (Some (JNum 5)))
              (command [JStr "get_property"; JStr "speed"] m).1.2).1
  = _pending m.
Proof.
  intros m.
  destruct (@request_round_trip sample_runtime sample_host sample_pipe false
              sample_history [JStr "get_property"; JStr "speed"] 0%nat
              (Some (JNum 5)) eq_refl eq_refl) as (_ & Hreply & _).
  destruct Hreply as (_ & Hp & _). exact Hp.
Defined.
End RoundTripWitness.

(** ** The process manager: the link to mpv *)

Section Link.
Import Mpv.
Context `{JsRuntime} (host : Host).
Implicit Types (m : MpvProcess).

Lemma same_link_refl m : same_link m m.
Proof. now repeat split. Qed.

Lemma same_link_trans m1 m2 m3 : same_link m1 m2 -> same_link m2 m3 -> same_link m1 m3.
Proof. unfold same_link. intros (? & ? & ?) (? & ? & ?). repeat split; congruence. Qed.

Lemma send_link p args m : same_link m (send p args m).1.
Proof.
  unfold send. open_instance m. cbn.
  destruct m_socket; [destruct m_ready|]; now repeat split.
Qed.

Lemma command_link args m : same_link m (command args m).1.2.
Proof.
  destruct (connected m) eqn:Hcon.
  - apply connected_spec in Hcon as (sock & Hs & Hr).
    rewrite (command_connected args m sock Hs Hr). now repeat split.
  - rewrite (command_waiting args m Hcon). now repeat split.
Qed.

Lemma run_waiters_link ws m : same_link m (run_waiters ws m).1.
Proof.
  revert m. induction ws as [|w ws IH]; intros m; cbn [run_waiters];
    [apply same_link_refl|].
  destruct (w_done w); [apply IH|]. unfold clearTimeout.
  pose proof (send_link (w_promise w) (w_args w)
                (set_timers (delete (w_timer w) (timers m)) m)) as Hs.
  destruct (send _ _ _) as [m1 o1]. specialize (IH m1).
  destruct (run_waiters ws m1) as [m2 o2]. cbn [fst] in *.
  eapply same_link_trans; [|exact IH]. exact Hs.
Qed.

Lemma observe_next_link props m : same_link m (observe_next props m).1.
Proof.
  destruct props as [|name rest]; cbn [observe_next]; [apply same_link_refl|].
  unfold observeProperty.
  pose proof (command_link
                [JStr "observe_property"; JNum (inject_Z (_nextObsId m)); JStr name]
                (set__observedProps (<[_nextObsId m := name]> (_observedProps m))
                   (set__nextObsId (_nextObsId m + 1) m))) as Hc.
  now destruct (command _ _) as [[q m1] out].
Qed.

Lemma drain_link l m : same_link m (drain l m).1.
Proof.
  revert m. induction l as [|[p fulfilled] l IH]; intros m; cbn [drain];
    [apply same_link_refl|].
  destruct (awaits m !! p) as [k|]; [|apply IH].
  set (m0 := set_awaits (delete p (awaits m)) m).
  assert (Hk : same_link m (resume k fulfilled m0).1).
  { apply (same_link_trans m m0); [now repeat split|].
    destruct k as [|rest]; unfold resume.
    - apply (observe_next_link default_props m0).
    - destruct fulfilled; [apply (observe_next_link rest m0) | apply same_link_refl]. }
  destruct (resume k fulfilled m0) as [m1 o1]. specialize (IH m1).
  destruct (drain l m1) as [m2 o2]. cbn [fst] in *.
  eapply same_link_trans; [exact Hk | exact IH].
Qed.

Lemma dispatch_link lines m : same_link m (dispatch lines m).1.
Proof.
  destruct (dispatch_frame lines m) as (_ & Hs & Hr & _).
  split; [exact Hs|]. split; [exact Hr|]. apply dispatch_keeps_recvBuf.
Qed.

Lemma on_connect_link sock m :
  socket (on_connect sock m).1 = Some sock
  /\ ready (on_connect sock m).1 = true
  /\ _recvBuf (on_connect sock m).1 = [].
Proof.
  unfold on_connect, emit_ready.
  set (m0 := set_readyWaiters [] _).
  pose proof (run_waiters_link
                (readyWaiters (set__recvBuf [] (set_ready true (set_socket (Some sock) m))))
                m0) as Hw.
  destruct (run_waiters _ m0) as [m1 o1]. cbn [fst] in *.
  assert (Hq : socket m1 = Some sock /\ ready m1 = true /\ _recvBuf m1 = []).
  { destruct Hw as (-> & -> & ->). now repeat split. }
  destruct (observeDefaults m1); [|exact Hq].
  unfold _observeDefaults.
  pose proof (command_link [JStr "request_log_messages"; JStr "debug"] m1) as Hc.
  destruct (command _ m1) as [[q m2] o2]. cbn [fst snd] in *.
  destruct Hc as (Hs & Hr & Hb). destruct Hq as (Hs1 & Hr1 & Hb1).
  repeat split; cbn; congruence.
Qed.

Lemma destroy_link m :
  socket (destroy m).1 = None /\ ready (destroy m).1 = false
  /\ process (destroy m).1 = None /\ _pending (destroy m).1 = JsMap.empty.
Proof.
  rewrite destroy_unfold. cbn [fst].
  destruct (destroy_process_frame (destroy_socket m).1) as (_ & _ & Hs & Hp).
  destruct (destroy_socket_fields m) as [Hs' _].
  repeat split; cbn; [congruence | exact Hp].
Qed.

Lemma handle_linked e m : linked m -> linked (handle host e m).1.
Proof.
  unfold linked. intros Hl.
  assert (Hsame : forall m', same_link m m' -> ready m' = true -> is_Some (socket m')).
  { intros m' (-> & -> & _). exact Hl. }
  destruct e; cbn [handle].
  - apply Hsame. unfold spawn, setTimeout. destruct (process m);
      [apply same_link_refl | now repeat split].
  - pose proof (command_link args m) as Hc.
    destruct (command args m) as [[q m1] out]. now apply Hsame.
  - unfold observeProperty.
    pose proof (command_link
                  [JStr "observe_property"; JNum (inject_Z (_nextObsId m)); JStr name]
                  (set__observedProps (<[_nextObsId m := name]> (_observedProps m))
                     (set__nextObsId (_nextObsId m + 1) m))) as Hc.
    destruct (command _ _) as [[q m1] out]. now apply Hsame.
  - pose proof (command_link [JStr "loadfile"; JStr path; JStr "replace"]
                  (set_filePath (Some path) m)) as Hc.
    destruct (command _ _) as [[q m1] out]. now apply Hsame.
  - destruct (destroy_link m) as (_ & -> & _). discriminate.
  - apply Hsame. unfold timer_fires.
    destruct (timers m !! t) as [[id p|p|retries]|]; try (now repeat split).
    now destruct (expire_waiter t _).
  - destruct (conns m !! sock); [|exact Hl].
    destruct (on_connect_link sock m) as (-> & _). intros _. now eexists.
  - destruct (conns m !! sock); [|exact Hl]. unfold _onData.
    destruct (Codec.frame _ _) as [lines rest].
    destruct (dispatch_frame lines (set__recvBuf rest m)) as (_ & Hs & Hr & _).
    rewrite Hs, Hr. exact Hl.
  - destruct (conns m !! sock) as [[|fewer]|]; exact Hl.
  - destruct (conns m !! sock); [|exact Hl]. discriminate.
  - exact Hl.
  - exact Hl.
  - discriminate.
  - discriminate.
Qed.

Lemma step_linked e m : linked m -> linked (step host m e).1.
Proof.
  intros Hl. unfold step. pose proof (handle_linked e m Hl) as Hh.
  destruct (handle host e m) as [m1 o1].
  pose proof (drain_link (settlements o1) m1) as Hd.
  destruct (drain _ m1) as [m2 o2]. cbn [fst] in *.
  unfold linked. destruct Hd as (-> & -> & _). exact Hh.
Qed.

Lemma run_linked es m : linked m -> linked (run host m es).1.
Proof.
  revert m. induction es as [|e es IH]; intros m Hl; cbn [run]; [exact Hl|].
  pose proof (step_linked e m Hl) as Hs.
  destruct (step host m e) as [m1 o1]. specialize (IH m1 Hs).
  now destruct (run host m1 es) as [m2 o2].
Qed.

(** Ready means connected.  In any state an instance can reach, the
    ready flag is up only while a socket is attached; so a command
    called on a ready instance never waits: it is written to that
    socket at once, and a timeout of ten seconds is all it arms. *)
Theorem ready_means_connected
    (pipe : string) (observe : bool) (es : list Event) (args : list json) :
  let m := (run host (new pipe observe) es).1 in
  ready m = true ->
  exists sock,
    socket m = Some sock
    /\ (command args m).2
       = [SetTimeout (nextTimer m) 10000; SocketWrite sock args (_requestId m + 1)].
Proof.
  intros m Hr.
  assert (Hl : linked m) by (apply run_linked; discriminate).
  destruct (Hl Hr) as [sock Hs]. exists sock. split; [exact Hs|].
  now rewrite (command_connected args m sock Hs Hr).
Qed.

(** A new connection starts with an empty receive buffer: whatever
    part of a line the old connection left behind is dropped, so the
    first chunk from the new socket is framed on its own. *)
Theorem connect_clears_receive_buffer
    (sock : nat) (retries : nat) (m : MpvProcess) (chunk : list Byte.byte) :
  conns m !! sock = Some retries ->
  let m' := (step host m (SocketConnect sock)).1 in
  _recvBuf m' = []
  /\ socket m' = Some sock /\ ready m' = true
  /\ _onData chunk m'
     = dispatch (Codec.lines_of_chunks [] [chunk])
         (set__recvBuf (Codec.rest_of_chunks [] [chunk]) m').
Proof.
  intros Hc m'.
  assert (Hm : socket m' = Some sock /\ ready m' = true /\ _recvBuf m' = []).
  { subst m'. unfold step. cbn [handle]. rewrite Hc.
    destruct (on_connect_link sock m) as (Hs & Hr & Hb).
    destruct (on_connect sock m) as [m1 o1].
    pose proof (drain_link (settlements o1) m1) as Hd.
    destruct (drain _ m1) as [m2 o2]. cbn [fst] in *.
    destruct Hd as (-> & -> & ->). now repeat split. }
  destruct Hm as (Hs & Hr & Hb). repeat split; try assumption.
  unfold _onData, Codec.lines_of_chunks, Codec.rest_of_chunks. rewrite Hb.
  cbn [fmap list_fmap Codec.lines_of_texts Codec.rest_of_texts].
  destruct (Codec.frame [] (Codec.toString_utf8 chunk)) as [lines rest].
  cbn [snd]. now rewrite app_nil_r, dispatch_filter.
Qed.

(** [destroy] a second time does nothing: the instance stays as the
    first call left it, and no effect is performed. *)
Theorem destroy_twice (m : MpvProcess) :
  destroy (destroy m).1 = ((destroy m).1, []).
Proof.
  destruct (destroy_link m) as (Hs & Hr & Hp & Hq).
  set (D := (destroy m).1) in *.
  unfold destroy, destroy_socket, destroy_process. rewrite Hs. cbn [fst snd].
  rewrite Hp. cbn [fst snd]. 
  assert (Hv : JsMap.values (_pending (set_ready false D)) = [])
    by (cbn; now rewrite Hq).
  rewrite Hv. cbn [reject_all app]. f_equal.
  destruct D. cbn in *. now subst.
Qed.
End Link.

Section LinkWitness.
Import Mpv.

Lemma ready_means_connected_witness :
  let m := (@run sample_runtime sample_host (new sample_pipe false)
              sample_history).1 in
  exists sock,
    socket m = Some sock
    /\ (command [JStr "stop"] m).2 = [SetTimeout 4 10000; SocketWrite sock [JStr "stop"] 4].
Proof.
  intros m.
  exact (@ready_means_connected sample_runtime sample_host sample_pipe false
           sample_history [JStr "stop"] eq_refl).
Defined.

Lemma connect_clears_receive_buffer_witness :
  let m := set__recvBuf (Codec.text_of "{half a line")
             (@run sample_runtime sample_host (new sample_pipe false)
                [CallSpawn (Some 4660) sample_opts; TimerFires 0]).1 in
  _recvBuf (@step sample_runtime sample_host m (SocketConnect 0)).1 = [].
Proof.
  intros m.
  destruct (@connect_clears_receive_buffer sample_runtime sample_host 0%nat 10%nat m []
              eq_refl) as [Hbuf _].
  exact Hbuf.
Defined.
End LinkWitness.

(** ** The bridge: clicks, double clicks and fullscreen *)

Section InputFacts.
Import Input.
Implicit Types (st : InputState) (env : Env) (e : Event).

Lemma toggles_app (out more : list Effect) :
  toggles (out ++ more) = (toggles out + toggles more)%nat.
Proof. unfold toggles. now rewrite List.filter_app, length_app. Qed.

Lemma fullscreen_sets_app (out more : list Effect) :
  fullscreen_sets (out ++ more) = fullscreen_sets out ++ fullscreen_sets more.
Proof. unfold fullscreen_sets. apply omap_app. Qed.

Lemma clear_click_quiet st :
  toggles (clear_click st) = 0%nat /\ fullscreen_sets (clear_click st) = [].
Proof. unfold clear_click. now destruct (_clickTimer st). Qed.

(** A click arms a timer and nothing else. *)
Lemma click_message env rest st :
  client_message env ("hybrid-mouse-click"%string :: rest) st
  = ({| tracked := tracked st; _clickTimer := Some (nextTimer st);
        nextTimer := S (nextTimer st) |},
     (clear_click st ++ [SetTimeout (nextTimer st) 250])
       ++ if alive env then [Focus; FocusWebContents] else []).
Proof. reflexivity. Qed.

Lemma click_step e st :
  is_click e = true ->
  toggles (step st e).2 = 0%nat
  /\ fullscreen_sets (step st e).2 = []
  /\ tracked (step st e).1 = tracked st
  /\ is_Some (_clickTimer (step st e).1).
Proof.
  destruct e as [env [|cmd rest]|env t]; try discriminate. cbn [is_click].
  intros ->%String.eqb_eq. cbn [step]. rewrite click_message. cbn [fst snd].
  destruct (clear_click_quiet st) as [Ht Hf].
  rewrite !toggles_app, !fullscreen_sets_app, Ht, Hf.
  split; [now destruct (alive env)|]. split; [now destruct (alive env)|].
  split; [reflexivity | now eexists].
Qed.

Lemma clicks_run clicks st :
  forallb is_click clicks = true ->
  toggles (run st clicks).2 = 0%nat
  /\ fullscreen_sets (run st clicks).2 = []
  /\ tracked (run st clicks).1 = tracked st
  /\ (clicks <> [] -> is_Some (_clickTimer (run st clicks).1)).
Proof.
  revert st. induction clicks as [|e clicks IH]; intros st; cbn [forallb run].
  - intros _. now repeat split.
  - rewrite andb_true_iff. intros [He Hrest].
    destruct (click_step e st He) as (Ht & Hf & Htr & Hc).
    destruct (step st e) as [st1 o1]. cbn [fst snd] in *.
    destruct (IH st1 Hrest) as (Ht' & Hf' & Htr' & Hc').
    destruct (run st1 clicks) as [st2 o2] eqn:Hrun. cbn [fst snd] in *.
    rewrite toggles_app, fullscreen_sets_app, Ht, Ht', Hf, Hf'.
    repeat split; [congruence|]. intros _.
    destruct clicks as [|e' clicks']; [|apply Hc'; discriminate].
    cbn in Hrun. injection Hrun as <- _. exact Hc.
Qed.

(** Timers firing: at most the armed one calls [togglePause]. *)
Lemma fires_run fires st :
  forallb is_fire fires = true ->
  (toggles (run st fires).2 <= match _clickTimer st with Some _ => 1 | None => 0 end)%nat
  /\ fullscreen_sets (run st fires).2 = []
  /\ tracked (run st fires).1 = tracked st.
Proof.
  revert st. induction fires as [|e fires IH]; intros st; cbn [forallb run].
  - intros _. repeat split. cbn. destruct (_clickTimer st); lia.
  - rewrite andb_true_iff. intros [He Hrest].
    destruct e as [env args|env t]; [discriminate|]. cbn [step].
    unfold click_timer_fires. case_bool_decide as Ht.
    + specialize (IH {| tracked := tracked st; _clickTimer := None;
                        nextTimer := nextTimer st |} Hrest).
      destruct IH as (Hle & Hf & Htr).
      destruct (run _ fires) as [st2 o2]. cbn [fst snd _clickTimer] in *.
      rewrite toggles_app, fullscreen_sets_app, Hf, Ht.
      repeat split; [|now destruct (mpv_ready env)|exact Htr].
      destruct (mpv_ready env); cbn; lia.
    + destruct (IH st Hrest) as (Hle & Hf & Htr).
      destruct (run st fires) as [st2 o2]. cbn [fst snd] in *.
      now repeat split.
Qed.

(** A burst of clicks toggles playback once.  However many clicks mpv
    relays in a row, each one replaces the timer of the one before, so
    when timers fire afterwards [togglePause] is called at most once;
    by then neither the fullscreen state nor anything else has been
    touched.  After at least one click a timer is armed, and its firing
    calls [togglePause] if mpv is ready. *)
Theorem click_burst_toggles_once
    (st : InputState) (clicks fires : list Event) (env : Env) :
  forallb is_click clicks = true ->
  forallb is_fire fires = true ->
  (toggles (run st (clicks ++ fires)).2 <= 1)%nat
  /\ fullscreen_sets (run st (clicks ++ fires)).2 = []
  /\ (clicks <> [] -> mpv_ready env = true ->
      exists t, _clickTimer (run st clicks).1 = Some t
                /\ (click_timer_fires env t (run st clicks).1).2 = [TogglePause]).
Proof.
  intros Hc Hf.
  destruct (clicks_run clicks st Hc) as (Ht & Hfs & _ & Harmed).
  assert (Happ : forall es es' s, run s (es ++ es')
                 = (let '(s1, o1) := run s es in
                    let '(s2, o2) := run s1 es' in (s2, o1 ++ o2))).
  { clear. induction es as [|e es IH]; intros es' s; cbn [app run].
    - now destruct (run s es').
    - destruct (step s e) as [s1 o1]. rewrite IH.
      destruct (run s1 es) as [s2 o2]. destruct (run s2 es') as [s3 o3].
      now rewrite (assoc_L (++)). }
  rewrite Happ. destruct (run st clicks) as [st1 o1]. cbn [fst snd] in *.
  destruct (fires_run fires st1 Hf) as (Hle & Hfs' & _).
  destruct (run st1 fires) as [st2 o2]. cbn [fst snd] in *.
  rewrite toggles_app, fullscreen_sets_app, Ht, Hfs, Hfs'.
  split; [destruct (_clickTimer st1); lia|]. split; [reflexivity|].
  intros Hne Hready. destruct (Harmed Hne) as [t Htimer]. exists t.
  split; [exact Htimer|]. unfold click_timer_fires.
  now rewrite bool_decide_eq_true_2, Hready.
Qed.

Lemma click_burst_toggles_once_witness :
  let env := {| alive := true; isFullScreen := false; mpv_ready := true |} in
  let clicks := [Message env ["hybrid-mouse-click"%string];
                 Message env ["hybrid-mouse-click"%string]] in
  (toggles (run initial (clicks ++ [TimerFires env 0; TimerFires env 1])).2 <= 1)%nat
  /\ exists t, _clickTimer (run initial clicks).1 = Some t
               /\ (click_timer_fires env t (run initial clicks).1).2 = [TogglePause].
Proof.
  intros env clicks.
  destruct (click_burst_toggles_once initial clicks
              [TimerFires env 0; TimerFires env 1] env eq_refl eq_refl)
    as (Hle & _ & Hfire).
  split; [exact Hle|]. apply Hfire; [discriminate | reflexivity].
Defined.

(** A double click is not a click.  mpv relays the first press of a
    double click as a click; the double click that follows clears the
    timer of that click before it fires, so playback is not toggled,
    whatever timers fire later, and, the window being there, the
    fullscreen state is switched once. *)
Theorem double_click_cancels_click
    (st : InputState) (env1 env2 : Env) (rest1 rest2 : list string)
    (fires : list Event) :
  forallb is_fire fires = true ->
  let r := run st (Message env1 ("hybrid-mouse-click"%string :: rest1)
                   :: Message env2 ("hybrid-mouse-dblclick"%string :: rest2)
                   :: fires) in
  toggles r.2 = 0%nat
  /\ ClearTimeout (nextTimer st) ∈ r.2
  /\ fullscreen_sets r.2
     = (if alive env2 then [negb (getTrackedFullscreen env2 st)] else []).
Proof.
  intros Hf r. subst r. cbn [run step]. rewrite click_message.
  set (st1 := {| tracked := tracked st; _clickTimer := Some (nextTimer st);
                 nextTimer := S (nextTimer st) |}).
  assert (Hdbl : exists st2,
             client_message env2 ("hybrid-mouse-dblclick"%string :: rest2) st1
             = (st2,
                (ClearTimeout (nextTimer st)
                   :: if alive env2
                      then [SetFullScreen (negb (getTrackedFullscreen env2 st))]
                      else [])
                  ++ if alive env2 then [Focus; FocusWebContents] else [])
             /\ _clickTimer st2 = None).
  { unfold client_message, relay, setTrackedFullscreen, getTrackedFullscreen.
    cbn. destruct (alive env2); cbn; eexists; split; reflexivity. }
  destruct Hdbl as (st2 & -> & Hnone).
  destruct (fires_run fires st2 Hf) as (Hle & Hfs & _). rewrite Hnone in Hle.
  destruct (run st2 fires) as [st3 o3]. cbn [fst snd] in *.
  destruct (clear_click_quiet st) as [Ht0 Hf0].
  rewrite !toggles_app, !fullscreen_sets_app, Ht0, Hf0, Hfs.
  split; [|split].
  - destruct (alive env1), (alive env2); cbn; lia.
  - rewrite !elem_of_app. right. left. left. left.
  - destruct (alive env1), (alive env2); reflexivity.
Qed.

Lemma double_click_cancels_click_witness :
  let env := {| alive := true; isFullScreen := false; mpv_ready := true |} in
  toggles (run initial [Message env ["hybrid-mouse-click"%string];
                        Message env ["hybrid-mouse-dblclick"%string];
                        TimerFires env 0]).2 = 0%nat.
Proof.
  intros env.
  destruct (double_click_cancels_click initial env env [] [] [TimerFires env 0]
              eq_refl) as [Hnone _].
  exact Hnone.
Defined.

(** The tracked fullscreen state.  With the window there, a toggle
    switches the window to the opposite of the tracked state and tracks
    that, and a second toggle switches back: from the first switch on,
    the tracked state and not the answer of the window is what counts.
    An exit switches fullscreen off only if it is on; once it has, the
    state is off and a second exit does nothing.  With the window gone
    nothing is switched, nothing is focused and the tracked state stays
    as it is. *)
Theorem fullscreen_state_tracked
    (st : InputState) (env1 env2 env3 : Env) (args : list string) :
  let b := getTrackedFullscreen env1 st in
  (alive env1 = true -> alive env2 = true -> alive env3 = true ->
   let r := run st [Message env1 ["hybrid-toggle-fullscreen"%string];
                    Message env2 ["hybrid-toggle-fullscreen"%string]] in
   fullscreen_sets r.2 = [negb b; b] /\ getTrackedFullscreen env3 r.1 = b)
  /\ (alive env1 = true -> alive env2 = true -> alive env3 = true ->
      let r := client_message env1 ["hybrid-exit-fullscreen"%string] st in
      fullscreen_sets r.2 = (if b then [false] else [])
      /\ (b = false -> r.1 = st)
      /\ (b = true ->
          getTrackedFullscreen env3 r.1 = false
          /\ fullscreen_sets
               (client_message env2 ["hybrid-exit-fullscreen"%string] r.1).2 = []))
  /\ (alive env1 = false ->
      let r := client_message env1 args st in
      fullscreen_sets r.2 = [] /\ tracked r.1 = tracked st
      /\ (Focus ∉ r.2) /\ (FocusWebContents ∉ r.2)).
Proof.
  intros b. subst b. split; [|split].
  - intros H1 H2 H3. cbn [run step client_message].
    unfold relay, setTrackedFullscreen, getTrackedFullscreen.
    cbn. rewrite H1, H2, H3. cbn.
    destruct (tracked st) as [[]|]; [| |destruct (isFullScreen env1)]; now split.
  - intros H1 H2 H3. cbn [client_message].
    unfold relay, setTrackedFullscreen, getTrackedFullscreen.
    cbn. rewrite H1. cbn.
    destruct (match tracked st with Some state => state | None => isFullScreen env1 end)
      eqn:Hb; cbn; rewrite ?H2, ?H3; cbn.
    + split; [reflexivity|]. split; [discriminate|]. intros _. now split.
    + split; [reflexivity|]. split; [reflexivity|]. discriminate.
  - intros H1. cbn zeta. unfold client_message.
    destruct args as [|[|c cmd] rest];
      try (repeat split; [apply not_elem_of_nil | apply not_elem_of_nil]).
    rewrite H1. unfold relay, setTrackedFullscreen, getTrackedFullscreen, clear_click.
    rewrite H1. cbn [negb andb].
    assert (Hno : forall out : list Effect,
               Forall (fun x => match x with
                                | SetFullScreen _ | Focus | FocusWebContents => False
                                | _ => True
                                end) out ->
               fullscreen_sets (out ++ []) = []
               /\ (Focus ∉ out ++ []) /\ (FocusWebContents ∉ out ++ [])).
    { clear. intros out Hall. rewrite app_nil_r. induction Hall as [|x out He _ IH].
      - repeat split; apply not_elem_of_nil.
      - destruct IH as (Hf & Hn1 & Hn2).
        destruct x; try destruct He; cbn; (split; [exact Hf|]);
          split; intros Hin; apply elem_of_cons in Hin as [Hin|Hin];
          try discriminate; auto. }
    repeat (match goal with
            | |- context [String.eqb ?a ?b] => destruct (String.eqb a b)
            end);
      cbn [fst snd];
      match goal with
      | |- fullscreen_sets (?out ++ []) = [] /\ _ =>
          destruct (Hno out) as (Hf & Hn1 & Hn2);
          [destruct (_clickTimer st), (mpv_ready env1); repeat constructor
          | repeat split; assumption]
      end.
Qed.

Lemma fullscreen_state_tracked_witness :
  let env := {| alive := true; isFullScreen := true; mpv_ready := true |} in
  fullscreen_sets
    (run initial [Message env ["hybrid-toggle-fullscreen"%string];
                  Message env ["hybrid-toggle-fullscreen"%string]]).2
  = [true; false]
  /\ fullscreen_sets
       (client_message env ["hybrid-exit-fullscreen"%string] initial).2 = []
  /\ fullscreen_sets
       (client_message {| alive := false; isFullScreen := true; mpv_ready := true |}
          ["hybrid-toggle-fullscreen"%string] initial).2 = [].
Proof.
  intros env.
  destruct (fullscreen_state_tracked initial env env env
              ["hybrid-toggle-fullscreen"%string]) as (Htoggle & Hexit & _).
  destruct (fullscreen_state_tracked initial
              {| alive := false; isFullScreen := true; mpv_ready := true |} env env
              ["hybrid-toggle-fullscreen"%string]) as (_ & _ & Hgone).
  destruct (Htoggle eq_refl eq_refl eq_refl) as [Hsets _].
  destruct (Hexit eq_refl eq_refl eq_refl) as [Hoff _].
  destruct (Hgone eq_refl) as [Hnone _].
  split; [exact Hsets|]. split; [exact Hoff | exact Hnone].
Defined.
End InputFacts.

(** ** Pipe names *)

Section PipeNames.
Import Pipe.

Lemma append_nil_l (s : string) : EmptyString +:+ s = s.
Proof. reflexivity. Qed.

Lemma append_cons (x : ascii) (a s : string) : String x a +:+ s = String x (a +:+ s).
Proof. reflexivity. Qed.

Lemma append_assoc (a b c : string) : (a +:+ b) +:+ c = a +:+ b +:+ c.
Proof.
  induction a as [|x a IH]; [reflexivity|].
  rewrite !append_cons. now rewrite IH.
Qed.

Lemma dashless_dash (a b : string) : dashless (a +:+ String "-" b) = false.
Proof.
  induction a as [|x a IH]; [reflexivity|].
  rewrite append_cons. cbn [dashless]. rewrite IH. apply andb_false_r.
Qed.

(** Two texts that end in a hyphen and digits agree on the digits. *)
Lemma last_field (a1 a2 d1 d2 : string) :
  dashless d1 = true -> dashless d2 = true ->
  a1 +:+ "-" +:+ d1 = a2 +:+ "-" +:+ d2 -> d1 = d2.
Proof.
  change ("-" +:+ d1) with (String "-" d1). change ("-" +:+ d2) with (String "-" d2).
  intros H1 H2. revert a2. induction a1 as [|x a1 IH]; intros [|y a2];
    rewrite ?append_nil_l, ?append_cons.
  - now intros [= ->].
  - intros [= _ ->]. now rewrite dashless_dash in H1.
  - intros [= _ <-]. now rewrite dashless_dash in H2.
  - intros [= _ Heq]. now apply (IH a2).
Qed.

Lemma pretty_N_go_dashless (x : N) (s : string) :
  dashless s = true -> dashless (pretty_N_go x s) = true.
Proof.
  revert s. induction (N.lt_wf_0 x) as [x _ IH]; intros s Hs.
  assert (x = 0 \/ 0 < x)%N as [->|Hpos] by lia.
  - now rewrite pretty_N_go_0.
  - rewrite pretty_N_go_step by exact Hpos. apply IH.
    + now apply N.div_lt.
    + cbn [dashless]. rewrite Hs, andb_true_r.
      unfold pretty_N_char. now repeat case_match.
Qed.

Lemma pretty_N_dashless (x : N) : dashless (pretty x) = true.
Proof.
  unfold pretty, pretty_N. destruct (decide (x = 0%N)); [reflexivity|].
  now apply pretty_N_go_dashless.
Qed.

(** The name [makePipeName] returns ends in the counter after the
    call. *)
Lemma makePipeName_shape pid counter prefix :
  exists a, (makePipeName pid counter prefix).1 = a +:+ "-" +:+ pretty (counter + 1)%N
            /\ (makePipeName pid counter prefix).2 = (counter + 1)%N.
Proof.
  exists ("\\.\pipe" +:+ String "092"%char (prefix +:+ "-" +:+ pretty pid)).
  split; [|reflexivity]. unfold makePipeName. cbn [fst].
  repeat (rewrite append_assoc || rewrite append_cons || rewrite append_nil_l).
  reflexivity.
Qed.

Lemma construct_counter pid counter o :
  opt_pipeName o = None ->
  (exists a, Mpv.pipeName (construct pid counter o).1
             = a +:+ "-" +:+ pretty (counter + 1)%N)
  /\ (construct pid counter o).2 = (counter + 1)%N.
Proof.
  intros Hn. unfold construct. rewrite Hn.
  destruct (makePipeName_shape pid counter
              (Mpv.or_else (pipePrefix o) "hybrid-mpv-ipc")) as (a & Ha & Hc).
  destruct (makePipeName _ _ _) as [name c]. cbn [fst snd] in *.
  split; [now exists a | exact Hc].
Qed.

Lemma construct_all_later pid counter options m :
  Forall (fun o => opt_pipeName o = None) options ->
  m ∈ construct_all pid counter options ->
  exists a k, Mpv.pipeName m = a +:+ "-" +:+ pretty k /\ (counter < k)%N.
Proof.
  intros Hall. revert counter.
  induction Hall as [|o options Ho _ IH]; intros counter; cbn [construct_all].
  - now intros ?%elem_of_nil.
  - destruct (construct_counter pid counter o Ho) as [[a Ha] Hc].
    destruct (construct pid counter o) as [m1 c1]. cbn [fst snd] in *. subst c1.
    intros [->|Hin]%elem_of_cons.
    + exists a, (counter + 1)%N. split; [exact Ha | lia].
    + destruct (IH _ Hin) as (a' & k & Hk & Hlt). exists a', k.
      split; [exact Hk | lia].
Qed.

(** Every instance gets a pipe of its own.  Instances constructed in
    one process without a pipe name of their own choosing, whatever
    their prefixes, all have different pipe names. *)
Theorem pipe_names_distinct (pid counter : N) (options : list Options) :
  Forall (fun o => opt_pipeName o = None) options ->
  NoDup (Mpv.pipeName <$> construct_all pid counter options).
Proof.
  intros Hall. revert counter.
  induction Hall as [|o options Ho Hall IH]; intros counter; cbn [construct_all].
  - constructor.
  - destruct (construct_counter pid counter o Ho) as [[a Ha] Hc].
    destruct (construct pid counter o) as [m1 c1]. cbn [fst snd] in *. subst c1.
    cbn [fmap list_fmap]. constructor; [|apply IH].
    intros Hin. apply list_elem_of_fmap in Hin as (m2 & Heq & Hin).
    destruct (construct_all_later pid (counter + 1) options m2 Hall Hin)
      as (a' & k & Hk & Hlt).
    rewrite Ha, Hk in Heq.
    apply last_field in Heq; [|apply pretty_N_dashless..].
    apply (inj pretty) in Heq. lia.
Qed.

Lemma pipe_names_distinct_witness :
  let main := {| opt_pipeName := None; pipePrefix := None;
                 opt_observeDefaults := None |} in
  let preview := {| opt_pipeName := None; pipePrefix := Some "hybrid-mpv-thumb";
                    opt_observeDefaults := Some false |} in
  NoDup (Mpv.pipeName <$> construct_all 4242 0 [main; preview]).
Proof.
  intros main preview.
  apply (pipe_names_distinct 4242 0 [main; preview]).
  repeat constructor.
Defined.
End PipeNames.

(** ** The receive path: what does not count *)

Section Skipped.
Import Mpv.
Context `{JsRuntime}.

(** Lines that are blank and lines that are not JSON are passed over.
    Whatever lines a chunk completes, the instance ends up in the state,
    and performs the effects, of the lines among them that are not blank
    and that [JSON.parse] accepts, in their order; if there is none,
    nothing happens at all. *)
Theorem malformed_lines_are_skipped (lines : list Codec.text) (m : MpvProcess) :
  let good :=
    List.filter (fun l => negb (Codec.blank l) && bool_decide (is_Some (JSON_parse l)))
      lines in
  dispatch lines m = dispatch good m
  /\ (good = [] -> dispatch lines m = (m, [])).
Proof.
  cbv zeta.
  assert (Heq : dispatch lines m
                = dispatch (List.filter
                              (fun l => negb (Codec.blank l)
                                        && bool_decide (is_Some (JSON_parse l)))
                              lines) m).
  { revert m. induction lines as [|line lines IH]; intros m; [reflexivity|].
    cbn [dispatch List.filter].
    destruct (Codec.blank line) eqn:Hb; cbn [negb andb]; [apply IH|].
    destruct (JSON_parse line) as [msg|] eqn:Hp.
    - rewrite bool_decide_eq_true_2 by now eexists.
      cbn [dispatch]. rewrite Hb, Hp.
      destruct (_handleMessage msg m) as [m1 o1]. now rewrite IH.
    - rewrite bool_decide_eq_false_2 by (intros [x Hx]; discriminate). apply IH. }
  split; [exact Heq|]. intros Hnone. now rewrite Heq, Hnone.
Qed.
End Skipped.

Section SkippedWitness.
Import Mpv.

Lemma malformed_lines_are_skipped_witness :
  @dispatch sample_runtime [Codec.text_of "{not json"; Codec.text_of "   "]
    sample_busy = (sample_busy, []).
Proof.
  destruct (@malformed_lines_are_skipped sample_runtime
              [Codec.text_of "{not json"; Codec.text_of "   "] sample_busy)
    as [_ Hnone].
  apply Hnone. reflexivity.
Defined.

Lemma onData_all_whole_chunks_witness :
  let first := Codec.sample_frame_start ++ [Byte.xc3; Byte.xa9] in
  let second := Codec.sample_frame_end ++ [Byte.x0a] in
  @onData_all sample_runtime [first; second] sample_busy
  = @onData_all sample_runtime [concat [first; second]] sample_busy.
Proof.
  intros first second.
  apply (@onData_all_whole_chunks sample_runtime first [second] sample_busy).
  repeat constructor.
Defined.
End SkippedWitness.

(** ** Spawning: with and without a window *)

Section WindowMode.
Import Mpv.

Lemma no_wid_prefix (args : list string) :
  forallb (fun a => negb (String.prefix "--wid=" a)) args = true ->
  forall a, a ∈ args -> String.prefix "--wid=" a = false.
Proof.
  induction args as [|x args IH]; cbn [forallb].
  - intros _ a Hin. now apply elem_of_nil in Hin.
  - rewrite andb_true_iff, negb_true_iff. intros [Hx Hrest] a Hin.
    apply elem_of_cons in Hin as [->|Hin]; [exact Hx | now apply IH].
Qed.

(** The two ways mpv is started.  For the player the child is given
    the window to draw into, as the last argument (the text "null" in
    place of the handle when none was passed), and none of the four
    options of the headless mode.  For previews ([attachWindow] off) it
    is given no window at all, whatever handle was passed, and it is
    started without a window of its own, muted, paused and without
    audio.  Either way it is told to serve the pipe of the instance. *)
Theorem spawn_args_window_mode
    (host : Host) (m : MpvProcess) (hwnd : option Z) (opts : SpawnOpts) :
  let args := spawn_args host m hwnd opts in
  ("--input-ipc-server=" +:+ pipeName m) ∈ args
  /\ (attachWindow opts = false ->
      (forall a, a ∈ args -> String.prefix "--wid=" a = false)
      /\ exists before,
          args = before ++ ["--force-window=no"; "--mute=yes"; "--pause=yes";
                            "--audio=no"]%string)
  /\ (attachWindow opts = true ->
      last args = Some ("--wid=" +:+ match hwnd with
                                      | Some h => pretty h
                                      | None => "null"
                                      end)
      /\ ("--force-window=no"%string ∉ args) /\ ("--mute=yes"%string ∉ args)
      /\ ("--pause=yes"%string ∉ args) /\ ("--audio=no"%string ∉ args)).
Proof.
  intros args. subst args. split; [|split].
  - unfold spawn_args. do 6 right. left.
  - intros Hmode. split.
    + apply no_wid_prefix. unfold spawn_args. rewrite Hmode.
      rewrite !forallb_app.
      destruct (match ytdlPath opts with
                | Some (String c r) => Some (String c r)
                | _ => findYtDlpBinary host
                end) as [[|c r]|]; destruct (enableYtdlRawOptions opts); reflexivity.
    + unfold spawn_args. rewrite Hmode. rewrite !(assoc_L (++)). now eexists.
  - intros Hmode. unfold spawn_args. rewrite Hmode. split.
    + rewrite !(assoc_L (++)). now rewrite last_snoc.
    + destruct (match ytdlPath opts with
                | Some (String c r) => Some (String c r)
                | _ => findYtDlpBinary host
                end) as [[|c r]|]; destruct (enableYtdlRawOptions opts);
        ((split; [|split; [|split]]); intros Hin;
         repeat (apply elem_of_app in Hin as [Hin|Hin]);
         repeat (apply elem_of_cons in Hin as [Hin|Hin];
                 [vm_compute in Hin; discriminate Hin|]);
         now apply elem_of_nil in Hin).
Qed.

Lemma spawn_args_window_mode_witness :
  last (spawn_args sample_host (new sample_pipe false) (Some 4660) sample_opts)
  = Some "--wid=4660"%string
  /\ forall a,
      a ∈ spawn_args sample_host (new sample_pipe false) (Some 4660)
            {| attachWindow := false; mpvPath := None; ytdlPath := None;
               cookiesPath := None; screenshotDir := None; hwdec := None;
               ytdlUserAgent := None; enableYtdlRawOptions := false |} ->
      String.prefix "--wid=" a = false.
Proof.
  split.
  - destruct (spawn_args_window_mode sample_host (new sample_pipe false)
                (Some 4660) sample_opts) as (_ & _ & Hattached).
    destruct (Hattached eq_refl) as [Hlast _]. exact Hlast.
  - destruct (spawn_args_window_mode sample_host (new sample_pipe false)
                (Some 4660)
                {| attachWindow := false; mpvPath := None; ytdlPath := None;
                   cookiesPath := None; screenshotDir := None; hwdec := None;
                   ytdlUserAgent := None; enableYtdlRawOptions := false |})
      as (_ & Hheadless & _).
    destruct (Hheadless eq_refl) as [Hnone _]. exact Hnone.
Defined.
End WindowMode.

(** ** The progress bar *)

Section ProgressBar.
Import Controls.
Implicit Types (st : Progress) (ev : Event).

Lemma shr_1_nonneg mrs : 0 <= shr_m mrs -> 0 <= shr_m (shr_1 mrs).
Proof.
  destruct mrs as [m r s0]. cbn [shr_m]. intros Hm.
  destruct m as [|[p|p|]|p]; cbn; lia.
Qed.

Lemma iter_shr_1_nonneg p mrs :
  0 <= shr_m mrs -> 0 <= shr_m (SpecFloat.iter_pos shr_1 p mrs).
Proof.
  revert mrs. induction p as [p IH|p IH|]; intros mrs Hm; cbn [SpecFloat.iter_pos].
  - apply IH, IH, shr_1_nonneg, Hm.
  - apply IH, IH, Hm.
  - apply shr_1_nonneg, Hm.
Qed.

Lemma shr_fexp_nonneg m e l :
  0 <= m -> 0 <= shr_m (shr_fexp Double.prec Double.emax m e l).1.
Proof.
  intros Hm. unfold shr_fexp, shr.
  assert (H0 : 0 <= shr_m (shr_record_of_loc m l)) by (destruct l as [|[| |]]; exact Hm).
  destruct (_ - e) as [|p|p]; cbn [fst]; [exact H0 | | exact H0].
  now apply iter_shr_1_nonneg.
Qed.

Lemma round_nearest_even_nonneg m l : 0 <= m -> 0 <= round_nearest_even m l.
Proof.
  intros Hm. destruct l as [|[| |]]; cbn; [lia| |lia|lia].
  destruct (Z.even m); lia.
Qed.

(** Rounding a mantissa that is not negative gives a number. *)
Lemma binary_round_aux_number s m e l :
  0 <= m -> Double.isNaN (binary_round_aux Double.prec Double.emax s m e l) = false.
Proof.
  intros Hm. unfold binary_round_aux.
  pose proof (shr_fexp_nonneg m e l Hm) as H1.
  destruct (shr_fexp Double.prec Double.emax m e l) as [mrs' e']. cbn [fst] in H1.
  pose proof (shr_fexp_nonneg _ e' loc_Exact
                (round_nearest_even_nonneg _ (loc_of_shr_record mrs') H1)) as H2.
  destruct (shr_fexp Double.prec Double.emax _ e' loc_Exact) as [mrs'' e''].
  cbn [fst] in H2.
  destruct (shr_m mrs'') as [|p|p]; [reflexivity | now destruct (_ <=? _) | lia].
Qed.

Lemma binary_normalize_number m e :
  Double.isNaN (binary_normalize Double.prec Double.emax m e false) = false.
Proof.
  destruct m as [|p|p]; cbn [binary_normalize]; [reflexivity| |];
    unfold binary_round; destruct (shl_align _ _ _) as [mz ez];
    apply binary_round_aux_number; lia.
Qed.

(** The difference of two finite numbers is a number (it may be
    infinite), and so are the quotient and the product of a number with
    a finite number other than zero. *)
Lemma sub_number x y :
  Double.isFinite x = true -> Double.isFinite y = true ->
  Double.isNaN (Double.sub x y) = false.
Proof.
  destruct x as [sx| | |sx mx ex], y as [sy| | |sy my ey]; try discriminate; intros _ _.
  - now destruct sx, sy.
  - reflexivity.
  - reflexivity.
  - apply binary_normalize_number.
Qed.

Lemma div_number x y :
  Double.isNaN x = false -> Double.isFinite y = true -> Double.truthy y = true ->
  Double.isNaN (Double.div x y) = false.
Proof.
  destruct x as [sx|sx| |sx mx ex], y as [sy| | |sy my ey]; try discriminate;
    intros _ _ _; try reflexivity.
  unfold Double.div, SFdiv, SFdiv_core_binary.
  set (m' := match _ - _ - _ with 0 => _ | Z.pos _ => _ | Z.neg _ => _ end).
  assert (Hm' : 0 <= m').
  { subst m'. destruct (_ - _ - _) as [|p|p]; [lia| |lia].
    apply Z.shiftl_nonneg. lia. }
  pose proof (Z.div_pos m' (Z.pos my) Hm' ltac:(lia)) as Hq.
  unfold Z.div in Hq. destruct (Z.div_eucl m' (Z.pos my)) as [q r].
  now apply binary_round_aux_number.
Qed.

Lemma mul_number x y :
  Double.isNaN x = false -> Double.isFinite y = true -> Double.truthy y = true ->
  Double.isNaN (Double.mul x y) = false.
Proof.
  destruct x as [sx|sx| |sx mx ex], y as [sy| | |sy my ey]; try discriminate;
    intros _ _ _; try reflexivity.
  unfold Double.mul, SFmul. apply binary_round_aux_number. lia.
Qed.

Lemma of_Z_100 : Double.of_Z 100 = S754_finite false 7036874417766400 (-46).
Proof. vm_compute. reflexivity. Qed.

(** The clamp: a number comes out between 0 and 100, [NaN] comes out
    as [NaN]. *)
Lemma clamp_on_bar x :
  Double.isNaN x = false ->
  on_bar (Double.Math_max (Double.of_Z 0) (Double.Math_min (Double.of_Z 100) x)).
Proof.
  unfold on_bar. rewrite of_Z_100. change (Double.of_Z 0) with (S754_zero false).
  destruct x as [s|s| |s m e]; try discriminate; intros _.
  - now destruct s.
  - now destruct s.
  - unfold Double.Math_min. cbn [Double.isNaN orb].
    destruct (Double.lt (S754_finite s m e) _) eqn:Hlt; [|now split].
    unfold Double.Math_max. cbn [Double.isNaN orb]. destruct s; [now split|].
    change (Double.lt (S754_zero false) (S754_finite false m e)) with true. cbn iota.
    split; [reflexivity|]. unfold Double.lt, SFltb in Hlt. unfold Double.le, SFleb.
    now destruct (SFcompare _ _) as [[| |]|].
Qed.

Lemma clamp_NaN x :
  Double.isNaN (Double.Math_max (Double.of_Z 0) (Double.Math_min (Double.of_Z 100) x))
  = Double.isNaN x.
Proof.
  rewrite of_Z_100. change (Double.of_Z 0) with (S754_zero false).
  destruct x as [s|s| |s m e]; try reflexivity.
  - now destruct s.
  - unfold Double.Math_min. cbn [Double.isNaN orb]. destruct (Double.lt _ _); [|reflexivity].
    unfold Double.Math_max. cbn [Double.isNaN orb]. now destruct (Double.lt _ _).
Qed.

Lemma raw_percent_number (e : Pointer) :
  measured e -> Double.isNaN (raw_percent e) = false.
Proof.
  intros (Hx & Hl & Hw & Hnz). unfold raw_percent.
  apply mul_number; [|reflexivity|reflexivity].
  apply div_number; [|exact Hw|exact Hnz]. now apply sub_number.
Qed.

Lemma captures_none (out : list Thumbnails.Effect) :
  out = [] -> List.filter is_capture (captures out) = [].
Proof. now intros ->. Qed.

Lemma seeks_app (out more : list Effect) : seeks (out ++ more) = seeks out ++ seeks more.
Proof. unfold seeks. apply omap_app. Qed.

Lemma seeks_captures (out : list Thumbnails.Effect) : seeks (captures out) = [].
Proof. induction out as [|[t] out IH]; [reflexivity | exact IH]. Qed.

Lemma with_thumbnails_idle f st :
  (forall t, Thumbnails.waiting t = 0%nat ->
             (f t).2 = [] /\ Thumbnails.waiting (f t).1 = 0%nat) ->
  dragging_idle st ->
  dragging_idle (with_thumbnails f st).1 /\ (with_thumbnails f st).2 = [].
Proof.
  intros Hf [Hd Hw]. unfold with_thumbnails.
  destruct (thumbnailModule st) as [t|] eqn:Ht;
    [|split; [split; [exact Hd | intros t0; cbn [fst]; rewrite Ht; discriminate]
             | reflexivity]].
  destruct (Hf t (Hw t eq_refl)) as [Hout Hidle].
  destruct (f t) as [t' out]. cbn [fst snd] in *. subst out.
  split; [|reflexivity]. split; [exact Hd|]. now intros t0 [= <-].
Qed.

Lemma quiet_step_idle (e : Thumbnails.Event) (t : Thumbnails.HybridThumbnails) :
  Thumbnails.is_generate e = false -> Thumbnails.waiting t = 0%nat ->
  (Thumbnails.step t e).2 = [] /\ Thumbnails.waiting (Thumbnails.step t e).1 = 0%nat.
Proof.
  intros He Hw. pose proof (step_spends e t He) as Hs. rewrite Hw in Hs.
  split; [|lia]. destruct (Thumbnails.step t e).2; [reflexivity | cbn in Hs; lia].
Qed.

Lemma step_dragging ev st :
  is_mouse_up ev = false -> dragging_idle st ->
  dragging_idle (step st ev).1 /\ List.filter is_capture (step st ev).2 = [].
Proof.
  intros Hup Hidle. destruct ev; try discriminate; cbn [step].
  - destruct (with_thumbnails_idle
                (fun t => (Thumbnails.cancelPending t, []))
                {| isDraggingProgress := true; thumbnailModule := thumbnailModule st |})
      as [Hi Hout].
    + intros t _. now split.
    + destruct Hidle as [_ Hw]. now split.
    + destruct (with_thumbnails _ _) as [st1 o1]. cbn [fst snd] in *. now subst o1.
  - now split.
  - destruct Hidle as [Hd Hw]. rewrite Hd. now repeat split.
  - destruct (with_thumbnails_idle (fun t => (Thumbnails.cancelPending t, [])) st)
      as [Hi Hout]; [|exact Hidle|].
    + intros t _. now split.
    + now rewrite Hout.
  - destruct (with_thumbnails_idle Thumbnails.debounce_fires st) as [Hi Hout];
      [|exact Hidle|].
    + intros t Hw. now apply (quiet_step_idle Thumbnails.DebounceFires t).
    + now rewrite Hout.
  - destruct (with_thumbnails_idle (Thumbnails.capture_settles result) st)
      as [Hi Hout]; [|exact Hidle|].
    + intros t Hw. now apply (quiet_step_idle (Thumbnails.CaptureSettles result) t).
    + now rewrite Hout.
Qed.

(** No preview is made while the bar is dragged.  Pressing the mouse
    on the bar cancels what the thumbnail module had waiting, and until
    the button is released nothing the pointer does, no timer and no
    capture that completes, starts a capture. *)
Theorem no_capture_while_dragging (st : Progress) (e : Pointer) (evs : list Event) :
  forallb (fun ev => negb (is_mouse_up ev)) evs = true ->
  List.filter is_capture (run st (MouseDown e :: evs)).2 = []
  /\ isDraggingProgress (run st (MouseDown e :: evs)).1 = true.
Proof.
  intros Hevs.
  assert (Hrun : forall evs st0, forallb (fun ev => negb (is_mouse_up ev)) evs = true ->
             dragging_idle st0 ->
             List.filter is_capture (run st0 evs).2 = []
             /\ dragging_idle (run st0 evs).1).
  { clear. induction evs as [|ev evs IH]; intros st0; cbn [forallb run].
    - now intros _ Hi.
    - rewrite andb_true_iff, negb_true_iff. intros [Hup Hrest] Hi.
      destruct (step_dragging ev st0 Hup Hi) as [Hi1 Hout].
      destruct (step st0 ev) as [st1 o1]. cbn [fst snd] in *.
      destruct (IH st1 Hrest Hi1) as [Hout' Hi2].
      destruct (run st1 evs) as [st2 o2]. cbn [fst snd] in *.
      now rewrite List.filter_app, Hout, Hout'. }
  assert (Hstart : dragging_idle st \/ True) by now right.
  clear Hstart.
  assert (Hdown : dragging_idle (step st (MouseDown e)).1
                  /\ List.filter is_capture (step st (MouseDown e)).2 = []).
  { cbn [step]. unfold with_thumbnails. cbn [thumbnailModule isDraggingProgress].
    destruct (thumbnailModule st) as [t|]; cbn [fst snd].
    - split; [|reflexivity]. split; [reflexivity|]. now intros t0 [= <-].
    - split; [|reflexivity]. split; [reflexivity|]. discriminate. }
  destruct Hdown as [Hi Hout]. cbn [run].
  destruct (step st (MouseDown e)) as [st1 o1]. cbn [fst snd] in *.
  destruct (Hrun evs st1 Hevs Hi) as [Hout' [Hd _]].
  destruct (run st1 evs) as [st2 o2]. cbn [fst snd] in *.
  now rewrite List.filter_app, Hout, Hout'.
Qed.

Lemma no_capture_while_dragging_witness :
  let e := {| clientX := Double.of_Z 150; rect_left := Double.of_Z 100;
              rect_width := Double.of_Z 200 |} in
  let st := (run {| isDraggingProgress := false;
                    thumbnailModule := Some (Thumbnails.new (Some EmptyString)) |}
               [Hover e (Double.of_Z 60)]).1 in
  List.filter is_capture
    (run st [MouseDown e; DebounceFires; Hover e (Double.of_Z 60); DebounceFires]).2
  = [].
Proof.
  intros e st.
  destruct (no_capture_while_dragging st e
              [DebounceFires; Hover e (Double.of_Z 60); DebounceFires] eq_refl)
    as [Hnone _].
  exact Hnone.
Defined.

(** The positions handed to [seekPercent] are those of the presses and
    releases of the mouse. *)
Lemma seeks_step st ev p :
  p ∈ seeks (step st ev).2 ->
  exists e, (ev = MouseDown e \/ ev = DocumentMouseUp e) /\ p = getPercent e.
Proof.
  destruct ev; cbn [step]; unfold with_thumbnails.
  - intros Hin. exists e. split; [now left|].
    destruct (thumbnailModule _); cbn [fst snd app seeks omap list_omap] in Hin;
      now apply list_elem_of_singleton in Hin.
  - now intros Hin%elem_of_nil.
  - destruct (isDraggingProgress st); [|now intros Hin%elem_of_nil].
    intros Hin. exists e. split; [now right|].
    now apply list_elem_of_singleton in Hin.
  - destruct (isDraggingProgress st); [now intros Hin%elem_of_nil|].
    destruct (thumbnailModule st); [|now intros Hin%elem_of_nil].
    destruct (Thumbnails.generatePreview _ _ _) as [t' out]. cbn [snd].
    rewrite seeks_captures. now intros Hin%elem_of_nil.
  - destruct (thumbnailModule st); now intros Hin%elem_of_nil.
  - destruct (thumbnailModule st); [|now intros Hin%elem_of_nil].
    destruct (Thumbnails.debounce_fires _) as [t' out]. cbn [snd].
    rewrite seeks_captures. now intros Hin%elem_of_nil.
  - destruct (thumbnailModule st); [|now intros Hin%elem_of_nil].
    destruct (Thumbnails.capture_settles _ _) as [t' out]. cbn [snd].
    rewrite seeks_captures. now intros Hin%elem_of_nil.
Qed.

Lemma seeks_run evs st p :
  p ∈ seeks (run st evs).2 ->
  exists e, (MouseDown e ∈ evs \/ DocumentMouseUp e ∈ evs) /\ p = getPercent e.
Proof.
  revert st. induction evs as [|ev evs IH]; intros st; cbn [run].
  - now intros Hin%elem_of_nil.
  - pose proof (seeks_step st ev p) as Hstep.
    destruct (step st ev) as [st1 o1]. specialize (IH st1).
    destruct (run st1 evs) as [st2 o2]. cbn [fst snd] in *.
    rewrite seeks_app. intros [Hin|Hin]%elem_of_app.
    + destruct (Hstep Hin) as (e & [->| ->] & ->); exists e;
        (split; [|reflexivity]); [left | right]; left.
    + destruct (IH Hin) as (e & [He|He] & ->); exists e;
        (split; [|reflexivity]); [left | right]; now right.
Qed.

(** Positions are clamped.  Whatever the pointer does and wherever it
    is, a position handed to [seekPercent] is [NaN] or lies between 0
    and 100, and it is [NaN] exactly when the quotient computed from the
    pointer is.  Where the pointer and the box of the bar are at finite
    numbers and the box has a width, that quotient is a number, so
    every position handed to [seekPercent] lies between 0 and 100. *)
Theorem pointer_positions_clamped (st : Progress) (evs : list Event) (e : Pointer) :
  Forall (fun p => Double.isNaN p = true \/ on_bar p) (seeks (run st evs).2)
  /\ Double.isNaN (getPercent e) = Double.isNaN (raw_percent e)
  /\ (Forall has_width evs -> Forall on_bar (seeks (run st evs).2)).
Proof.
  split; [|split].
  - apply Forall_forall. intros p Hin.
    destruct (seeks_run evs st p Hin) as (e0 & _ & ->). unfold getPercent.
    destruct (Double.isNaN (raw_percent e0)) eqn:Hnan.
    + left. now rewrite clamp_NaN.
    + right. now apply clamp_on_bar.
  - apply clamp_NaN.
  - intros Hall. apply Forall_forall. intros p Hin.
    destruct (seeks_run evs st p Hin) as (e0 & Hev & ->).
    apply clamp_on_bar, raw_percent_number.
    rewrite Forall_forall in Hall.
    destruct Hev as [Hev|Hev]; exact (Hall _ Hev).
Qed.

Lemma pointer_positions_clamped_witness :
  let e := {| clientX := Double.of_Z 500; rect_left := Double.of_Z 100;
              rect_width := Double.of_Z 200 |} in
  Forall on_bar
    (seeks (run {| isDraggingProgress := false; thumbnailModule := None |}
              [MouseDown e; DocumentMouseUp e]).2).
Proof.
  intros e.
  destruct (pointer_positions_clamped
              {| isDraggingProgress := false; thumbnailModule := None |}
              [MouseDown e; DocumentMouseUp e] e) as (_ & _ & Hseek).
  apply Hseek. repeat constructor.
Defined.
End ProgressBar.
